(** * Live streaming platform: token engine, stream registry, manifest
      rewriter and segment cache

    A shallow embedding of [src/auth.js] (URL cipher, token service and
    stream registry) and of the stream proxy module (manifest rewriter and
    segment cache), with the properties stated about them.

    Conventions of the embedding.
    - A JavaScript string is a [string]: the sequence of the bytes of its
      UTF-8 encoding (decoding bytes that are not UTF-8 is not modelled).
      A [Buffer] is a [list byte].
    - [Date.now()] and [new Date()] are an explicit argument [now], in
      milliseconds.  Random draws ([crypto.randomBytes], [uuidv4]) are
      explicit arguments as well.
    - A JavaScript number that the code computes with is an integer of
      [Z]; where the result of the code depends on the rounding of
      floating-point arithmetic, the definition says so.
    - A thrown [Error] is [Throw msg], [msg] being the error's message.
    - The primitives of Node's [crypto] module (scrypt, AES-256-GCM,
      SHA-256) are not part of the repository: they are the fields of the
      record [Crypto], and the properties that rely on what they compute
      name the law they use.  The same holds of the time span that
      [jsonwebtoken] computes for a token ([Jwt.timespan]) and of
      [url.resolve] of Node's [url] module, which are parameters of the
      functions that call them. *)

From Stdlib Require Import ZArith NArith Lia List Bool Ascii String.
From Stdlib Require Import Init.Byte.
From stdpp Require Import base option gmap strings list fin_maps.

Import ListNotations.
Local Open Scope Z_scope.
Local Open Scope string_scope.

(** ** Outcomes of functions that may throw *)

Inductive outcome (A : Type) : Type :=
| Return (a : A)
| Throw (msg : string).
Arguments Return {A} a.
Arguments Throw {A} msg.

(** What is computed from the value that was returned; a throw is
    passed on. *)
Definition outcome_map {A B : Type} (f : A -> B) (o : outcome A) : outcome B :=
  match o with
  | Return a => Return (f a)
  | Throw msg => Throw msg
  end.

(** ** Strings and buffers *)

Module Str.

(** [s.split(sep)] for a one-character separator. *)
Fixpoint split_aux (sep : ascii) (cur : string) (s : string) : list string :=
  match s with
  | EmptyString => [cur]
  | String c s' =>
      if Ascii.eqb c sep then cur :: split_aux sep EmptyString s'
      else split_aux sep (cur ++ String c EmptyString) s'
  end.

Definition split (sep : ascii) (s : string) : list string :=
  split_aux sep EmptyString s.

(** [parts.join(sep)] *)
Fixpoint join (sep : string) (parts : list string) : string :=
  match parts with
  | [] => EmptyString
  | [p] => p
  | p :: rest => p ++ sep ++ join sep rest
  end.

(** [s.startsWith(p)] *)
Definition startsWith (p s : string) : bool := String.prefix p s.

Fixpoint rev_string (s : string) : string :=
  match s with
  | EmptyString => EmptyString
  | String c s' => rev_string s' ++ String c EmptyString
  end.

(** [s.endsWith(p)] *)
Definition endsWith (p s : string) : bool :=
  String.prefix (rev_string p) (rev_string s).

(** [s.indexOf(p)]: the characters before and after the first occurrence
    of [p] in [s], when there is one. *)
Fixpoint find_first (p : string) (s : string) : option (string * string) :=
  if String.prefix p s
  then Some (EmptyString, String.substring (String.length p)
                            (String.length s - String.length p) s)
  else match s with
       | EmptyString => None
       | String c s' =>
           match find_first p s' with
           | Some (before, after) => Some (String c before, after)
           | None => None
           end
       end.

(** [s.includes(p)] *)
Definition includes (p s : string) : bool :=
  match find_first p s with Some _ => true | None => false end.

(** White space removed by [trim]: the code points of the ECMAScript
    [WhiteSpace] and [LineTerminator] classes, in UTF-8.  One byte: TAB,
    LF, VT, FF, CR, SP. *)
Definition is_space (c : ascii) : bool :=
  let n := N_of_ascii c in
  ((9 <=? n) && (n <=? 13))%N || (n =? 32)%N.

(** Two bytes: U+00A0 (no-break space). *)
Definition is_space2 (c1 c2 : ascii) : bool :=
  ((N_of_ascii c1 =? 194) && (N_of_ascii c2 =? 160))%N.

(** Three bytes: U+1680, U+2000 to U+200A, U+2028, U+2029, U+202F,
    U+205F, U+3000 and U+FEFF (byte order mark). *)
Definition is_space3 (c1 c2 c3 : ascii) : bool :=
  let n1 := N_of_ascii c1 in
  let n2 := N_of_ascii c2 in
  let n3 := N_of_ascii c3 in
  ((n1 =? 225) && (n2 =? 154) && (n3 =? 128)
   || (n1 =? 226) && (n2 =? 128)
      && ((128 <=? n3) && (n3 <=? 138) || (n3 =? 168) || (n3 =? 169)
          || (n3 =? 175))
   || (n1 =? 226) && (n2 =? 129) && (n3 =? 159)
   || (n1 =? 227) && (n2 =? 128) && (n3 =? 128)
   || (n1 =? 239) && (n2 =? 187) && (n3 =? 191))%N.

(** [s.trimStart()] *)
Fixpoint trim_start (s : string) : string :=
  match s with
  | EmptyString => EmptyString
  | String c1 s1 =>
      if is_space c1 then trim_start s1
      else
        match s1 with
        | EmptyString => s
        | String c2 s2 =>
            if is_space2 c1 c2 then trim_start s2
            else
              match s2 with
              | EmptyString => s
              | String c3 s3 =>
                  if is_space3 c1 c2 c3 then trim_start s3 else s
              end
        end
  end.

(** [s] is made of white space only. *)
Definition blank (s : string) : bool :=
  match trim_start s with EmptyString => true | _ => false end.

(** [s.trimEnd()]: [s] up to its longest suffix of white space.  (A
    suffix that starts inside the encoding of a code point starts with a
    continuation byte, and is not made of white space.) *)
Fixpoint trim_end (s : string) : string :=
  match s with
  | EmptyString => EmptyString
  | String c s' => if blank s then EmptyString else String c (trim_end s')
  end.

(** [s.trim()] *)
Definition trim (s : string) : string := trim_end (trim_start s).

End Str.

(** ** Hexadecimal encoding of buffers *)

Module Hex.

(** The digit of a nibble, as [buf.toString('hex')] prints it (lower
    case). *)
Definition digit (n : N) : ascii :=
  if (n <? 10)%N then ascii_of_N (48 + n) else ascii_of_N (87 + n).

(** The value of a hexadecimal digit, of either case; [None] for any
    other character. *)
Definition unhex (c : ascii) : option N :=
  let n := N_of_ascii c in
  if ((48 <=? n) && (n <=? 57))%N then Some (n - 48)%N
  else if ((97 <=? n) && (n <=? 102))%N then Some (n - 87)%N
  else if ((65 <=? n) && (n <=? 70))%N then Some (n - 55)%N
  else None.

Definition byte_of_nibbles (hi lo : N) : byte :=
  match Byte.of_N (16 * hi + lo) with
  | Some b => b
  | None => x00
  end.

(** [buf.toString('hex')] *)
Fixpoint to_hex (buf : list byte) : string :=
  match buf with
  | [] => EmptyString
  | b :: rest =>
      let n := Byte.to_N b in
      String (digit (n / 16)) (String (digit (n mod 16)) (to_hex rest))
  end.

(** [Buffer.from(s, 'hex')]: pairs of digits are decoded until the first
    pair that is not two hexadecimal digits; a trailing single character
    is dropped. *)
Fixpoint from_hex (s : string) : list byte :=
  match s with
  | String a (String b rest) =>
      match unhex a, unhex b with
      | Some hi, Some lo => byte_of_nibbles hi lo :: from_hex rest
      | _, _ => []
      end
  | _ => []
  end.

End Hex.

(** ** The primitives of Node's [crypto] module *)

(** [scryptSync], AES-256-GCM and SHA-256 as the module uses them.
    [gcm_encrypt key iv plaintext] is what a cipher created by
    [createCipheriv('aes-256-gcm', key, iv)] produces for one [update] and
    [final]: the encrypted bytes and the authentication tag of
    [getAuthTag()].  [gcm_decrypt key iv tag data] is a decipher created
    by [createDecipheriv] after [setAuthTag(tag)], [update(data)] and
    [final()]: the plaintext, or [None] when one of these calls throws
    (bad nonce or tag length, tag that does not verify). *)
Record Crypto : Type := {
  scryptSync : string -> string -> Z -> list byte;
  gcm_encrypt : list byte -> list byte -> list byte -> list byte * list byte;
  gcm_decrypt : list byte -> list byte -> list byte -> list byte ->
                option (list byte);
  sha256_hex : string -> string
}.

(** Two buffers that differ in exactly one byte. *)
Definition single_byte_mutation (l l' : list byte) : Prop :=
  exists pre b b' post,
    l = (pre ++ b :: post)%list /\ l' = (pre ++ b' :: post)%list /\ b <> b'.

(** Correctness of the authenticated cipher: decrypting what was
    encrypted, under the same key and nonce and with the tag that came
    with it, gives the plaintext back. *)
Definition gcm_correct (C : Crypto) : Prop :=
  forall key iv plain,
    gcm_decrypt C key iv (snd (gcm_encrypt C key iv plain))
                (fst (gcm_encrypt C key iv plain)) = Some plain.

(** Integrity of the authenticated cipher, in the form the tamper
    property needs: the decryption fails when one byte of the tag or one
    byte of the encrypted data was changed. *)
Definition gcm_detects_mutation (C : Crypto) : Prop :=
  forall key iv plain data tag,
    gcm_encrypt C key iv plain = (data, tag) ->
    (forall tag', single_byte_mutation tag tag' ->
       gcm_decrypt C key iv tag' data = None) /\
    (forall data', single_byte_mutation data data' ->
       gcm_decrypt C key iv tag data' = None).

(** A small instance of [Crypto], used to run the definitions on
    concrete inputs: a keyed byte-wise shift with a one-byte checksum as
    tag (padded to 16 bytes).  It is not AES-GCM; it satisfies
    [gcm_correct] and [gcm_detects_mutation]. *)
Module Toy.

Definition Z_of_byte (b : byte) : Z := Z.of_N (Byte.to_N b).

Definition byte_of_Z (z : Z) : byte :=
  match Byte.of_N (Z.to_N z) with
  | Some b => b
  | None => x00
  end.

Definition sum_bytes (l : list byte) : Z :=
  fold_right (fun b acc => Z_of_byte b + acc)%Z 0%Z l.

(** The shift derived from the key and the nonce. *)
Definition pad (key iv : list byte) : Z :=
  (90 + sum_bytes key + sum_bytes iv) mod 256.

Definition shift (k : Z) (b : byte) : byte :=
  byte_of_Z ((Z_of_byte b + k) mod 256).

Definition tag_of (k : Z) (data : list byte) : list byte :=
  byte_of_Z ((k + sum_bytes data) mod 256) :: repeat x00 15.

Fixpoint list_byte_eqb (a b : list byte) : bool :=
  match a, b with
  | [], [] => true
  | x :: a', y :: b' => Byte.eqb x y && list_byte_eqb a' b'
  | _, _ => false
  end.

Definition encrypt (key iv plain : list byte) : list byte * list byte :=
  let k := pad key iv in
  let data := List.map (shift k) plain in
  (data, tag_of k data).

Definition decrypt (key iv tag data : list byte) : option (list byte) :=
  let k := pad key iv in
  if list_byte_eqb tag (tag_of k data)
  then Some (List.map (shift (- k)) data)
  else None.

Definition crypto : Crypto := {|
  scryptSync := fun password salt len =>
    firstn (Z.to_nat len)
      (list_byte_of_string (password ++ salt) ++ repeat x00 (Z.to_nat len))%list;
  gcm_encrypt := encrypt;
  gcm_decrypt := decrypt;
  sha256_hex := fun s =>
    Hex.to_hex (firstn 32 (list_byte_of_string s ++ repeat x00 32)%list)
|}.

End Toy.

(** ** Token configuration ([token.json]) *)

Record JwtConfig : Type := {
  secret : string;
  expiresIn : string;
  issuer : string;
  audience : string
}.

Record StreamConfig : Type := {
  defaultExpiryMinutes : Z;
  maxConcurrentViewers : Z;
  tokenRefreshWindowMinutes : Z
}.

Record TokenConfig : Type := {
  jwt : JwtConfig;
  stream : StreamConfig
}.

(** The fallback configuration of [auth.js], with the fallback secret. *)
Definition fallbackConfig : TokenConfig := {|
  jwt := {| secret := "fallback-secret-min-32-characters-long";
            expiresIn := "2h";
            issuer := "live-streaming-platform";
            audience := "stream-viewers" |};
  stream := {| defaultExpiryMinutes := 120;
               maxConcurrentViewers := 1000;
               tokenRefreshWindowMinutes := 15 |}
|}.

(** ** Dates

    A [Date] object is its time value, in milliseconds, or an invalid
    date: [new Date(v)] is invalid when [v] is further than 8.64e15 ms
    from the epoch.  [Date.now()] is a time value between 0 and that
    bound. *)
Inductive Date : Type :=
| Time (t : Z)
| InvalidDate.

Definition MAX_TIME : Z := 8640000000000000.

(** [new Date(v)] *)
Definition new_Date (v : Z) : Date :=
  if (Z.abs v <=? MAX_TIME)%Z then Time v else InvalidDate.

(** [date < now], [now] being a [Date] of time value [now]: the
    comparison of the time values, false on an invalid date (whose time
    value is [NaN]). *)
Definition date_lt (date : Date) (now : Z) : bool :=
  match date with
  | Time t => (t <? now)%Z
  | InvalidDate => false
  end.

(** ** JSON web tokens ([jsonwebtoken])

    A token is modelled by its claims and by the secret its signature was
    computed with: [verify] accepts the signature exactly when that secret
    is the one it is given. *)
Module Jwt.

Record Token : Type := {
  streamId : string;
  url : string;
  iat : Z;
  type : string;
  exp : Z;
  iss : string;
  aud : string;
  jti : string;
  signedWith : string
}.

(** The library's [timespan(`${minutes}m`, iat)], the [exp] claim of a
    token signed with [expiresIn: `${minutes}m`] on a payload that
    carries [iat]: [None] when the [ms] package does not read the text
    as a time span.  It is a parameter of [sign]; the two laws say what
    the library computes where floating-point rounding plays no part. *)
Definition Timespan : Type := Z -> Z -> option Z.

(** Up to 10^12 minutes, on a clock of up to 10^15 seconds, the expiry
    is [iat] plus the time span in seconds, exactly. *)
Definition timespan_exact (timespan : Timespan) : Prop :=
  forall minutes iat,
    Z.abs minutes <= 10 ^ 12 -> Z.abs iat <= 10 ^ 15 ->
    timespan minutes iat = Some (iat + minutes * 60).

(** From 10^21 on a number is printed with an exponent ([1e+21m]),
    which is not a time span. *)
Definition timespan_unparsed (timespan : Timespan) : Prop :=
  forall minutes iat,
    10 ^ 21 <= Z.abs minutes -> timespan minutes iat = None.

(** The time span in exact arithmetic: an instance of [Timespan] that
    satisfies the two laws, used to run the definitions on concrete
    inputs. *)
Definition exact_timespan : Timespan :=
  fun minutes iat =>
    if (10 ^ 21 <=? Z.abs minutes)%Z then None else Some (iat + minutes * 60).

(** [jwt.sign(payload, secret, { expiresIn: `${minutes}m`, issuer,
    audience, jwtid })], the payload carrying [streamId], [url], [iat]
    and [type].  [None]: it throws, the time span not being read (its
    caller replaces the error by one of its own). *)
Definition sign (timespan : Timespan) (streamId url : string) (iat : Z)
    (type : string) (key : string) (minutes : Z)
    (issuer audience jwtid : string) : option Token :=
  match timespan minutes iat with
  | Some exp =>
      Some {| streamId := streamId; url := url; iat := iat; type := type;
              exp := exp;
              iss := issuer; aud := audience; jti := jwtid;
              signedWith := key |}
  | None => None
  end.

(** [jwt.verify(token, secret, { issuer, audience })] at clock [now]
    (milliseconds): the signature, then the expiry, the audience and the
    issuer. *)
Definition verify (now : Z) (t : Token) (key issuer audience : string)
    : outcome Token :=
  if negb (String.eqb (signedWith t) key) then Throw "invalid signature"
  else if (exp t <=? now / 1000)%Z then Throw "jwt expired"
  else if negb (String.eqb (aud t) audience)
       then Throw ("jwt audience invalid. expected: " ++ audience)
  else if negb (String.eqb (iss t) issuer)
       then Throw ("jwt issuer invalid. expected: " ++ issuer)
  else Return t.

End Jwt.

(** ** [auth.js]: URL cipher, token service and stream registry *)

Module Auth.

(** The value of an entry of [activeStreams].  [createdAt] and
    [stoppedAt] are [new Date()], dates that are never invalid: they are
    kept as their time value. *)
Record StreamData : Type := {
  streamId : string;
  originalUrl : string;
  encryptedUrl : string;
  createdAt : Z;
  expiresAt : Date;
  viewerCount : Z;
  maxViewers : Z;
  isActive : bool;
  tokenJti : string;
  stoppedAt : option Z
}.

(** The value of an entry of [viewerSessions]. *)
Record Session : Type := {
  sessionId : string;
  sessionStreamId : string;
  joinedAt : Z;
  lastActivity : Z
}.

(** The two module-level maps. *)
Record Store : Type := {
  activeStreams : gmap string StreamData;
  viewerSessions : gmap string Session
}.

Definition empty_store : Store :=
  {| activeStreams := ∅; viewerSessions := ∅ |}.

(** The argument of [generateToken]; an absent field is [None]. *)
Record Payload : Type := {
  payloadStreamId : option string;
  payloadOriginalUrl : string;
  payloadExpiryMinutes : option Z
}.

(** What [generateToken] returns ([viewerUrl], a text built from the
    other fields, is left out). *)
Record Generated : Type := {
  token : Jwt.Token;
  generatedStreamId : string;
  generatedExpiresAt : Date
}.

(** What [validateToken] returns. *)
Record Validation : Type := {
  valid : bool;
  decoded : option Jwt.Token;
  streamData : option StreamData;
  error : option string
}.

(** What [stopStream] returns. *)
Record Stopped : Type := {
  success : bool;
  message : string
}.

(** What [getStreamStats] returns. *)
Record Stats : Type := {
  statsStreamId : string;
  statsIsActive : bool;
  statsViewerCount : Z;
  statsMaxViewers : Z;
  statsCreatedAt : Z;
  statsExpiresAt : Date;
  uptime : Z
}.

Section WithConfig.

Variable C : Crypto.
Variable tokenConfig : TokenConfig.
Variable timespan : Jwt.Timespan.

(** [generateStreamId], [rawId] being the UUID it draws. *)
Definition generateStreamId (rawId : string) : string :=
  String.substring 0 32 (sha256_hex C (rawId ++ secret (jwt tokenConfig))).

(** [encryptUrl], [iv] being the 16 random bytes it draws.  No call of
    its body throws on a string. *)
Definition encryptUrl (iv : list byte) (url : string) : string :=
  let key := scryptSync C (secret (jwt tokenConfig)) "salt" 32 in
  let '(encrypted, authTag) := gcm_encrypt C key iv (list_byte_of_string url) in
  Hex.to_hex iv ++ ":" ++ Hex.to_hex authTag ++ ":" ++ Hex.to_hex encrypted.

Definition tamper_message : string :=
  "Failed to decrypt URL - possible tampering".

(** [decryptUrl]: the destructuring of [split(':')] takes the first three
    parts; a missing part is [undefined], on which [Buffer.from] or
    [update] throws. *)
Definition decryptUrl (encryptedUrl : string) : outcome string :=
  let key := scryptSync C (secret (jwt tokenConfig)) "salt" 32 in
  match Str.split ":" encryptedUrl with
  | ivHex :: authTagHex :: encrypted :: _ =>
      let iv := Hex.from_hex ivHex in
      let authTag := Hex.from_hex authTagHex in
      match gcm_decrypt C key iv authTag (Hex.from_hex encrypted) with
      | Some decrypted => Return (string_of_list_byte decrypted)
      | None => Throw tamper_message
      end
  | _ => Throw tamper_message
  end.

(** [generateToken] at time [now]; [rawId], [iv] and [jwtid] are the
    random draws of [generateStreamId], [encryptUrl] and [uuidv4].
    [expiryMinutes] is an integer number of minutes.  When [jwt.sign]
    throws, the [catch] block throws in its turn and the registry is
    left as it was.  The record's [expiresAt] is
    [new Date(Date.now() + expiryMinutes * 60 * 1000)]: the products are
    multiples of 4 and of 32, which floating-point arithmetic computes
    exactly as long as the sum stays within the range of a [Date], and
    beyond that range the date is invalid whatever the rounding. *)
Definition generateToken (now : Z) (rawId : string) (iv : list byte)
    (jwtid : string) (payload : Payload) (st : Store)
    : outcome Generated * Store :=
  let streamId :=
    match payloadStreamId payload with
    | Some (String c s) => String c s
    | _ => generateStreamId rawId
    end in
  let expiryMinutes :=
    match payloadExpiryMinutes payload with
    | Some m => if (m =? 0)%Z then defaultExpiryMinutes (stream tokenConfig) else m
    | None => defaultExpiryMinutes (stream tokenConfig)
    end in
  let encryptedUrl := encryptUrl iv (payloadOriginalUrl payload) in
  match Jwt.sign timespan streamId encryptedUrl (now / 1000) "stream-access"
          (secret (jwt tokenConfig)) expiryMinutes
          (issuer (jwt tokenConfig)) (audience (jwt tokenConfig)) jwtid with
  | None => (Throw "Failed to generate access token", st)
  | Some token =>
      let streamData :=
        {| streamId := streamId;
           originalUrl := payloadOriginalUrl payload;
           encryptedUrl := encryptedUrl;
           createdAt := now;
           expiresAt := new_Date (now + expiryMinutes * 60 * 1000);
           viewerCount := 0;
           maxViewers := maxConcurrentViewers (stream tokenConfig);
           isActive := true;
           tokenJti := Jwt.jti token;
           stoppedAt := None |} in
      (Return {| token := token;
                 generatedStreamId := streamId;
                 generatedExpiresAt := expiresAt streamData |},
       {| activeStreams := <[streamId := streamData]> (activeStreams st);
          viewerSessions := viewerSessions st |})
  end.

Definition invalid (msg : string) : Validation :=
  {| valid := false; decoded := None; streamData := None; error := Some msg |}.

(** [validateToken] at time [now]. *)
Definition validateToken (now : Z) (tok : Jwt.Token) (st : Store) : Validation :=
  match Jwt.verify now tok (secret (jwt tokenConfig))
          (issuer (jwt tokenConfig)) (audience (jwt tokenConfig)) with
  | Throw msg => invalid msg
  | Return decoded =>
      match activeStreams st !! Jwt.streamId decoded with
      | None => invalid "Stream not found or expired"
      | Some streamData =>
          if negb (isActive streamData) then invalid "Stream has been stopped"
          else if negb (String.eqb (Jwt.jti decoded) (tokenJti streamData))
          then invalid "Token has been revoked"
          else {| valid := true; decoded := Some decoded;
                  streamData := Some streamData; error := None |}
      end
  end.

Definition set_viewerCount (n : Z) (d : StreamData) : StreamData :=
  {| streamId := streamId d; originalUrl := originalUrl d;
     encryptedUrl := encryptedUrl d; createdAt := createdAt d;
     expiresAt := expiresAt d; viewerCount := n; maxViewers := maxViewers d;
     isActive := isActive d; tokenJti := tokenJti d; stoppedAt := stoppedAt d |}.

(** [registerViewer] at time [now]; [sessionId] is the caller's argument
    and [fresh] the UUID of its default value. *)
Definition registerViewer (now : Z) (streamId : string)
    (sessionId : option string) (fresh : string) (st : Store)
    : outcome (Session * Store) :=
  let sessionId := match sessionId with Some s => s | None => fresh end in
  match activeStreams st !! streamId with
  | None => Throw "Stream not found"
  | Some streamData =>
      if (maxViewers streamData <=? viewerCount streamData)%Z
      then Throw "Maximum viewer limit reached"
      else
        let streamData := set_viewerCount (viewerCount streamData + 1) streamData in
        let session :=
          {| sessionId := sessionId; sessionStreamId := streamId;
             joinedAt := now; lastActivity := now |} in
        Return (session,
                {| activeStreams := <[streamId := streamData]> (activeStreams st);
                   viewerSessions := <[sessionId := session]> (viewerSessions st) |})
  end.

(** [removeViewer] *)
Definition removeViewer (sessionId : string) (st : Store) : Store :=
  match viewerSessions st !! sessionId with
  | None => st
  | Some session =>
      let streams :=
        match activeStreams st !! sessionStreamId session with
        | Some streamData =>
            <[sessionStreamId session :=
                set_viewerCount (Z.max 0 (viewerCount streamData - 1)) streamData]>
              (activeStreams st)
        | None => activeStreams st
        end in
      {| activeStreams := streams;
         viewerSessions := delete sessionId (viewerSessions st) |}
  end.

(** [stopStream] at time [now]; [newJti] is the UUID it draws.  The
    record is one object: the assignment to [tokenJti] after
    [activeStreams.set] changes the stored record too. *)
Definition stopStream (now : Z) (newJti : string) (streamId : string)
    (st : Store) : Stopped * Store :=
  match activeStreams st !! streamId with
  | Some d =>
      let stopped :=
        {| streamId := Auth.streamId d; originalUrl := originalUrl d;
           encryptedUrl := encryptedUrl d; createdAt := createdAt d;
           expiresAt := expiresAt d; viewerCount := viewerCount d;
           maxViewers := maxViewers d; isActive := false;
           tokenJti := newJti; stoppedAt := Some now |} in
      ({| success := true; message := "Stream stopped successfully" |},
       {| activeStreams := <[streamId := stopped]> (activeStreams st);
          viewerSessions := viewerSessions st |})
  | None => ({| success := false; message := "Stream not found" |}, st)
  end.

(** [getStreamStats] at time [now]. *)
Definition getStreamStats (now : Z) (streamId : string) (st : Store)
    : option Stats :=
  match activeStreams st !! streamId with
  | None => None
  | Some d =>
      Some {| statsStreamId := streamId;
              statsIsActive := isActive d;
              statsViewerCount := viewerCount d;
              statsMaxViewers := maxViewers d;
              statsCreatedAt := createdAt d;
              statsExpiresAt := expiresAt d;
              uptime := now - createdAt d |}
  end.

(** The test of the reaper's loop: [expiresAt < now || !isActive]. *)
Definition reaped (now : Z) (d : StreamData) : bool :=
  date_lt (expiresAt d) now || negb (isActive d).

(** [cleanupExpiredStreams] at time [now]: the loop deletes every entry
    on which the test holds, and with each of them the sessions whose
    [streamId] is its key; it returns the number of deleted entries. *)
Definition cleanupExpiredStreams (now : Z) (st : Store) : Z * Store :=
  let kept : gmap string StreamData :=
    filter (fun kv => reaped now (snd kv) = false) (activeStreams st) in
  let sessions : gmap string Session :=
    filter (fun kv =>
              match activeStreams st !! sessionStreamId (snd kv) with
              | Some d => reaped now d
              | None => false
              end = false) (viewerSessions st) in
  (Z.of_nat (size (activeStreams st)) - Z.of_nat (size kept),
   {| activeStreams := kept; viewerSessions := sessions |}).

(** The calls a client of the module can make, with the time and the
    random draws of each. *)
Inductive call : Type :=
| GenerateToken (now : Z) (rawId : string) (iv : list byte) (jwtid : string)
                (payload : Payload)
| ValidateToken (now : Z) (tok : Jwt.Token)
| RegisterViewer (now : Z) (streamId : string) (sessionId : option string)
                 (fresh : string)
| RemoveViewer (sessionId : string)
| StopStream (now : Z) (newJti : string) (streamId : string)
| GetStreamStats (now : Z) (streamId : string)
| CleanupExpiredStreams (now : Z).

(** The store after a call (a call that throws leaves it as it was). *)
Definition step (c : call) (st : Store) : Store :=
  match c with
  | GenerateToken now rawId iv jwtid payload =>
      snd (generateToken now rawId iv jwtid payload st)
  | ValidateToken _ _ => st
  | RegisterViewer now streamId sessionId fresh =>
      match registerViewer now streamId sessionId fresh st with
      | Return (_, st') => st'
      | Throw _ => st
      end
  | RemoveViewer sessionId => removeViewer sessionId st
  | StopStream now newJti streamId => snd (stopStream now newJti streamId st)
  | GetStreamStats _ _ => st
  | CleanupExpiredStreams now => snd (cleanupExpiredStreams now st)
  end.

Definition run (calls : list call) (st : Store) : Store :=
  fold_left (fun st c => step c st) calls st.

(** The invariant of a stream record on its viewer count. *)
Definition count_in_range (d : StreamData) : Prop :=
  (0 <= viewerCount d <= maxViewers d)%Z.

Definition counts_in_range (st : Store) : Prop :=
  forall id d, activeStreams st !! id = Some d -> count_in_range d.

End WithConfig.

End Auth.

(** ** Functions of the JavaScript library used by the proxy *)

Module Js.

(** The double quote character. *)
Definition dquote : ascii := ascii_of_N 34.

Definition is_alpha (c : ascii) : bool :=
  let n := N_of_ascii c in
  (((65 <=? n) && (n <=? 90)) || ((97 <=? n) && (n <=? 122)))%N.

Definition is_digit (c : ascii) : bool :=
  let n := N_of_ascii c in ((48 <=? n) && (n <=? 57))%N.

(** Characters that [encodeURIComponent] leaves as they are. *)
Definition is_unreserved (c : ascii) : bool :=
  is_alpha c || is_digit c ||
  existsb (Ascii.eqb c) (list_ascii_of_string "-_.!~*'()").

Definition upper_digit (n : N) : ascii :=
  if (n <? 10)%N then ascii_of_N (48 + n) else ascii_of_N (55 + n).

(** [encodeURIComponent(s)] *)
Fixpoint encodeURIComponent (s : string) : string :=
  match s with
  | EmptyString => EmptyString
  | String c s' =>
      if is_unreserved c then String c (encodeURIComponent s')
      else
        let n := N_of_ascii c in
        String "%" (String (upper_digit (n / 16))
                      (String (upper_digit (n mod 16)) (encodeURIComponent s')))
  end.

(** [decodeURIComponent(s)], the decoding that the query parser of the
    router applies to a parameter, on a text whose escapes decode to
    UTF-8 text (see the conventions); a [%] that two hexadecimal digits
    do not follow throws. *)
Fixpoint decodeURIComponent (s : string) : outcome string :=
  match s with
  | EmptyString => Return EmptyString
  | String c s' =>
      if Ascii.eqb c "%" then
        match s' with
        | String a (String b rest) =>
            match Hex.unhex a, Hex.unhex b with
            | Some hi, Some lo =>
                match decodeURIComponent rest with
                | Return r => Return (String (ascii_of_N (16 * hi + lo)) r)
                | Throw msg => Throw msg
                end
            | _, _ => Throw "URI malformed"
            end
        | _ => Throw "URI malformed"
        end
      else
        match decodeURIComponent s' with
        | Return r => Return (String c r)
        | Throw msg => Throw msg
        end
  end.

(** The replacement text of [String.prototype.replace] for a string
    pattern: [$$], [$&], [$`] and [$'] are expanded, every other
    character stands for itself. *)
Fixpoint substitution (repl matched before after : string) : string :=
  match repl with
  | EmptyString => EmptyString
  | String c r =>
      if Ascii.eqb c "$" then
        match r with
        | String d r' =>
            if Ascii.eqb d "$" then String "$" (substitution r' matched before after)
            else if Ascii.eqb d "&" then matched ++ substitution r' matched before after
            else if Ascii.eqb d "`" then before ++ substitution r' matched before after
            else if Ascii.eqb d "'" then after ++ substitution r' matched before after
            else String c (substitution r matched before after)
        | EmptyString => String c EmptyString
        end
      else String c (substitution r matched before after)
  end.

(** [s.replace(pattern, repl)] for a string [pattern]: the first
    occurrence is replaced. *)
Definition replace (s pattern repl : string) : string :=
  match Str.find_first pattern s with
  | None => s
  | Some (before, after) =>
      before ++ substitution repl pattern before after ++ after
  end.

(** The characters of [s] before its first double quote, when it has
    one. *)
Fixpoint until_quote (s : string) : option string :=
  match s with
  | EmptyString => None
  | String c s' =>
      if Ascii.eqb c dquote then Some EmptyString
      else match until_quote s' with
           | Some t => Some (String c t)
           | None => None
           end
  end.

Definition uri_open : string := "URI=" ++ String dquote EmptyString.

(** The first capture group of [s.match(/URI="([^"]+)"/)]: at the
    leftmost occurrence of [URI="] that one or more characters other than
    a quote and then a quote follow, these characters. *)
Fixpoint match_uri (s : string) : option string :=
  match s with
  | EmptyString => None
  | String c s' =>
      if String.prefix uri_open s then
        match until_quote (String.substring 5 (String.length s - 5) s) with
        | Some (String a t) => Some (String a t)
        | _ => match_uri s'
        end
      else match_uri s'
  end.

End Js.

(** ** [url.resolve]

    Node's [url] module is not part of the repository: [url.resolve] is
    a parameter of the functions that call it, of type [Resolver] (the
    resolved URL, or the error that the legacy parser throws).  No
    property below depends on what it computes.

    [resolve] is the reference resolution of RFC 3986, section 5.2.  It
    is not Node's function, which also lower-cases the scheme and the
    host, escapes some characters and has rules of its own for special
    schemes; it serves to run the definitions on URLs on which the two
    agree, such as [https://origin.example/live/index.m3u8] with the
    reference [segment001.ts]. *)
Module Url.

Definition Resolver : Type := string -> string -> outcome string.

Record Parts : Type := {
  scheme : option string;
  authority : option string;
  path : string;
  query : option string;
  fragment : option string
}.

Definition is_scheme_char (c : ascii) : bool :=
  Js.is_alpha c || Js.is_digit c ||
  existsb (Ascii.eqb c) (list_ascii_of_string "+-.").

(** The characters of [s] before the first one on which [stop] holds,
    and the rest from that character on. *)
Fixpoint span_until (stop : ascii -> bool) (s : string) : string * string :=
  match s with
  | EmptyString => (EmptyString, EmptyString)
  | String c s' =>
      if stop c then (EmptyString, s)
      else let '(a, b) := span_until stop s' in (String c a, b)
  end.

Definition all_chars (p : ascii -> bool) (s : string) : bool :=
  forallb p (list_ascii_of_string s).

Definition tail (s : string) : string :=
  match s with EmptyString => EmptyString | String _ s' => s' end.

Definition parse (s : string) : Parts :=
  let '(before_frag, frag) := span_until (Ascii.eqb "#") s in
  let fragment := match frag with EmptyString => None | _ => Some (tail frag) end in
  let '(before_query, q) := span_until (Ascii.eqb "?") before_frag in
  let query := match q with EmptyString => None | _ => Some (tail q) end in
  let '(sch, rest) := span_until (Ascii.eqb ":") before_query in
  let has_scheme :=
    match sch, rest with
    | String c _, String _ _ => Js.is_alpha c && all_chars is_scheme_char sch
    | _, _ => false
    end in
  let hier := if has_scheme then tail rest else before_query in
  let '(authority, path) :=
    if String.prefix "//" hier
    then let '(a, p) := span_until (Ascii.eqb "/") (tail (tail hier)) in (Some a, p)
    else (None, hier) in
  {| scheme := if has_scheme then Some sch else None;
     authority := authority; path := path;
     query := query; fragment := fragment |}.

Definition format (u : Parts) : string :=
  match scheme u with Some s => s ++ ":" | None => EmptyString end ++
  match authority u with Some a => "//" ++ a | None => EmptyString end ++
  path u ++
  match query u with Some q => "?" ++ q | None => EmptyString end ++
  match fragment u with Some f => "#" ++ f | None => EmptyString end.

(** Section 5.2.4, on the segments of a path that starts with [/] (the
    leading empty segment removed); [out] is the output so far, last
    segment first. *)
Fixpoint dot_segments (segs : list string) (out : list string) : list string :=
  match segs with
  | [] => rev out
  | s :: rest =>
      if String.eqb s "." then
        match rest with
        | [] => rev (EmptyString :: out)
        | _ => dot_segments rest out
        end
      else if String.eqb s ".." then
        match rest with
        | [] => rev (EmptyString :: List.tl out)
        | _ => dot_segments rest (List.tl out)
        end
      else dot_segments rest (s :: out)
  end.

Definition remove_dot_segments (p : string) : string :=
  match Str.split "/" p with
  | EmptyString :: segs => "/" ++ Str.join "/" (dot_segments segs [])
  | _ => p
  end.

(** Section 5.2.3 *)
Definition merge (base : Parts) (ref_path : string) : string :=
  match authority base, path base with
  | Some _, EmptyString => "/" ++ ref_path
  | _, _ =>
      Str.join "/" (removelast (Str.split "/" (path base)) ++ [ref_path])%list
  end.

(** Section 5.2.2 *)
Definition resolve (from to : string) : string :=
  let b := parse from in
  let r := parse to in
  format
    match scheme r with
    | Some _ =>
        {| scheme := scheme r; authority := authority r;
           path := remove_dot_segments (path r);
           query := query r; fragment := fragment r |}
    | None =>
        match authority r with
        | Some _ =>
            {| scheme := scheme b; authority := authority r;
               path := remove_dot_segments (path r);
               query := query r; fragment := fragment r |}
        | None =>
            match path r with
            | EmptyString =>
                {| scheme := scheme b; authority := authority b;
                   path := path b;
                   query := match query r with Some q => Some q | None => query b end;
                   fragment := fragment r |}
            | String c _ =>
                {| scheme := scheme b; authority := authority b;
                   path := if Ascii.eqb c "/"
                           then remove_dot_segments (path r)
                           else remove_dot_segments (merge b (path r));
                   query := query r; fragment := fragment r |}
            end
        end
    end.

(** RFC 3986 resolution as a [Resolver]. *)
Definition rfc3986 : Resolver := fun from to => Return (resolve from to).

End Url.

(** ** The stream proxy module: manifest rewriter and segment cache *)

Module Proxy.

(** *** Segment cache *)

Record Entry : Type := {
  data : list byte;
  timestamp : Z
}.

(** [data.length] *)
Definition byteLength (buf : list byte) : Z := Z.of_nat (List.length buf).

(** [segmentCache] is a JavaScript [Map]: its entries are in insertion
    order, one per key.  [currentCacheSize] is the counter next to it. *)
Record Cache : Type := {
  segmentCache : list (string * Entry);
  currentCacheSize : Z
}.

Definition empty_cache : Cache :=
  {| segmentCache := []; currentCacheSize := 0 |}.

Definition CACHE_MAX_SIZE : Z := 50 * 1024 * 1024.

(** [map.get(key)] *)
Fixpoint map_get (key : string) (m : list (string * Entry)) : option Entry :=
  match m with
  | [] => None
  | (k, e) :: rest => if String.eqb k key then Some e else map_get key rest
  end.

(** [map.set(key, e)]: the value of a key that is present is replaced
    where it stands, a new key is appended. *)
Fixpoint map_set (key : string) (e : Entry) (m : list (string * Entry))
    : list (string * Entry) :=
  match m with
  | [] => [(key, e)]
  | (k, e') :: rest =>
      if String.eqb k key then (k, e) :: rest
      else (k, e') :: map_set key e rest
  end.

(** The [while] loop of [cacheSegment] for a segment of [len] bytes: as
    long as the counter plus [len] exceeds the ceiling and the map is
    not empty, the first entry ([keys().next().value]) is deleted and its
    length subtracted from the counter. *)
Fixpoint evict (len : Z) (m : list (string * Entry)) (size : Z)
    : list (string * Entry) * Z :=
  match m with
  | [] => ([], size)
  | (oldestKey, oldestEntry) :: rest =>
      if (CACHE_MAX_SIZE <? size + len)%Z
      then evict len rest (size - byteLength (data oldestEntry))
      else (m, size)
  end.

(** [cacheSegment(key, data)] at time [now]. *)
Definition cacheSegment (now : Z) (key : string) (buf : list byte)
    (c : Cache) : Cache :=
  let '(m, size) := evict (byteLength buf) (segmentCache c) (currentCacheSize c) in
  {| segmentCache := map_set key {| data := buf; timestamp := now |} m;
     currentCacheSize := size + byteLength buf |}.

(** The cache test of [proxySegment] at time [now]: a hit when the key
    is present and its entry is less than 30 seconds old. *)
Definition cachedSegment (now : Z) (key : string) (c : Cache)
    : option (list byte) :=
  match map_get key (segmentCache c) with
  | Some e => if (now - timestamp e <? 30000)%Z then Some (data e) else None
  | None => None
  end.

(** The number of bytes held by the entries of the map. *)
Fixpoint resident_bytes (m : list (string * Entry)) : Z :=
  match m with
  | [] => 0
  | (_, e) :: rest => byteLength (data e) + resident_bytes rest
  end.

(** [getHealthStatus]: counter, number of entries, ceiling. *)
Definition getHealthStatus (c : Cache) : Z * Z * Z :=
  (currentCacheSize c, Z.of_nat (List.length (segmentCache c)), CACHE_MAX_SIZE).

(** A sequence of [cacheSegment] calls, each with its time, key and
    segment. *)
Definition puts (calls : list (Z * string * list byte)) (c : Cache) : Cache :=
  fold_left (fun c '(now, key, buf) => cacheSegment now key buf c) calls c.

(** *** Manifest rewriter *)

Section Rewriter.

Variable C : Crypto.
Variable tokenConfig : TokenConfig.

(** [url.resolve] *)
Variable resolve : Url.Resolver.

(** The endpoint URL `${proxyBaseUrl}/<endpoint>?url=${encodeURIComponent(
    encryptUrl(url.resolve(baseUrl, reference)))}`, [iv] being the nonce
    [encryptUrl] draws. *)
Definition proxied (iv : list byte) (baseUrl proxyBaseUrl endpoint reference
    : string) : outcome string :=
  outcome_map
    (fun absoluteUrl =>
       proxyBaseUrl ++ "/" ++ endpoint ++ "?url=" ++
       Js.encodeURIComponent (Auth.encryptUrl C tokenConfig iv absoluteUrl))
    (resolve baseUrl reference).

(** One turn of the loop of [rewriteManifestUrls] on [line]: the line
    pushed to [rewritten], and whether [encryptUrl] was called (with
    nonce [iv]); or the error that [url.resolve] throws. *)
Definition rewriteLine (iv : list byte) (baseUrl proxyBaseUrl line : string)
    : outcome (string * bool) :=
  let trimmedLine := Str.trim line in
  if match trimmedLine with EmptyString => true | _ => false end
     || (Str.startsWith "#" trimmedLine
         && negb (Str.startsWith "#EXT-X-KEY" trimmedLine))
  then Return (line, false)
  else
    match (if Str.startsWith "#EXT-X-KEY" trimmedLine
           then Js.match_uri trimmedLine else None) with
    | Some uri =>
        outcome_map (fun proxyKeyUrl => (Js.replace line uri proxyKeyUrl, true))
          (proxied iv baseUrl proxyBaseUrl "key" uri)
    | None =>
        if Str.endsWith ".m3u8" trimmedLine
        then outcome_map (fun proxyUrl => (proxyUrl, true))
               (proxied iv baseUrl proxyBaseUrl "manifest" trimmedLine)
        else if Str.endsWith ".ts" trimmedLine || Str.includes ".ts?" trimmedLine
        then outcome_map (fun proxyUrl => (proxyUrl, true))
               (proxied iv baseUrl proxyBaseUrl "segment" trimmedLine)
        else if Str.endsWith ".mp4" trimmedLine || Str.endsWith ".m4s" trimmedLine
        then outcome_map (fun proxyUrl => (proxyUrl, true))
               (proxied iv baseUrl proxyBaseUrl "segment" trimmedLine)
        else Return (line, false)
    end.

(** The loop over the lines; [rnd n] is the [n]-th nonce drawn during
    the call and [n] the number of nonces drawn so far.  The loop ends
    at the first line on which [url.resolve] throws. *)
Fixpoint rewriteLines (rnd : nat -> list byte) (n : nat)
    (baseUrl proxyBaseUrl : string) (lines : list string)
    : outcome (list string) :=
  match lines with
  | [] => Return []
  | line :: rest =>
      match rewriteLine (rnd n) baseUrl proxyBaseUrl line with
      | Throw msg => Throw msg
      | Return (out, drew) =>
          outcome_map (cons out)
            (rewriteLines rnd (if drew then S n else n) baseUrl proxyBaseUrl rest)
      end
  end.

Definition newline : ascii := ascii_of_N 10.

(** [rewriteManifestUrls(manifest, baseUrl, proxyBaseUrl,
    encryptedBaseUrl)] *)
Definition rewriteManifestUrls (rnd : nat -> list byte)
    (manifest baseUrl proxyBaseUrl encryptedBaseUrl : string) : outcome string :=
  outcome_map (Str.join (String newline EmptyString))
    (rewriteLines rnd 0 baseUrl proxyBaseUrl (Str.split newline manifest)).

End Rewriter.

End Proxy.

(** ** The stream proxy module: one request to the origin

    [proxySegment] and [proxyManifest] talk to the origin through Node's
    [http] and [https] clients and to the client through the response
    object.  A request is modelled by its outcome, given as an argument:
    what the origin did with the URL that was requested.  The model
    covers the exchanges that complete, or fail before the origin has
    answered; a connection that breaks while a body is relayed is not
    modelled, and requests are taken one at a time: the cache that a
    fetched segment is put into is the cache that the request found.  A
    response is the status, the headers that the function itself sets
    with [setHeader], in order, and the body; the headers that Express
    adds when it sends a body are left out.  The chunks of a manifest
    are taken to be well-formed UTF-8 text each, so that their
    concatenation as strings is the concatenation of their bytes. *)

Module ProxyIO.

(** What happens to the request made for a URL. *)
Inductive Exchange : Type :=
| Responded (statusCode : Z) (location : option string)
            (chunks : list (list byte))
| Failed    (* the ['error'] event *)
| TimedOut  (* the ['timeout'] event *)
| Threw.    (* [url.parse] or [client.request] throws *)

Inductive Body : Type :=
| NoBody
| Bytes (data : list byte)
| Text (text : string)
| Json (error : string) (statusCode : option Z).

Record Response : Type := {
  status : Z;
  headers : list (string * string);
  body : Body
}.

(** [res.getHeader(name)] *)
Fixpoint header (name : string) (hs : list (string * string)) : option string :=
  match hs with
  | [] => None
  | (n, v) :: rest => if String.eqb n name then Some v else header name rest
  end.

(** [res.setHeader(name, value)]: the value of a header that is set
    already is replaced. *)
Fixpoint setHeader (name value : string) (hs : list (string * string))
    : list (string * string) :=
  match hs with
  | [] => [(name, value)]
  | (n, v) :: rest =>
      if String.eqb n name then (n, value) :: rest
      else (n, v) :: setHeader name value rest
  end.

(** The [setHeader] calls of a cache hit, of the response callback of
    [proxySegment], and of the response callback of [proxyManifest]. *)
Definition hit_headers (hs : list (string * string)) : list (string * string) :=
  setHeader "Cache-Control" "public, max-age=30"
    (setHeader "X-Cache" "HIT"
       (setHeader "Content-Type" "video/mp2t"
          (setHeader "Access-Control-Allow-Origin" "*" hs))).

Definition miss_headers (hs : list (string * string)) : list (string * string) :=
  setHeader "Cache-Control" "public, max-age=30"
    (setHeader "X-Cache" "MISS"
       (setHeader "Access-Type" "video/mp2t"
          (setHeader "Access-Control-Allow-Origin" "*" hs))).

Definition manifest_headers (hs : list (string * string))
    : list (string * string) :=
  setHeader "Cache-Control" "no-cache, no-store, must-revalidate"
    (setHeader "Content-Type" "application/vnd.apple.mpegurl"
       (setHeader "Access-Control-Allow-Headers" "Content-Type"
          (setHeader "Access-Control-Allow-Methods" "GET, OPTIONS"
             (setHeader "Access-Control-Allow-Origin" "*" hs)))).

Section WithOrigin.

Variable C : Crypto.
Variable tokenConfig : TokenConfig.

(** [url.resolve] *)
Variable resolve : Url.Resolver.

(** The origin: the outcome of the request made for each URL. *)
Variable origin : string -> Exchange.

(** [proxySegment(encryptedUrl, res)]: [now] is the time of the cache
    test and [later] the time at which the body has been received and is
    cached.  The response, and the cache afterwards. *)
Definition proxySegment (now later : Z) (encryptedUrl : string)
    (c : Proxy.Cache) : Response * Proxy.Cache :=
  let cacheKey := encryptedUrl in
  match Proxy.cachedSegment now cacheKey c with
  | Some data =>
      ({| status := 200; headers := hit_headers []; body := Bytes data |}, c)
  | None =>
      match Auth.decryptUrl C tokenConfig encryptedUrl with
      | Throw _ => ({| status := 500; headers := []; body := NoBody |}, c)
      | Return originalUrl =>
          match origin originalUrl with
          | Responded statusCode _ chunks =>
              if negb (statusCode =? 200)%Z
              then ({| status := 502; headers := miss_headers []; body := NoBody |}, c)
              else
                let segmentData := List.concat chunks in
                ({| status := 200; headers := miss_headers [];
                    body := Bytes segmentData |},
                 Proxy.cacheSegment later cacheKey segmentData c)
          | Failed => ({| status := 502; headers := []; body := NoBody |}, c)
          | TimedOut => ({| status := 504; headers := []; body := NoBody |}, c)
          | Threw => ({| status := 500; headers := []; body := NoBody |}, c)
          end
      end
  end.

(** [proxyManifest(encryptedUrl, res, baseProxyUrl)].  A redirect is
    followed by a recursive call on the same response object, without
    bound in the source: [fuel] bounds the number of calls.  [None]: no
    response is sent, the chain of redirects being longer than [fuel],
    or [url.resolve] throwing in the response callback, where nothing
    catches it.  [sent] is the headers set on the response so far (none
    for the call made by the route), [redirectIv] gives the nonce that
    [encryptUrl] draws for the redirect of each call, [rnd] the nonces
    of the rewriting. *)
Fixpoint proxyManifest (fuel : nat) (sent : list (string * string))
    (redirectIv : nat -> list byte) (rnd : nat -> list byte)
    (encryptedUrl baseProxyUrl : string) : option Response :=
  match fuel with
  | O => None
  | S fuel' =>
      match Auth.decryptUrl C tokenConfig encryptedUrl with
      | Throw _ =>
          Some {| status := 500; headers := sent;
                  body := Json "Internal proxy error" None |}
      | Return originalUrl =>
          match origin originalUrl with
          | Responded statusCode location chunks =>
              let sent := manifest_headers sent in
              match (if (300 <=? statusCode)%Z && (statusCode <? 400)%Z
                     then match location with
                          | Some (String c l) => Some (String c l)
                          | _ => None
                          end
                     else None) with
              | Some loc =>
                  match resolve originalUrl loc with
                  | Throw _ => None
                  | Return redirectUrl =>
                      let encryptedRedirect :=
                        Auth.encryptUrl C tokenConfig (redirectIv fuel')
                          redirectUrl in
                      proxyManifest fuel' sent redirectIv rnd encryptedRedirect
                        baseProxyUrl
                  end
              | None =>
                  if negb (statusCode =? 200)%Z
                  then Some {| status := 502; headers := sent;
                               body := Json "Failed to fetch manifest"
                                         (Some statusCode) |}
                  else
                    let data :=
                      String.concat EmptyString
                        (List.map string_of_list_byte chunks) in
                    match Proxy.rewriteManifestUrls C tokenConfig resolve rnd
                            data originalUrl baseProxyUrl encryptedUrl with
                    | Return rewrittenManifest =>
                        Some {| status := 200; headers := sent;
                                body := Text rewrittenManifest |}
                    | Throw _ =>
                        Some {| status := 500; headers := sent;
                                body := Json "Failed to process manifest" None |}
                    end
              end
          | Failed =>
              Some {| status := 502; headers := sent;
                      body := Json "Failed to connect to stream source" None |}
          | TimedOut =>
              Some {| status := 504; headers := sent;
                      body := Json "Stream source timeout" None |}
          | Threw =>
              Some {| status := 500; headers := sent;
                      body := Json "Internal proxy error" None |}
          end
      end
  end.

End WithOrigin.

End ProxyIO.

(** ** Notions used in the statements *)

(** The character [c] does not occur in [s]. *)
Fixpoint free_of (c : ascii) (s : string) : bool :=
  match s with
  | EmptyString => true
  | String a s' => negb (Ascii.eqb a c) && free_of c s'
  end.

(** [s] consists of hexadecimal digits. *)
Fixpoint all_hex (s : string) : bool :=
  match s with
  | EmptyString => true
  | String a s' =>
      match Hex.unhex a with Some _ => true | None => false end && all_hex s'
  end.

(** The text of a ciphertext: nonce, tag and encrypted data in
    hexadecimal, separated by colons. *)
Definition ciphertext (ivHex authTagHex encrypted : string) : string :=
  ivHex ++ ":" ++ authTagHex ++ ":" ++ encrypted.

(** The store refuses the tokens that carry [jti] for stream [sid]: the
    record of [sid], when there is one, is stopped or carries another
    token identifier. *)
Definition refuses (jti sid : string) (st : Auth.Store) : Prop :=
  forall d, Auth.activeStreams st !! sid = Some d ->
            Auth.isActive d = false \/ Auth.tokenJti d <> jti.

(** The UUID that a [generateToken] call draws for its token is not
    [jti] (UUIDs are drawn afresh). *)
Definition draws_other_jti (jti : string) (c : Auth.call) : Prop :=
  match c with
  | Auth.GenerateToken _ _ _ jwtid _ => jwtid <> jti
  | _ => True
  end.

(** Successive [registerViewer] calls on one stream. *)
Definition joins (sid : string) (l : list (Z * option string * string))
    : list Auth.call :=
  List.map (fun '(now, sessionId, fresh) =>
              Auth.RegisterViewer now sid sessionId fresh) l.

(** No record has a negative viewer count. *)
Definition counts_nonneg (st : Auth.Store) : Prop :=
  forall id d, Auth.activeStreams st !! id = Some d -> 0 <= Auth.viewerCount d.

(** [jwt.verify] with the options of [validateToken]. *)
Definition jwt_verify (cfg : TokenConfig) (now : Z) (tok : Jwt.Token)
    : outcome Jwt.Token :=
  Jwt.verify now tok (secret (jwt cfg)) (issuer (jwt cfg)) (audience (jwt cfg)).

(** The fallback configuration with a ceiling of two viewers, and a
    request for a token on stream [stream-1], used to run the
    definitions on concrete inputs. *)
Definition two_viewers_config : TokenConfig :=
  {| jwt := jwt fallbackConfig;
     stream := {| defaultExpiryMinutes := 120;
                  maxConcurrentViewers := 2;
                  tokenRefreshWindowMinutes := 15 |} |}.

Definition sample_payload : Auth.Payload :=
  {| Auth.payloadStreamId := Some "stream-1";
     Auth.payloadOriginalUrl := "https://o.example/a.m3u8";
     Auth.payloadExpiryMinutes := None |}.

(** The stream identifier of a [generateToken] call: the payload's, or
    the one drawn when it is absent or empty. *)
Definition stream_id_of (C : Crypto) (cfg : TokenConfig) (rawId : string)
    (payload : Auth.Payload) : string :=
  match Auth.payloadStreamId payload with
  | Some (String c s) => String c s
  | _ => Auth.generateStreamId C cfg rawId
  end.

(** The expiry of a [generateToken] call in minutes: the payload's, or
    the configured default when it is absent or zero. *)
Definition expiry_minutes (cfg : TokenConfig) (payload : Auth.Payload) : Z :=
  match Auth.payloadExpiryMinutes payload with
  | Some m => if (m =? 0)%Z then defaultExpiryMinutes (stream cfg) else m
  | None => defaultExpiryMinutes (stream cfg)
  end.

(** A time value that [Date.now()] returns. *)
Definition clock (now : Z) : Prop := 0 <= now <= MAX_TIME.

(** [tok] is a token that [generateToken] has issued for stream [sid]
    (at some time, in some store, with some draws). *)
Definition issued (C : Crypto) (cfg : TokenConfig) (timespan : Jwt.Timespan)
    (tok : Jwt.Token) (sid : string) : Prop :=
  exists now rawId iv jwtid payload st g,
    fst (Auth.generateToken C cfg timespan now rawId iv jwtid payload st)
    = Return g
    /\ tok = Auth.token g /\ Jwt.streamId tok = sid.

(** [tok] has not expired at time [t] (milliseconds). *)
Definition unexpired (t : Z) (tok : Jwt.Token) : Prop :=
  t / 1000 < Jwt.exp tok.

(** The entries hold one under [key]. *)
Definition has_key (key : string) (m : list (string * Proxy.Entry)) : bool :=
  match Proxy.map_get key m with Some _ => true | None => false end.

(** No key occurs twice in the entries. *)
Fixpoint keys_unique (m : list (string * Proxy.Entry)) : bool :=
  match m with
  | [] => true
  | (k, _) :: rest => negb (has_key k rest) && keys_unique rest
  end.

(** The entry written by the last call on [key] in a sequence of
    [cacheSegment] calls. *)
Fixpoint last_put (key : string) (calls : list (Z * string * list byte))
    : option Proxy.Entry :=
  match calls with
  | [] => None
  | (now, k, buf) :: rest =>
      match last_put key rest with
      | Some e => Some e
      | None =>
          if String.eqb k key
          then Some {| Proxy.data := buf; Proxy.timestamp := now |}
          else None
      end
  end.

(** The keys of a sequence of [cacheSegment] calls are pairwise
    distinct. *)
Fixpoint distinct_puts (calls : list (Z * string * list byte)) : bool :=
  match calls with
  | [] => true
  | (_, k, _) :: rest =>
      negb (existsb (fun call => String.eqb (snd (fst call)) k) rest)
      && distinct_puts rest
  end.

(** Every viewer session belongs to a stream that the registry holds. *)
Definition sessions_have_streams (st : Auth.Store) : Prop :=
  forall s session,
    Auth.viewerSessions st !! s = Some session ->
    is_Some (Auth.activeStreams st !! Auth.sessionStreamId session).

(** Two validation results carry the same verdict. *)
Definition same_verdict (v v' : Auth.Validation) : Prop :=
  Auth.valid v = Auth.valid v' /\ Auth.error v = Auth.error v'.

(** The no-break space U+00A0 and the byte order mark U+FEFF, in
    UTF-8. *)
Definition nbsp : string :=
  String (ascii_of_N 194) (String (ascii_of_N 160) EmptyString).

Definition bom : string :=
  String (ascii_of_N 239)
    (String (ascii_of_N 187) (String (ascii_of_N 191) EmptyString)).

(** The tests of [rewriteManifestUrls] on a trimmed line. *)
Definition is_tag_or_blank (t : string) : bool :=
  match t with EmptyString => true | _ => false end
  || (Str.startsWith "#" t && negb (Str.startsWith "#EXT-X-KEY" t)).

Definition key_uri (t : string) : option string :=
  if Str.startsWith "#EXT-X-KEY" t then Js.match_uri t else None.

Definition is_variant (t : string) : bool := Str.endsWith ".m3u8" t.

Definition is_segment (t : string) : bool :=
  Str.endsWith ".ts" t || Str.includes ".ts?" t
  || Str.endsWith ".mp4" t || Str.endsWith ".m4s" t.

(** The line is one that the rewriter pushes as it is. *)
Definition untouched (line : string) : bool :=
  let t := Str.trim line in
  is_tag_or_blank t
  || (match key_uri t with Some _ => false | None => true end
      && negb (is_variant t) && negb (is_segment t)).

(** The number of lines, among the first [k], that the rewriter
    rewrites. *)
Fixpoint rewritten_before (k : nat) (lines : list string) : nat :=
  match k, lines with
  | S k', line :: rest =>
      ((if untouched line then 0 else 1) + rewritten_before k' rest)%nat
  | _, _ => 0%nat
  end.

(** * Properties *)

(** ** Strings *)

Lemma append_cons (x : ascii) (a b : string) :
  String x a ++ b = String x (a ++ b).
Proof. reflexivity. Qed.

Lemma append_nil (b : string) : EmptyString ++ b = b.
Proof. reflexivity. Qed.

Lemma append_assoc (a b c : string) : (a ++ b) ++ c = a ++ (b ++ c).
Proof.
  induction a as [|x a IH]; [reflexivity|].
  now rewrite !append_cons, IH.
Qed.

Lemma append_empty_r (a : string) : a ++ EmptyString = a.
Proof.
  induction a as [|x a IH]; [reflexivity|]. now rewrite append_cons, IH.
Qed.

Lemma free_of_append (c : ascii) (a b : string) :
  free_of c (a ++ b) = free_of c a && free_of c b.
Proof.
  induction a as [|x a IH]; [reflexivity|].
  rewrite append_cons. cbn [free_of]. now rewrite IH, andb_assoc.
Qed.

Lemma split_aux_free (sep : ascii) (s cur : string) :
  free_of sep s = true -> Str.split_aux sep cur s = [cur ++ s].
Proof.
  revert cur. induction s as [|c s IH]; intros cur Hfree; simpl in *.
  - now rewrite append_empty_r.
  - apply andb_prop in Hfree as [Hc Hs].
    apply negb_true_iff in Hc. rewrite Hc, (IH _ Hs), append_assoc.
    reflexivity.
Qed.

Lemma split_aux_app (sep : ascii) (s t cur : string) :
  free_of sep s = true ->
  Str.split_aux sep cur (s ++ String sep t)
  = (cur ++ s) :: Str.split_aux sep EmptyString t.
Proof.
  revert cur. induction s as [|c s IH]; intros cur Hfree;
    rewrite ?append_nil, ?append_cons; simpl in *.
  - now rewrite Ascii.eqb_refl, append_empty_r.
  - apply andb_prop in Hfree as [Hc Hs].
    apply negb_true_iff in Hc. rewrite Hc, (IH _ Hs), append_assoc.
    reflexivity.
Qed.

(** A text of three colon-free fields splits into these fields. *)
Lemma split_ciphertext (a b c : string) :
  free_of ":" a = true -> free_of ":" b = true -> free_of ":" c = true ->
  Str.split ":" (ciphertext a b c) = [a; b; c].
Proof.
  intros Ha Hb Hc. unfold Str.split, ciphertext.
  change (a ++ ":" ++ b ++ ":" ++ c)
    with (a ++ String ":" (b ++ String ":" c)).
  rewrite (split_aux_app _ _ _ _ Ha), (split_aux_app _ _ _ _ Hb),
    (split_aux_free _ _ _ Hc).
  reflexivity.
Qed.

(** ** Hexadecimal encoding *)

Lemma byte_digits (b : byte) :
  Hex.unhex (Hex.digit (Byte.to_N b / 16)) = Some (Byte.to_N b / 16)%N /\
  Hex.unhex (Hex.digit (Byte.to_N b mod 16)) = Some (Byte.to_N b mod 16)%N /\
  Hex.byte_of_nibbles (Byte.to_N b / 16) (Byte.to_N b mod 16) = b.
Proof. destruct b; vm_compute; repeat split. Qed.

Lemma from_hex_to_hex (buf : list byte) : Hex.from_hex (Hex.to_hex buf) = buf.
Proof.
  induction buf as [|b buf IH]; [reflexivity|].
  destruct (byte_digits b) as (Hhi & Hlo & Hb).
  cbn [Hex.to_hex Hex.from_hex]. rewrite Hhi, Hlo, Hb, IH. reflexivity.
Qed.

Lemma all_hex_free_of_colon (s : string) : all_hex s = true -> free_of ":" s = true.
Proof.
  induction s as [|c s IH]; [reflexivity|]. simpl. intros H.
  apply andb_prop in H as [Hc Hs]. rewrite (IH Hs), andb_true_r.
  destruct (Ascii.eqb c ":") eqn:E; [|reflexivity].
  apply Ascii.eqb_eq in E. subst c. discriminate Hc.
Qed.

Lemma to_hex_all_hex (buf : list byte) : all_hex (Hex.to_hex buf) = true.
Proof.
  induction buf as [|b buf IH]; [reflexivity|].
  destruct (byte_digits b) as (Hhi & Hlo & _).
  cbn [Hex.to_hex all_hex]. rewrite Hhi, Hlo, IH. reflexivity.
Qed.

Lemma to_hex_free_of_colon (buf : list byte) : free_of ":" (Hex.to_hex buf) = true.
Proof. apply all_hex_free_of_colon, to_hex_all_hex. Qed.

(** [encryptUrl] prints the three fields of the cipher's output. *)
Lemma encryptUrl_ciphertext (C : Crypto) (cfg : TokenConfig) iv u :
  Auth.encryptUrl C cfg iv u =
  let out := gcm_encrypt C (scryptSync C (secret (jwt cfg)) "salt" 32) iv
               (list_byte_of_string u) in
  ciphertext (Hex.to_hex iv) (Hex.to_hex (snd out)) (Hex.to_hex (fst out)).
Proof.
  unfold Auth.encryptUrl. destruct (gcm_encrypt _ _ _ _) as [data tag].
  reflexivity.
Qed.

(** [decryptUrl] on a text of three fields without colon. *)
Lemma decryptUrl_fields (C : Crypto) (cfg : TokenConfig) a b c :
  free_of ":" a = true -> free_of ":" b = true -> free_of ":" c = true ->
  Auth.decryptUrl C cfg (ciphertext a b c) =
  match gcm_decrypt C (scryptSync C (secret (jwt cfg)) "salt" 32)
          (Hex.from_hex a) (Hex.from_hex b) (Hex.from_hex c) with
  | Some decrypted => Return (string_of_list_byte decrypted)
  | None => Throw Auth.tamper_message
  end.
Proof.
  intros Ha Hb Hc. unfold Auth.decryptUrl.
  rewrite split_ciphertext by assumption. reflexivity.
Qed.

(** [decryptUrl] on a text of three well-formed fields. *)
Lemma decryptUrl_ciphertext (C : Crypto) (cfg : TokenConfig) a b c :
  all_hex a = true -> all_hex b = true -> all_hex c = true ->
  Auth.decryptUrl C cfg (ciphertext a b c) =
  match gcm_decrypt C (scryptSync C (secret (jwt cfg)) "salt" 32)
          (Hex.from_hex a) (Hex.from_hex b) (Hex.from_hex c) with
  | Some decrypted => Return (string_of_list_byte decrypted)
  | None => Throw Auth.tamper_message
  end.
Proof.
  intros Ha Hb Hc. apply decryptUrl_fields; now apply all_hex_free_of_colon.
Qed.

(** The text printed by [encryptUrl] is read back by [decryptUrl]. *)
Lemma decryptUrl_encryptUrl (C : Crypto) (cfg : TokenConfig) iv u :
  gcm_correct C ->
  Auth.decryptUrl C cfg (Auth.encryptUrl C cfg iv u) = Return u.
Proof.
  intros Hgcm. rewrite encryptUrl_ciphertext. cbv zeta.
  rewrite decryptUrl_ciphertext by apply to_hex_all_hex.
  rewrite !from_hex_to_hex, Hgcm, string_of_list_byte_of_string.
  reflexivity.
Qed.

(** C2. Round trip of the URL cipher: for every URL [u] and every nonce
    [iv] that [encryptUrl] may draw, [decryptUrl (encryptUrl u)] returns
    exactly [u].  The cipher of the [crypto] module is assumed correct
    ([gcm_correct]); what is proved is that the text format
    nonce:tag:data of [encryptUrl] is read back by [decryptUrl]. *)
Theorem C2_decrypt_encrypt_roundtrip (C : Crypto) (cfg : TokenConfig) :
  gcm_correct C ->
  forall (iv : list byte) (u : string),
    Auth.decryptUrl C cfg (Auth.encryptUrl C cfg iv u) = Return u.
Proof.
  intros Hgcm iv u. now apply decryptUrl_encryptUrl.
Qed.

(** ** The small cipher satisfies the two laws *)

Lemma Z_of_byte_range (b : byte) : 0 <= Toy.Z_of_byte b < 256.
Proof.
  unfold Toy.Z_of_byte. pose proof (Byte.to_N_bounded b). lia.
Qed.

Lemma byte_of_Z_of_byte (b : byte) : Toy.byte_of_Z (Toy.Z_of_byte b) = b.
Proof.
  unfold Toy.byte_of_Z, Toy.Z_of_byte. now rewrite N2Z.id, Byte.of_to_N.
Qed.

Lemma Z_of_byte_of_Z (z : Z) :
  0 <= z < 256 -> Toy.Z_of_byte (Toy.byte_of_Z z) = z.
Proof.
  intros Hz. unfold Toy.byte_of_Z, Toy.Z_of_byte.
  destruct (Byte.of_N (Z.to_N z)) as [b|] eqn:E.
  - apply Byte.to_of_N in E. rewrite E. lia.
  - apply Byte.of_N_None_iff in E. lia.
Qed.

Lemma shift_back (k : Z) (b : byte) : Toy.shift (- k) (Toy.shift k b) = b.
Proof.
  unfold Toy.shift.
  rewrite Z_of_byte_of_Z by (apply Z.mod_pos_bound; lia).
  rewrite Zplus_mod_idemp_l.
  replace (Toy.Z_of_byte b + k + - k) with (Toy.Z_of_byte b) by lia.
  rewrite Z.mod_small by apply Z_of_byte_range.
  apply byte_of_Z_of_byte.
Qed.

Lemma list_byte_eqb_eq (a b : list byte) :
  Toy.list_byte_eqb a b = true <-> a = b.
Proof.
  revert b. induction a as [|x a IH]; intros [|y b]; simpl;
    try (split; [discriminate|discriminate]); try tauto.
  rewrite andb_true_iff, IH. split.
  - intros [Hxy ->]. apply Byte.byte_dec_bl in Hxy. now subst.
  - intros [= -> ->]. split; [now apply Byte.byte_dec_lb | reflexivity].
Qed.

Lemma toy_correct : gcm_correct Toy.crypto.
Proof.
  intros key iv plain. cbn. unfold Toy.decrypt.
  rewrite (proj2 (list_byte_eqb_eq _ _) eq_refl). f_equal.
  rewrite List.map_map. rewrite <- (List.map_id plain) at 2.
  apply List.map_ext. intros b. apply shift_back.
Qed.

Lemma sum_bytes_app (l1 l2 : list byte) :
  Toy.sum_bytes (l1 ++ l2)%list = Toy.sum_bytes l1 + Toy.sum_bytes l2.
Proof.
  induction l1 as [|b l1 IH]; simpl; [reflexivity|]. rewrite IH. lia.
Qed.

Lemma mutation_differs (l l' : list byte) :
  single_byte_mutation l l' -> l <> l'.
Proof.
  intros (pre & b & b' & post & -> & -> & Hb) Heq.
  apply List.app_inv_head in Heq. now injection Heq.
Qed.

Lemma toy_detects_mutation : gcm_detects_mutation Toy.crypto.
Proof.
  intros key iv plain data tag. cbn. unfold Toy.encrypt. intros [= <- <-].
  set (k := Toy.pad key iv). set (data := List.map (Toy.shift k) plain).
  split.
  - intros tag' Hmut. unfold Toy.decrypt. fold k.
    destruct (Toy.list_byte_eqb tag' (Toy.tag_of k data)) eqn:E; [|reflexivity].
    apply list_byte_eqb_eq in E. apply mutation_differs in Hmut. congruence.
  - intros data' Hmut. unfold Toy.decrypt. fold k.
    destruct (Toy.list_byte_eqb _ _) eqn:E; [|reflexivity]. exfalso.
    apply list_byte_eqb_eq in E. unfold Toy.tag_of in E.
    injection E as E.
    apply (f_equal Toy.Z_of_byte) in E.
    rewrite !Z_of_byte_of_Z in E by (apply Z.mod_pos_bound; lia).
    destruct Hmut as (pre & b & b' & post & Hd & -> & Hb).
    rewrite Hd, !sum_bytes_app in E. simpl in E.
    assert (Hne : Toy.Z_of_byte b <> Toy.Z_of_byte b').
    { intros Hz. apply Hb. rewrite <- (byte_of_Z_of_byte b), Hz.
      apply byte_of_Z_of_byte. }
    pose proof (Z_of_byte_range b). pose proof (Z_of_byte_range b').
    set (s := k + Toy.sum_bytes pre + Toy.sum_bytes post) in *.
    replace (k + (Toy.sum_bytes pre + (Toy.Z_of_byte b + Toy.sum_bytes post)))
      with (s + Toy.Z_of_byte b) in E by (unfold s; lia).
    replace (k + (Toy.sum_bytes pre + (Toy.Z_of_byte b' + Toy.sum_bytes post)))
      with (s + Toy.Z_of_byte b') in E by (unfold s; lia).
    pose proof (Z.div_mod (s + Toy.Z_of_byte b) 256 ltac:(lia)).
    pose proof (Z.div_mod (s + Toy.Z_of_byte b') 256 ltac:(lia)).
    lia.
Qed.

(** The round trip, run on the small cipher. *)
Lemma C2_decrypt_encrypt_roundtrip_witness :
  gcm_correct Toy.crypto /\
  Auth.decryptUrl Toy.crypto fallbackConfig
    (Auth.encryptUrl Toy.crypto fallbackConfig (repeat x2a 16)
       "https://origin.example/live/index.m3u8")
  = Return "https://origin.example/live/index.m3u8".
Proof.
  split; [exact toy_correct|].
  apply (C2_decrypt_encrypt_roundtrip Toy.crypto fallbackConfig toy_correct).
Defined.

(** ** Tampering with the text of a ciphertext *)

Lemma unhex_lt (c : ascii) (v : N) : Hex.unhex c = Some v -> (v < 16)%N.
Proof.
  destruct c as [[] [] [] [] [] [] [] []]; vm_compute;
    intros E; try discriminate E; injection E as <-; reflexivity.
Qed.

Lemma to_N_byte_of_nibbles (hi lo : N) :
  (hi < 16)%N -> (lo < 16)%N ->
  Byte.to_N (Hex.byte_of_nibbles hi lo) = (16 * hi + lo)%N.
Proof.
  intros Hhi Hlo. unfold Hex.byte_of_nibbles.
  destruct (Byte.of_N (16 * hi + lo)) as [b|] eqn:E.
  - now apply Byte.to_of_N.
  - apply Byte.of_N_None_iff in E. lia.
Qed.

Lemma byte_of_nibbles_inj (hi lo hi' lo' : N) :
  (hi < 16)%N -> (lo < 16)%N -> (hi' < 16)%N -> (lo' < 16)%N ->
  Hex.byte_of_nibbles hi lo = Hex.byte_of_nibbles hi' lo' ->
  hi = hi' /\ lo = lo'.
Proof.
  intros ? ? ? ? E. apply (f_equal Byte.to_N) in E.
  rewrite !to_N_byte_of_nibbles in E by assumption. lia.
Qed.

Lemma mutation_cons (b : byte) (l l' : list byte) :
  single_byte_mutation l l' -> single_byte_mutation (b :: l) (b :: l').
Proof.
  intros (pre & x & x' & post & -> & -> & Hx).
  now exists (b :: pre), x, x', post.
Qed.

Lemma mutation_head (b b' : byte) (l : list byte) :
  b <> b' -> single_byte_mutation (b :: l) (b' :: l).
Proof. intros Hb. now exists [], b, b', l. Qed.

(** Replacing one digit of the hexadecimal text of a buffer by a digit
    of another value gives the text of a buffer with one byte changed. *)
Lemma hex_digit_mutation (buf : list byte) (pre post : string) (d d' : ascii) :
  Hex.to_hex buf = pre ++ String d post ->
  Hex.unhex d' <> None ->
  Hex.unhex d' <> Hex.unhex d ->
  all_hex (pre ++ String d' post) = true /\
  single_byte_mutation buf (Hex.from_hex (pre ++ String d' post)).
Proof.
  revert pre. induction buf as [|b buf IH]; intros pre Heq Hd' Hne.
  { destruct pre; discriminate Heq. }
  destruct (byte_digits b) as (Hhi & Hlo & Hb).
  destruct (Hex.unhex d') as [v|] eqn:Ev; [clear Hd'|congruence].
  pose proof (unhex_lt _ _ Ev) as Hv.
  pose proof (unhex_lt _ _ Hhi) as Hhi16.
  pose proof (unhex_lt _ _ Hlo) as Hlo16.
  cbn [Hex.to_hex] in Heq.
  destruct pre as [|x [|y pre]]; rewrite ?append_cons, ?append_nil in *.
  - injection Heq as <- <-. cbn [all_hex Hex.from_hex].
    rewrite Ev, Hlo, to_hex_all_hex, from_hex_to_hex. split; [reflexivity|].
    apply mutation_head. intros E. rewrite <- Hb in E at 1.
    apply byte_of_nibbles_inj in E as [E _]; try assumption.
    apply Hne. now rewrite Hhi, E.
  - injection Heq as <- <- <-. cbn [all_hex Hex.from_hex].
    rewrite Ev, Hhi, to_hex_all_hex, from_hex_to_hex. split; [reflexivity|].
    apply mutation_head. intros E. rewrite <- Hb in E at 1.
    apply byte_of_nibbles_inj in E as [_ E]; try assumption.
    apply Hne. now rewrite Hlo, E.
  - injection Heq as <- <- Heq.
    destruct (IH pre Heq) as [Hall Hmut]; [congruence | congruence |].
    cbn [all_hex Hex.from_hex]. rewrite Hhi, Hlo, Hb, Hall.
    split; [reflexivity|]. now apply mutation_cons.
Qed.

(** The value of every digit of a text, in order. *)
Lemma from_hex_same_values (s s' : string) :
  List.map Hex.unhex (list_ascii_of_string s)
  = List.map Hex.unhex (list_ascii_of_string s') ->
  Hex.from_hex s = Hex.from_hex s'.
Proof.
  enough (H : forall s s',
             List.map Hex.unhex (list_ascii_of_string s)
             = List.map Hex.unhex (list_ascii_of_string s') ->
             Hex.from_hex s = Hex.from_hex s' /\
             forall a a', Hex.unhex a = Hex.unhex a' ->
                          Hex.from_hex (String a s) = Hex.from_hex (String a' s'))
    by (intros E; exact (proj1 (H s s' E))).
  clear s s'. induction s as [|c s IH]; intros [|c' s'] E; try discriminate E.
  - split; [reflexivity|]. intros a a' Ha. reflexivity.
  - cbn [list_ascii_of_string List.map] in E. injection E as Ec E.
    destruct (IH s' E) as [IH1 IH2]. split; [now apply IH2|].
    intros a a' Ha. cbn [Hex.from_hex]. rewrite Ha, Ec, IH1. reflexivity.
Qed.

Lemma list_ascii_of_string_app (a b : string) :
  list_ascii_of_string (a ++ b)
  = (list_ascii_of_string a ++ list_ascii_of_string b)%list.
Proof.
  induction a as [|x a IH]; [reflexivity|].
  rewrite append_cons. cbn [list_ascii_of_string]. now rewrite IH.
Qed.

Lemma all_hex_same_values (s s' : string) :
  List.map Hex.unhex (list_ascii_of_string s)
  = List.map Hex.unhex (list_ascii_of_string s') ->
  all_hex s = all_hex s'.
Proof.
  revert s'. induction s as [|c s IH]; intros [|c' s'] E; try discriminate E.
  - reflexivity.
  - cbn [list_ascii_of_string List.map] in E. injection E as Ec E.
    cbn [all_hex]. now rewrite Ec, (IH s' E).
Qed.

(** A digit replaced by one of the same value (the other case of a
    letter) is not seen by [decryptUrl]: with any correct cipher, the
    changed text decrypts to the URL. *)
Lemma same_value_digit_accepted (C : Crypto) (cfg : TokenConfig) :
  gcm_correct C ->
  forall iv u data tag,
    gcm_encrypt C (scryptSync C (secret (jwt cfg)) "salt" 32) iv
      (list_byte_of_string u) = (data, tag) ->
    forall pre d post d',
      Hex.unhex d' = Hex.unhex d ->
      (Hex.to_hex tag = pre ++ String d post ->
       Auth.decryptUrl C cfg
         (ciphertext (Hex.to_hex iv) (pre ++ String d' post) (Hex.to_hex data))
       = Return u) /\
      (Hex.to_hex data = pre ++ String d post ->
       Auth.decryptUrl C cfg
         (ciphertext (Hex.to_hex iv) (Hex.to_hex tag) (pre ++ String d' post))
       = Return u).
Proof.
  intros Hgcm iv u data tag Henc pre d post d' Hd.
  pose proof (Hgcm (scryptSync C (secret (jwt cfg)) "salt" 32) iv
                (list_byte_of_string u)) as Hrt.
  rewrite Henc in Hrt. cbn [fst snd] in Hrt.
  assert (Hval : forall buf, Hex.to_hex buf = pre ++ String d post ->
            List.map Hex.unhex (list_ascii_of_string (pre ++ String d' post))
            = List.map Hex.unhex (list_ascii_of_string (Hex.to_hex buf))).
  { intros buf ->. rewrite !list_ascii_of_string_app, !List.map_app.
    cbn [list_ascii_of_string List.map]. now rewrite Hd. }
  split; intros Heq; specialize (Hval _ Heq);
    (rewrite decryptUrl_ciphertext; try apply to_hex_all_hex;
     [| rewrite (all_hex_same_values _ _ Hval); apply to_hex_all_hex]);
    rewrite (from_hex_same_values _ _ Hval), !from_hex_to_hex, Hrt,
      string_of_list_byte_of_string; reflexivity.
Qed.

(** A character that is not a hexadecimal digit ends the decoding: the
    field in which it replaces a digit is read as the bytes before the
    one it stands in. *)
Lemma from_hex_cut (buf : list byte) (pre post : string) (d d' : ascii) :
  Hex.to_hex buf = pre ++ String d post ->
  Hex.unhex d' = None ->
  Hex.from_hex (pre ++ String d' post)
  = firstn (Nat.div (String.length pre) 2) buf.
Proof.
  revert pre. induction buf as [|b buf IH]; intros pre Heq Hd'.
  { destruct pre; discriminate Heq. }
  destruct (byte_digits b) as (Hhi & Hlo & Hb).
  cbn [Hex.to_hex] in Heq.
  destruct pre as [|x [|y pre]]; rewrite ?append_cons, ?append_nil in *.
  - injection Heq as <- <-. cbn [Hex.from_hex]. rewrite Hd'. reflexivity.
  - injection Heq as <- <- <-. cbn [Hex.from_hex]. rewrite Hhi, Hd'.
    reflexivity.
  - injection Heq as <- <- Heq. cbn [Hex.from_hex].
    rewrite Hhi, Hlo, Hb, (IH pre Heq Hd').
    cbn [String.length].
    replace (S (S (String.length pre))) with (String.length pre + 1 * 2)%nat
      by lia.
    rewrite Nat.div_add by discriminate.
    rewrite Nat.add_1_r. reflexivity.
Qed.

Lemma free_of_colon_replaced (buf : list byte) (pre post : string) (d d' : ascii) :
  Hex.to_hex buf = pre ++ String d post ->
  d' <> ":"%char ->
  free_of ":" (pre ++ String d' post) = true.
Proof.
  intros Heq Hd'. pose proof (to_hex_free_of_colon buf) as Hfree.
  rewrite Heq, free_of_append in Hfree. apply andb_prop in Hfree as [Hpre Hpost].
  cbn [free_of] in Hpost. apply andb_prop in Hpost as [_ Hpost].
  rewrite free_of_append, Hpre. cbn [free_of]. rewrite Hpost.
  apply Ascii.eqb_neq in Hd'. now rewrite Hd'.
Qed.

(** C3 (as amended).  Tamper detection.  For every ciphertext
    nonce:tag:data produced by [encryptUrl], changing one byte of the
    authentication tag or one byte of the encrypted payload makes
    [decryptUrl] fail with the tamper error: it never returns a URL.
    This holds of the mutated buffer printed in hexadecimal, and of the
    text in which one hexadecimal digit of the tag field or of the data
    field is replaced by a digit of another value, in either letter
    case.  A change of the text that changes no byte is not seen: a
    digit replaced by a character of the same value (the other case of a
    letter) leaves a text that decrypts to the URL.  A digit replaced by
    a character that is neither a digit nor a colon ends the field at
    the byte it stands in, and [decryptUrl] answers as the cipher does
    on the shorter tag or payload.  The cipher is assumed correct
    ([gcm_correct]) and assumed to reject a tag or data with one byte
    changed ([gcm_detects_mutation]). *)
Theorem C3_tampered_ciphertext_rejected (C : Crypto) (cfg : TokenConfig) :
  gcm_correct C ->
  gcm_detects_mutation C ->
  forall iv u data tag,
    let key := scryptSync C (secret (jwt cfg)) "salt" 32 in
    gcm_encrypt C key iv (list_byte_of_string u) = (data, tag) ->
    Auth.encryptUrl C cfg iv u
    = ciphertext (Hex.to_hex iv) (Hex.to_hex tag) (Hex.to_hex data) /\
    (forall tag',
        single_byte_mutation tag tag' ->
        Auth.decryptUrl C cfg
          (ciphertext (Hex.to_hex iv) (Hex.to_hex tag') (Hex.to_hex data))
        = Throw Auth.tamper_message) /\
    (forall data',
        single_byte_mutation data data' ->
        Auth.decryptUrl C cfg
          (ciphertext (Hex.to_hex iv) (Hex.to_hex tag) (Hex.to_hex data'))
        = Throw Auth.tamper_message) /\
    (forall pre d post d',
        Hex.unhex d' <> None ->
        Hex.unhex d' <> Hex.unhex d ->
        (Hex.to_hex tag = pre ++ String d post ->
         Auth.decryptUrl C cfg
           (ciphertext (Hex.to_hex iv) (pre ++ String d' post) (Hex.to_hex data))
         = Throw Auth.tamper_message) /\
        (Hex.to_hex data = pre ++ String d post ->
         Auth.decryptUrl C cfg
           (ciphertext (Hex.to_hex iv) (Hex.to_hex tag) (pre ++ String d' post))
         = Throw Auth.tamper_message)) /\
    (forall pre d post d',
        Hex.unhex d' = Hex.unhex d ->
        (Hex.to_hex tag = pre ++ String d post ->
         Auth.decryptUrl C cfg
           (ciphertext (Hex.to_hex iv) (pre ++ String d' post) (Hex.to_hex data))
         = Return u) /\
        (Hex.to_hex data = pre ++ String d post ->
         Auth.decryptUrl C cfg
           (ciphertext (Hex.to_hex iv) (Hex.to_hex tag) (pre ++ String d' post))
         = Return u)) /\
    (forall pre d post d',
        Hex.unhex d' = None -> d' <> ":"%char ->
        (Hex.to_hex tag = pre ++ String d post ->
         Auth.decryptUrl C cfg
           (ciphertext (Hex.to_hex iv) (pre ++ String d' post) (Hex.to_hex data))
         = match gcm_decrypt C key iv
                   (firstn (Nat.div (String.length pre) 2) tag) data with
           | Some decrypted => Return (string_of_list_byte decrypted)
           | None => Throw Auth.tamper_message
           end) /\
        (Hex.to_hex data = pre ++ String d post ->
         Auth.decryptUrl C cfg
           (ciphertext (Hex.to_hex iv) (Hex.to_hex tag) (pre ++ String d' post))
         = match gcm_decrypt C key iv tag
                   (firstn (Nat.div (String.length pre) 2) data) with
           | Some decrypted => Return (string_of_list_byte decrypted)
           | None => Throw Auth.tamper_message
           end)).
Proof.
  intros Hcorrect Hgcm iv u data tag key Henc. split.
  { rewrite encryptUrl_ciphertext. fold key. rewrite Henc. reflexivity. }
  destruct (Hgcm _ _ _ _ _ Henc) as [Htag Hdata].
  split; [|split; [|split; [|split]]].
  - intros tag' Hmut.
    rewrite decryptUrl_ciphertext by apply to_hex_all_hex.
    fold key. rewrite !from_hex_to_hex, (Htag _ Hmut). reflexivity.
  - intros data' Hmut.
    rewrite decryptUrl_ciphertext by apply to_hex_all_hex.
    fold key. rewrite !from_hex_to_hex, (Hdata _ Hmut). reflexivity.
  - intros pre d post d' Hd' Hne. split; intros Heq.
    + destruct (hex_digit_mutation _ _ _ _ _ Heq Hd' Hne) as [Hall Hmut].
      rewrite decryptUrl_ciphertext; try apply to_hex_all_hex; try assumption.
      fold key. rewrite !from_hex_to_hex, (Htag _ Hmut). reflexivity.
    + destruct (hex_digit_mutation _ _ _ _ _ Heq Hd' Hne) as [Hall Hmut].
      rewrite decryptUrl_ciphertext; try apply to_hex_all_hex; try assumption.
      fold key. rewrite !from_hex_to_hex, (Hdata _ Hmut). reflexivity.
  - intros pre d post d' Hd.
    exact (same_value_digit_accepted C cfg Hcorrect iv u data tag Henc
             pre d post d' Hd).
  - intros pre d post d' Hd' Hcolon. split; intros Heq.
    + rewrite decryptUrl_fields; try apply to_hex_free_of_colon;
        [|exact (free_of_colon_replaced _ _ _ _ _ Heq Hcolon)].
      fold key. rewrite !from_hex_to_hex, (from_hex_cut _ _ _ _ _ Heq Hd').
      reflexivity.
    + rewrite decryptUrl_fields; try apply to_hex_free_of_colon;
        [|exact (free_of_colon_replaced _ _ _ _ _ Heq Hcolon)].
      fold key. rewrite !from_hex_to_hex, (from_hex_cut _ _ _ _ _ Heq Hd').
      reflexivity.
Qed.

(** The tamper property, run on the small cipher: the first byte of the
    tag changed from [d9] to [26], and the first digit of the tag field
    changed from [d] to [E]. *)
Lemma C3_tampered_ciphertext_rejected_witness :
  gcm_correct Toy.crypto /\
  gcm_detects_mutation Toy.crypto /\
  Auth.encryptUrl Toy.crypto fallbackConfig (repeat x07 16)
    "https://o.example/a.m3u8"
  = ciphertext "07070707070707070707070707070707"
      "d9000000000000000000000000000000"
      "f2fefefafdc4b9b9f9b8ef02ebf7faf6efb9ebb8f7bdffc2" /\
  Auth.decryptUrl Toy.crypto fallbackConfig
    (ciphertext "07070707070707070707070707070707"
       (Hex.to_hex (x26 :: repeat x00 15))
       "f2fefefafdc4b9b9f9b8ef02ebf7faf6efb9ebb8f7bdffc2")
  = Throw Auth.tamper_message /\
  Auth.decryptUrl Toy.crypto fallbackConfig
    (ciphertext "07070707070707070707070707070707"
       "E9000000000000000000000000000000"
       "f2fefefafdc4b9b9f9b8ef02ebf7faf6efb9ebb8f7bdffc2")
  = Throw Auth.tamper_message.
Proof.
  split; [exact toy_correct|]. split; [exact toy_detects_mutation|].
  destruct (C3_tampered_ciphertext_rejected Toy.crypto fallbackConfig
              toy_correct toy_detects_mutation (repeat x07 16)
              "https://o.example/a.m3u8" _ _ eq_refl)
    as (Hct & Htag & _ & Hdigit & _).
  split; [exact Hct|]. split.
  - apply (Htag (x26 :: repeat x00 15)).
    exists [], xd9, x26, (repeat x00 15).
    split; [reflexivity|]. split; [reflexivity | discriminate].
  - refine (proj1 (Hdigit EmptyString "d"%char "9000000000000000000000000000000"
                     "E"%char _ _) eq_refl); vm_compute; discriminate.
Defined.

(** C3 (counterexample to the claim as stated).  The ciphertext of
    [https://o.example/a.m3u8] under the small cipher, and the text in
    which the first byte of the tag field, the character [d], is
    replaced by the character [D]: the hexadecimal text is read in
    either case, no byte of the tag changes, and [decryptUrl] returns
    the URL instead of throwing the tamper error.  This is so for every
    correct cipher ([same_value_digit_accepted]). *)
Lemma C3_counterexample_letter_case_accepted :
  Auth.encryptUrl Toy.crypto fallbackConfig (repeat x07 16)
    "https://o.example/a.m3u8"
  = ciphertext "07070707070707070707070707070707"
      "d9000000000000000000000000000000"
      "f2fefefafdc4b9b9f9b8ef02ebf7faf6efb9ebb8f7bdffc2" /\
  Auth.decryptUrl Toy.crypto fallbackConfig
    (ciphertext "07070707070707070707070707070707"
       "D9000000000000000000000000000000"
       "f2fefefafdc4b9b9f9b8ef02ebf7faf6efb9ebb8f7bdffc2")
  = Return "https://o.example/a.m3u8" /\
  Auth.decryptUrl Toy.crypto fallbackConfig
    (ciphertext "07070707070707070707070707070707"
       "D9000000000000000000000000000000"
       "f2fefefafdc4b9b9f9b8ef02ebf7faf6efb9ebb8f7bdffc2")
  <> Throw Auth.tamper_message.
Proof.
  split; [vm_compute; reflexivity|].
  split; [vm_compute; reflexivity | vm_compute; discriminate].
Qed.
(** ** Token service and stream registry *)

Section AuthProperties.

Variable C : Crypto.
Variable cfg : TokenConfig.
Variable ts : Jwt.Timespan.

Lemma verify_returns_token now tok tok' :
  (jwt_verify cfg now tok) = Return tok' -> tok' = tok.
Proof.
  unfold jwt_verify, Jwt.verify.
  repeat match goal with
         | |- context [if ?b then _ else _] => destruct b
         end; congruence.
Qed.

Lemma validateToken_refused now tok st :
  refuses (Jwt.jti tok) (Jwt.streamId tok) st ->
  Auth.valid (Auth.validateToken cfg now tok st) = false.
Proof.
  intros Href. unfold Auth.validateToken. fold (jwt_verify cfg now tok).
  destruct (jwt_verify cfg now tok) as [tok'|msg] eqn:Ev; [|reflexivity].
  apply verify_returns_token in Ev. subst tok'.
  destruct (Auth.activeStreams st !! Jwt.streamId tok) as [d|] eqn:Ed;
    [|reflexivity].
  destruct (Href d Ed) as [Hstop|Hjti].
  - now rewrite Hstop.
  - destruct (Auth.isActive d); [|reflexivity]. cbn.
    apply String.eqb_neq in Hjti. rewrite String.eqb_sym, Hjti. reflexivity.
Qed.

Lemma validateToken_stopped now tok st d :
  Auth.activeStreams st !! Jwt.streamId tok = Some d ->
  Auth.isActive d = false ->
  (jwt_verify cfg now tok) = Return tok ->
  Auth.validateToken cfg now tok st = Auth.invalid "Stream has been stopped".
Proof.
  intros Ed Hstop Ev. unfold Auth.validateToken.
  fold (jwt_verify cfg now tok). now rewrite Ev, Ed, Hstop.
Qed.

Lemma validateToken_revoked now tok st d :
  Auth.activeStreams st !! Jwt.streamId tok = Some d ->
  Auth.isActive d = true ->
  Auth.tokenJti d <> Jwt.jti tok ->
  (jwt_verify cfg now tok) = Return tok ->
  Auth.validateToken cfg now tok st = Auth.invalid "Token has been revoked".
Proof.
  intros Ed Hact Hjti Ev. unfold Auth.validateToken.
  fold (jwt_verify cfg now tok). rewrite Ev, Ed, Hact.
  cbn. apply String.eqb_neq in Hjti. rewrite String.eqb_sym, Hjti. reflexivity.
Qed.

Lemma validateToken_not_found now tok st :
  Auth.activeStreams st !! Jwt.streamId tok = None ->
  (jwt_verify cfg now tok) = Return tok ->
  Auth.validateToken cfg now tok st = Auth.invalid "Stream not found or expired".
Proof.
  intros Ed Ev. unfold Auth.validateToken.
  fold (jwt_verify cfg now tok). now rewrite Ev, Ed.
Qed.

Lemma validateToken_throws now tok st msg :
  (jwt_verify cfg now tok) = Throw msg ->
  Auth.validateToken cfg now tok st = Auth.invalid msg.
Proof.
  intros Ev. unfold Auth.validateToken.
  fold (jwt_verify cfg now tok). now rewrite Ev.
Qed.

(** What the calls do to the record of a stream. *)

Lemma lookup_stopStream now newJti sid st id :
  Auth.activeStreams (snd (Auth.stopStream now newJti sid st)) !! id =
  match Auth.activeStreams st !! sid with
  | Some d =>
      if decide (sid = id)
      then Some {| Auth.streamId := Auth.streamId d;
                   Auth.originalUrl := Auth.originalUrl d;
                   Auth.encryptedUrl := Auth.encryptedUrl d;
                   Auth.createdAt := Auth.createdAt d;
                   Auth.expiresAt := Auth.expiresAt d;
                   Auth.viewerCount := Auth.viewerCount d;
                   Auth.maxViewers := Auth.maxViewers d;
                   Auth.isActive := false;
                   Auth.tokenJti := newJti;
                   Auth.stoppedAt := Some now |}
      else Auth.activeStreams st !! id
  | None => Auth.activeStreams st !! id
  end.
Proof.
  unfold Auth.stopStream.
  destruct (Auth.activeStreams st !! sid) as [d|]; [|reflexivity].
  cbn. apply lookup_insert.
Qed.

Lemma lookup_registerViewer now sid sessionId fresh st session st' id :
  Auth.registerViewer now sid sessionId fresh st = Return (session, st') ->
  exists d, Auth.activeStreams st !! sid = Some d /\
            Auth.viewerCount d < Auth.maxViewers d /\
            Auth.activeStreams st' !! id =
            if decide (sid = id)
            then Some (Auth.set_viewerCount (Auth.viewerCount d + 1) d)
            else Auth.activeStreams st !! id.
Proof.
  unfold Auth.registerViewer.
  destruct (Auth.activeStreams st !! sid) as [d|]; [|discriminate].
  destruct (Auth.maxViewers d <=? Auth.viewerCount d)%Z eqn:Hfull;
    [discriminate|].
  intros [= <- <-]. exists d. split; [reflexivity|]. split; [lia|].
  cbn. apply lookup_insert.
Qed.

Lemma lookup_removeViewer sessionId st id d' :
  Auth.activeStreams (Auth.removeViewer sessionId st) !! id = Some d' ->
  Auth.activeStreams st !! id = Some d' \/
  exists d, Auth.activeStreams st !! id = Some d /\
            d' = Auth.set_viewerCount (Z.max 0 (Auth.viewerCount d - 1)) d.
Proof.
  unfold Auth.removeViewer.
  destruct (Auth.viewerSessions st !! sessionId) as [session|]; [|now left].
  cbn.
  destruct (Auth.activeStreams st !! Auth.sessionStreamId session) as [d|] eqn:Ed;
    [|now left].
  rewrite lookup_insert. destruct (decide _) as [<-|]; [|now left].
  intros [= <-]. right. now exists d.
Qed.

Lemma lookup_cleanup now st id d :
  Auth.activeStreams (snd (Auth.cleanupExpiredStreams now st)) !! id = Some d <->
  Auth.activeStreams st !! id = Some d /\ Auth.reaped now d = false.
Proof. cbn. apply map_lookup_filter_Some. Qed.

(** The two ways in which a [generateToken] call ends: the time span is
    read, a token is returned and its record stored; or it is not, the
    call throws and the registry is as it was. *)
Lemma generateToken_cases now rawId iv jwtid payload st :
  let sid := stream_id_of C cfg rawId payload in
  let m := expiry_minutes cfg payload in
  let url := Auth.encryptUrl C cfg iv (Auth.payloadOriginalUrl payload) in
  Auth.generateToken C cfg ts now rawId iv jwtid payload st =
  match ts m (now / 1000) with
  | Some exp =>
      (Return {| Auth.token :=
                   {| Jwt.streamId := sid; Jwt.url := url;
                      Jwt.iat := now / 1000; Jwt.type := "stream-access";
                      Jwt.exp := exp;
                      Jwt.iss := issuer (jwt cfg);
                      Jwt.aud := audience (jwt cfg);
                      Jwt.jti := jwtid;
                      Jwt.signedWith := secret (jwt cfg) |};
                 Auth.generatedStreamId := sid;
                 Auth.generatedExpiresAt := new_Date (now + m * 60 * 1000) |},
       {| Auth.activeStreams :=
            <[sid := {| Auth.streamId := sid;
                        Auth.originalUrl := Auth.payloadOriginalUrl payload;
                        Auth.encryptedUrl := url;
                        Auth.createdAt := now;
                        Auth.expiresAt := new_Date (now + m * 60 * 1000);
                        Auth.viewerCount := 0;
                        Auth.maxViewers := maxConcurrentViewers (stream cfg);
                        Auth.isActive := true;
                        Auth.tokenJti := jwtid;
                        Auth.stoppedAt := None |}]> (Auth.activeStreams st);
          Auth.viewerSessions := Auth.viewerSessions st |})
  | None => (Throw "Failed to generate access token", st)
  end.
Proof.
  unfold Auth.generateToken, Jwt.sign, stream_id_of, expiry_minutes. cbv zeta.
  destruct (ts _ _); reflexivity.
Qed.

Lemma generateToken_throws now rawId iv jwtid payload st msg :
  fst (Auth.generateToken C cfg ts now rawId iv jwtid payload st) = Throw msg ->
  Auth.generateToken C cfg ts now rawId iv jwtid payload st
  = (Throw "Failed to generate access token", st).
Proof.
  pose proof (generateToken_cases now rawId iv jwtid payload st) as H.
  cbv zeta in H. rewrite H. destruct (ts _ _); [discriminate | reflexivity].
Qed.

Lemma lookup_generateToken now rawId iv jwtid payload st id :
  Auth.activeStreams
    (snd (Auth.generateToken C cfg ts now rawId iv jwtid payload st)) !! id =
  match fst (Auth.generateToken C cfg ts now rawId iv jwtid payload st) with
  | Return g =>
      if decide (Auth.generatedStreamId g = id)
      then Some {| Auth.streamId := Auth.generatedStreamId g;
                   Auth.originalUrl := Auth.payloadOriginalUrl payload;
                   Auth.encryptedUrl := Jwt.url (Auth.token g);
                   Auth.createdAt := now;
                   Auth.expiresAt := Auth.generatedExpiresAt g;
                   Auth.viewerCount := 0;
                   Auth.maxViewers := maxConcurrentViewers (stream cfg);
                   Auth.isActive := true;
                   Auth.tokenJti := jwtid;
                   Auth.stoppedAt := None |}
      else Auth.activeStreams st !! id
  | Throw _ => Auth.activeStreams st !! id
  end.
Proof.
  pose proof (generateToken_cases now rawId iv jwtid payload st) as H.
  cbv zeta in H. rewrite H. destruct (ts _ _); [|reflexivity].
  cbn. apply lookup_insert.
Qed.

(** What a returned token carries. *)
Lemma generated_token now rawId iv jwtid payload st g :
  fst (Auth.generateToken C cfg ts now rawId iv jwtid payload st) = Return g ->
  ts (expiry_minutes cfg payload) (now / 1000) = Some (Jwt.exp (Auth.token g)) /\
  Auth.generatedStreamId g = stream_id_of C cfg rawId payload /\
  Jwt.streamId (Auth.token g) = stream_id_of C cfg rawId payload /\
  Jwt.jti (Auth.token g) = jwtid /\
  Jwt.signedWith (Auth.token g) = secret (jwt cfg) /\
  Jwt.aud (Auth.token g) = audience (jwt cfg) /\
  Jwt.iss (Auth.token g) = issuer (jwt cfg) /\
  Auth.generatedExpiresAt g
  = new_Date (now + expiry_minutes cfg payload * 60 * 1000).
Proof.
  pose proof (generateToken_cases now rawId iv jwtid payload st) as H.
  cbv zeta in H. rewrite H. destruct (ts _ _); [|discriminate].
  intros [= <-]. cbn. repeat split; reflexivity.
Qed.

Lemma stream_id_of_payload rawId payload sid :
  Auth.payloadStreamId payload = Some sid -> sid <> EmptyString ->
  stream_id_of C cfg rawId payload = sid.
Proof.
  intros Hp Hne. unfold stream_id_of. rewrite Hp.
  destruct sid; [congruence | reflexivity].
Qed.

(** A stopped or re-issued stream keeps refusing an old token, whatever
    is called afterwards. *)
Lemma refuses_step jti sid c st :
  draws_other_jti jti c -> refuses jti sid st ->
  refuses jti sid (Auth.step C cfg ts c st).
Proof.
  intros Hc Href d'. destruct c as
    [now rawId iv jwtid payload | now tok | now sid' sessionId fresh
    | sessionId | now newJti sid' | now sid' | now]; cbn [Auth.step].
  - rewrite lookup_generateToken.
    destruct (fst (Auth.generateToken C cfg ts now rawId iv jwtid payload st))
      as [g|msg]; [|apply Href].
    destruct (decide _); [|apply Href].
    intros [= <-]. right. exact Hc.
  - apply Href.
  - destruct (Auth.registerViewer now sid' sessionId fresh st)
      as [[session st']|msg] eqn:Er; [|apply Href].
    destruct (lookup_registerViewer _ _ _ _ _ _ _ sid Er) as (d & Ed & _ & ->).
    destruct (decide _) as [->|]; [|apply Href].
    intros [= <-]. exact (Href d Ed).
  - intros Hd'. apply lookup_removeViewer in Hd' as [Hd'|(d & Ed & ->)].
    + exact (Href d' Hd').
    + exact (Href d Ed).
  - rewrite lookup_stopStream.
    destruct (Auth.activeStreams st !! sid') as [d|]; [|apply Href].
    destruct (decide _); [|apply Href]. intros [= <-]. now left.
  - apply Href.
  - intros Hd'. apply lookup_cleanup in Hd' as [Hd' _]. exact (Href d' Hd').
Qed.

Lemma refuses_run jti sid calls st :
  Forall (draws_other_jti jti) calls ->
  refuses jti sid st -> refuses jti sid (Auth.run C cfg ts calls st).
Proof.
  intros Hcalls. revert st. induction Hcalls as [|c calls Hc _ IH]; intros st Href.
  - exact Href.
  - cbn. apply IH. now apply refuses_step.
Qed.

(** A token that [generateToken] has issued passes [jwt.verify] as long
    as it has not expired, and fails it with "jwt expired" afterwards. *)
Lemma verify_issued tok sid t :
  issued C cfg ts tok sid -> unexpired t tok -> jwt_verify cfg t tok = Return tok.
Proof.
  intros (now & rawId & iv & jwtid & payload & st & g & Hg & -> & _) Hexp.
  destruct (generated_token _ _ _ _ _ _ _ Hg)
    as (_ & _ & _ & _ & Hkey & Haud & Hiss & _).
  unfold unexpired in Hexp. unfold jwt_verify, Jwt.verify.
  rewrite Hkey, Haud, Hiss, !String.eqb_refl. cbn [negb].
  destruct (Z.leb_spec (Jwt.exp (Auth.token g)) (t / 1000)); [lia|reflexivity].
Qed.

Lemma verify_issued_expired tok sid t :
  issued C cfg ts tok sid -> ~ unexpired t tok ->
  jwt_verify cfg t tok = Throw "jwt expired".
Proof.
  intros (now & rawId & iv & jwtid & payload & st & g & Hg & -> & _) Hexp.
  destruct (generated_token _ _ _ _ _ _ _ Hg)
    as (_ & _ & _ & _ & Hkey & _).
  unfold unexpired in Hexp. unfold jwt_verify, Jwt.verify.
  rewrite Hkey, String.eqb_refl. cbn [negb].
  destruct (Z.leb_spec (Jwt.exp (Auth.token g)) (t / 1000)); [reflexivity|lia].
Qed.

(** The answer of [validateToken] to an issued token that the store
    refuses: the first check that fails. *)
Lemma validateToken_issued_refused tok sid t st :
  issued C cfg ts tok sid ->
  refuses (Jwt.jti tok) sid st ->
  Auth.valid (Auth.validateToken cfg t tok st) = false /\
  (~ unexpired t tok ->
   Auth.error (Auth.validateToken cfg t tok st) = Some "jwt expired") /\
  (unexpired t tok ->
   Auth.error (Auth.validateToken cfg t tok st)
   = Some match Auth.activeStreams st !! sid with
          | None => "Stream not found or expired"
          | Some d => if Auth.isActive d then "Token has been revoked"
                      else "Stream has been stopped"
          end).
Proof.
  intros Hissued Href.
  pose proof Hissued as (_ & _ & _ & _ & _ & _ & _ & _ & _ & Hsid).
  subst sid. split; [now apply validateToken_refused|]. split.
  - intros Hexp.
    now rewrite (validateToken_throws _ _ _ _ (verify_issued_expired _ _ _ Hissued Hexp)).
  - intros Hexp. pose proof (verify_issued _ _ _ Hissued Hexp) as Hv.
    destruct (Auth.activeStreams st !! Jwt.streamId tok) as [d|] eqn:Ed.
    + destruct (Auth.isActive d) eqn:Hact.
      * destruct (Href d Ed) as [Hoff|Hjti]; [congruence|].
        now rewrite (validateToken_revoked _ _ _ _ Ed Hact Hjti Hv).
      * now rewrite (validateToken_stopped _ _ _ _ Ed Hact Hv).
    + now rewrite (validateToken_not_found _ _ _ Ed Hv).
Qed.

(** The token that a [generateToken] call returns, in the store that
    the call leaves: valid exactly until it expires. *)
Lemma validateToken_fresh now rawId iv jwtid payload st g st' t :
  Auth.generateToken C cfg ts now rawId iv jwtid payload st = (Return g, st') ->
  (Auth.valid (Auth.validateToken cfg t (Auth.token g) st') = true
   <-> unexpired t (Auth.token g)) /\
  (~ unexpired t (Auth.token g) ->
   Auth.validateToken cfg t (Auth.token g) st' = Auth.invalid "jwt expired").
Proof.
  intros Hg.
  assert (Hfst : fst (Auth.generateToken C cfg ts now rawId iv jwtid payload st)
                 = Return g) by now rewrite Hg.
  destruct (generated_token _ _ _ _ _ _ _ Hfst)
    as (_ & Hgsid & Htsid & Htjti & _).
  pose proof (lookup_generateToken now rawId iv jwtid payload st
                (Jwt.streamId (Auth.token g))) as Hl.
  rewrite Hg in Hl. cbn [fst snd] in Hl. rewrite Hgsid, Htsid in Hl.
  destruct (decide (stream_id_of C cfg rawId payload
                    = stream_id_of C cfg rawId payload)); [|congruence].
  assert (Hissued : issued C cfg ts (Auth.token g) (Jwt.streamId (Auth.token g))).
  { exists now, rawId, iv, jwtid, payload, st, g. auto. }
  assert (Hexpired : ~ unexpired t (Auth.token g) ->
            Auth.validateToken cfg t (Auth.token g) st'
            = Auth.invalid "jwt expired").
  { intros Hexp. apply validateToken_throws.
    exact (verify_issued_expired _ _ t Hissued Hexp). }
  split; [|exact Hexpired]. split.
  - intros Hvalid.
    destruct (Z.lt_ge_cases (t / 1000) (Jwt.exp (Auth.token g)))
      as [Hlt|Hge]; [exact Hlt|].
    rewrite Hexpired in Hvalid by (unfold unexpired; lia). discriminate.
  - intros Hexp. pose proof (verify_issued _ _ _ Hissued Hexp) as Hv.
    unfold Auth.validateToken. fold (jwt_verify cfg t (Auth.token g)).
    rewrite Hv, Htsid, Hl.
    cbn [Auth.isActive Auth.tokenJti negb].
    rewrite Htjti, String.eqb_refl. reflexivity.
Qed.

(** C1 (as amended).  Revocation.  Once [stopStream] has been called on
    a stream that the registry holds, [validateToken] never returns
    valid on a token that was issued for that stream before, whatever is
    called afterwards, provided no later [generateToken] call draws the
    token's own identifier again.  The error is that of the first check
    that fails: "jwt expired" once the token has expired; otherwise
    "Stream not found or expired" once the record is gone (the reaper
    deletes stopped streams), "Stream has been stopped" while the record
    is stopped, and "Token has been revoked" once the stream has been
    issued again.  Right after the stop it is "Stream has been stopped"
    for a token that has not expired.  A token issued for the same
    stream after the stop validates exactly until it expires, and from
    then on the tokens issued earlier, with another identifier, get
    "Token has been revoked" until they expire.  Such a token is issued
    whenever the library reads the time span, which it does for an
    expiry of up to 10^12 minutes. *)
Theorem C1_stop_revokes_earlier_tokens :
  forall st sid d now newJti,
    Auth.activeStreams st !! sid = Some d ->
    let st1 := snd (Auth.stopStream now newJti sid st) in
    (forall tok t,
        issued C cfg ts tok sid ->
        Auth.valid (Auth.validateToken cfg t tok st1) = false /\
        (unexpired t tok ->
         Auth.error (Auth.validateToken cfg t tok st1)
         = Some "Stream has been stopped") /\
        (~ unexpired t tok ->
         Auth.error (Auth.validateToken cfg t tok st1) = Some "jwt expired")) /\
    (forall tok calls t,
        issued C cfg ts tok sid ->
        Forall (draws_other_jti (Jwt.jti tok)) calls ->
        let st2 := Auth.run C cfg ts calls st1 in
        Auth.valid (Auth.validateToken cfg t tok st2) = false /\
        (~ unexpired t tok ->
         Auth.error (Auth.validateToken cfg t tok st2) = Some "jwt expired") /\
        (unexpired t tok ->
         Auth.error (Auth.validateToken cfg t tok st2)
         = Some match Auth.activeStreams st2 !! sid with
                | None => "Stream not found or expired"
                | Some d2 => if Auth.isActive d2 then "Token has been revoked"
                             else "Stream has been stopped"
                end)) /\
    (forall now2 rawId iv jwtid payload g st2,
        Auth.payloadStreamId payload = Some sid -> sid <> EmptyString ->
        Auth.generateToken C cfg ts now2 rawId iv jwtid payload st1
        = (Return g, st2) ->
        issued C cfg ts (Auth.token g) sid /\
        (forall t,
            Auth.valid (Auth.validateToken cfg t (Auth.token g) st2) = true
            <-> unexpired t (Auth.token g)) /\
        (forall tok t,
            issued C cfg ts tok sid -> Jwt.jti tok <> jwtid ->
            Auth.valid (Auth.validateToken cfg t tok st2) = false /\
            (unexpired t tok ->
             Auth.error (Auth.validateToken cfg t tok st2)
             = Some "Token has been revoked") /\
            (~ unexpired t tok ->
             Auth.error (Auth.validateToken cfg t tok st2)
             = Some "jwt expired"))) /\
    (forall now2 rawId iv jwtid payload,
        Jwt.timespan_exact ts ->
        Z.abs (expiry_minutes cfg payload) <= 10 ^ 12 ->
        Z.abs (now2 / 1000) <= 10 ^ 15 ->
        exists g st2,
          Auth.generateToken C cfg ts now2 rawId iv jwtid payload st1
          = (Return g, st2)).
Proof.
  intros st sid d now newJti Hd st1.
  assert (Hst1 : exists d1, Auth.activeStreams st1 !! sid = Some d1 /\
                            Auth.isActive d1 = false).
  { unfold st1. rewrite lookup_stopStream, Hd.
    destruct (decide (sid = sid)); [|congruence]. eexists. split; reflexivity. }
  destruct Hst1 as (d1 & Hd1 & Hstop).
  assert (Href : forall jti, refuses jti sid st1).
  { intros jti d' Hd'. left. congruence. }
  split; [|split; [|split]].
  - intros tok t Hissued.
    destruct (validateToken_issued_refused tok sid t st1 Hissued (Href _))
      as (Hinvalid & Hexpired & Herror).
    rewrite Hd1, Hstop in Herror. auto.
  - intros tok calls t Hissued Hcalls st2.
    apply validateToken_issued_refused; [assumption|].
    apply refuses_run; [assumption | apply Href].
  - intros now2 rawId iv jwtid payload g st2 Hp Hne Hg.
    assert (Hfst : fst (Auth.generateToken C cfg ts now2 rawId iv jwtid payload st1)
                   = Return g) by now rewrite Hg.
    destruct (generated_token _ _ _ _ _ _ _ Hfst)
      as (_ & Hgsid & Htsid & Htjti & _).
    rewrite (stream_id_of_payload _ _ _ Hp Hne) in Hgsid, Htsid.
    pose proof (lookup_generateToken now2 rawId iv jwtid payload st1 sid) as Hl.
    rewrite Hg in Hl. cbn [fst snd] in Hl. rewrite Hgsid in Hl.
    destruct (decide (sid = sid)); [|congruence].
    assert (Hissued : issued C cfg ts (Auth.token g) sid).
    { exists now2, rawId, iv, jwtid, payload, st1, g. auto. }
    split; [exact Hissued|]. split.
    + intros t. split.
      * intros Hvalid.
        destruct (Z.lt_ge_cases (t / 1000) (Jwt.exp (Auth.token g)))
          as [Hlt|Hge]; [exact Hlt|].
        rewrite (validateToken_throws _ _ _ _
                   (verify_issued_expired _ _ t Hissued ltac:(unfold unexpired; lia)))
          in Hvalid.
        discriminate.
      * intros Hexp. pose proof (verify_issued _ _ _ Hissued Hexp) as Hv.
        unfold Auth.validateToken. fold (jwt_verify cfg t (Auth.token g)).
        rewrite Hv, Htsid, Hl. cbn [Auth.isActive Auth.tokenJti negb].
        rewrite Htjti, String.eqb_refl. reflexivity.
    + intros tok t Hissued' Hjti.
      assert (Href' : refuses (Jwt.jti tok) sid st2).
      { intros d' Hd'. right. rewrite Hl in Hd'. injection Hd' as <-.
        cbn. congruence. }
      destruct (validateToken_issued_refused tok sid t st2 Hissued' Href')
        as (Hinvalid & Hexpired & Herror).
      rewrite Hl in Herror. cbn [Auth.isActive] in Herror. auto.
  - intros now2 rawId iv jwtid payload Hts Hm Hiat.
    pose proof (generateToken_cases now2 rawId iv jwtid payload st1) as H.
    cbv zeta in H. rewrite (Hts _ _ Hm Hiat) in H. rewrite H. eauto.
Qed.

End AuthProperties.

(** ** The time span in exact arithmetic satisfies the two laws *)

Lemma exact_timespan_exact : Jwt.timespan_exact Jwt.exact_timespan.
Proof.
  intros minutes iat Hm _. unfold Jwt.exact_timespan.
  destruct (Z.leb_spec (10 ^ 21) (Z.abs minutes)); [|reflexivity].
  assert (10 ^ 12 < 10 ^ 21) by reflexivity. lia.
Qed.

Lemma exact_timespan_unparsed : Jwt.timespan_unparsed Jwt.exact_timespan.
Proof.
  intros minutes iat Hm. unfold Jwt.exact_timespan.
  destruct (Z.leb_spec (10 ^ 21) (Z.abs minutes)); [reflexivity|lia].
Qed.

(** The revocation property on a run: a token is issued for stream
    [stream-1], the stream is stopped, the reaper runs, a new token is
    issued for the stream. *)
Lemma C1_stop_revokes_earlier_tokens_witness :
  let payload :=
    {| Auth.payloadStreamId := Some "stream-1";
       Auth.payloadOriginalUrl := "https://o.example/a.m3u8";
       Auth.payloadExpiryMinutes := None |} in
  let r0 := Auth.generateToken Toy.crypto fallbackConfig Jwt.exact_timespan
              0 "raw-1" (repeat x07 16) "jti-1" payload Auth.empty_store in
  let st1 := snd (Auth.stopStream 1000 "jti-2" "stream-1" (snd r0)) in
  exists g0 g2 st2,
    fst r0 = Return g0 /\
    Auth.generateToken Toy.crypto fallbackConfig Jwt.exact_timespan
      3000 "raw-3" (repeat x2a 16) "jti-3" payload st1 = (Return g2, st2) /\
    Auth.error (Auth.validateToken fallbackConfig 2000 (Auth.token g0) st1)
    = Some "Stream has been stopped" /\
    Auth.valid (Auth.validateToken fallbackConfig 2000 (Auth.token g0)
                  (Auth.run Toy.crypto fallbackConfig Jwt.exact_timespan
                     [Auth.CleanupExpiredStreams 2500] st1)) = false /\
    Auth.valid (Auth.validateToken fallbackConfig 4000 (Auth.token g2) st2)
    = true /\
    Auth.error (Auth.validateToken fallbackConfig 4000 (Auth.token g0) st2)
    = Some "Token has been revoked".
Proof.
  intros payload r0 st1.
  destruct (C1_stop_revokes_earlier_tokens Toy.crypto fallbackConfig
              Jwt.exact_timespan (snd r0) "stream-1" _ 1000 "jti-2" eq_refl)
    as (Hstopped & Hlater & Hfresh & Hreturns).
  destruct (Hreturns 3000 "raw-3" (repeat x2a 16) "jti-3" payload
              exact_timespan_exact ltac:(vm_compute; discriminate)
              ltac:(vm_compute; discriminate)) as (g2 & st2 & Hg2).
  assert (Hr0 : exists g0, fst r0 = Return g0) by (eexists; reflexivity).
  destruct Hr0 as (g0 & Hg0).
  assert (Hissued : issued Toy.crypto fallbackConfig Jwt.exact_timespan
                      (Auth.token g0) "stream-1").
  { exists 0, "raw-1", (repeat x07 16), "jti-1", payload, Auth.empty_store, g0.
    split; [exact Hg0|]. split; [reflexivity|].
    injection Hg0 as <-. reflexivity. }
  assert (Hunexpired : forall t, t < 7200000 -> unexpired t (Auth.token g0)).
  { assert (Hexp : Jwt.exp (Auth.token g0) = 7200)
      by (injection Hg0 as <-; reflexivity).
    intros t Ht. unfold unexpired. rewrite Hexp.
    apply Z.div_lt_upper_bound; lia. }
  assert (Hjti : Jwt.jti (Auth.token g0) <> "jti-3").
  { injection Hg0 as <-. discriminate. }
  destruct (Hfresh 3000 "raw-3" (repeat x2a 16) "jti-3" payload g2 st2 eq_refl
              ltac:(discriminate) Hg2) as (Hissued2 & Hvalid & Hrevoked).
  exists g0, g2, st2.
  split; [exact Hg0|]. split; [exact Hg2|]. split; [|split; [|split]].
  - apply (Hstopped (Auth.token g0) 2000 Hissued). apply Hunexpired. lia.
  - apply (Hlater (Auth.token g0) [Auth.CleanupExpiredStreams 2500] 2000 Hissued).
    repeat constructor.
  - apply (Hvalid 4000).
    pose proof Hg2 as Hg2'. vm_compute in Hg2'. injection Hg2' as <- _.
    vm_compute. reflexivity.
  - apply (Hrevoked (Auth.token g0) 4000 Hissued Hjti). apply Hunexpired. lia.
Defined.

(** C1 (counterexample to the claim as stated).  A token is issued for
    stream [stream-1] at time 0 with an expiry of one minute, and the
    stream is stopped at time 1000.  At time 61000 [validateToken]
    answers "jwt expired" to the token; and once the reaper has run, at
    time 1500, it answers "Stream not found or expired" to the token,
    which has not expired at time 2000.  Neither error is the one of a
    revoked token or of a stopped stream. *)
Lemma C1_counterexample_expired_or_reaped :
  let payload :=
    {| Auth.payloadStreamId := Some "stream-1";
       Auth.payloadOriginalUrl := "https://o.example/a.m3u8";
       Auth.payloadExpiryMinutes := Some 1 |} in
  let r0 := Auth.generateToken Toy.crypto fallbackConfig Jwt.exact_timespan
              0 "raw-1" (repeat x07 16) "jti-1" payload Auth.empty_store in
  let st1 := snd (Auth.stopStream 1000 "jti-2" "stream-1" (snd r0)) in
  exists g0,
    fst r0 = Return g0 /\
    Auth.validateToken fallbackConfig 61000 (Auth.token g0) st1
    = Auth.invalid "jwt expired" /\
    Auth.validateToken fallbackConfig 2000 (Auth.token g0)
      (snd (Auth.cleanupExpiredStreams 1500 st1))
    = Auth.invalid "Stream not found or expired".
Proof.
  intros payload r0 st1. eexists. split; [reflexivity|]. split.
  - reflexivity.
  - assert (Hgone : Auth.activeStreams
                      (snd (Auth.cleanupExpiredStreams 1500 st1)) !! "stream-1"
                    = None).
    { destruct (Auth.activeStreams (snd (Auth.cleanupExpiredStreams 1500 st1))
                  !! "stream-1") as [d|] eqn:Ed; [|reflexivity].
      apply lookup_cleanup in Ed as [Ed Hkept].
      injection Ed as <-. discriminate Hkept. }
    apply validateToken_not_found; [exact Hgone | reflexivity].
Qed.

(** ** Viewer counts *)

Section RegistryProperties.

Variable C : Crypto.
Variable cfg : TokenConfig.
Variable ts : Jwt.Timespan.

Lemma count_in_range_set (n : Z) (d : Auth.StreamData) :
  0 <= n <= Auth.maxViewers d ->
  Auth.count_in_range (Auth.set_viewerCount n d).
Proof. intros H. exact H. Qed.

Lemma step_counts_in_range c st :
  0 <= maxConcurrentViewers (stream cfg) ->
  Auth.counts_in_range st -> Auth.counts_in_range (Auth.step C cfg ts c st).
Proof.
  intros Hmax Hinv id d'. destruct c as
    [now rawId iv jwtid payload | now tok | now sid sessionId fresh
    | sessionId | now newJti sid | now sid | now]; cbn [Auth.step].
  - rewrite lookup_generateToken.
    destruct (fst (Auth.generateToken C cfg ts now rawId iv jwtid payload st))
      as [g|msg]; [|apply Hinv].
    destruct (decide _); [|apply Hinv].
    intros [= <-]. unfold Auth.count_in_range. cbn. lia.
  - apply Hinv.
  - destruct (Auth.registerViewer now sid sessionId fresh st)
      as [[session st']|msg] eqn:Er; [|apply Hinv].
    destruct (lookup_registerViewer _ _ _ _ _ _ _ id Er) as (d & Ed & Hlt & ->).
    destruct (decide _) as [->|]; [|apply Hinv].
    intros [= <-]. apply count_in_range_set.
    pose proof (Hinv _ _ Ed) as Hd. unfold Auth.count_in_range in Hd. lia.
  - intros Hd'. apply lookup_removeViewer in Hd' as [Hd'|(d & Ed & ->)].
    + exact (Hinv _ _ Hd').
    + apply count_in_range_set.
      pose proof (Hinv _ _ Ed) as Hd. unfold Auth.count_in_range in Hd. lia.
  - rewrite lookup_stopStream.
    destruct (Auth.activeStreams st !! sid) as [d|] eqn:Ed; [|apply Hinv].
    destruct (decide _); [|apply Hinv]. intros [= <-].
    exact (Hinv _ _ Ed).
  - apply Hinv.
  - intros Hd'. apply lookup_cleanup in Hd' as [Hd' _]. exact (Hinv _ _ Hd').
Qed.

Lemma run_counts_in_range calls st :
  0 <= maxConcurrentViewers (stream cfg) ->
  Auth.counts_in_range st -> Auth.counts_in_range (Auth.run C cfg ts calls st).
Proof.
  intros Hmax. revert st. induction calls as [|c calls IH]; intros st Hinv.
  - exact Hinv.
  - cbn. apply IH. now apply step_counts_in_range.
Qed.

Lemma registerViewer_full now sid sessionId fresh st d :
  Auth.activeStreams st !! sid = Some d ->
  Auth.viewerCount d = Auth.maxViewers d ->
  Auth.registerViewer now sid sessionId fresh st
  = Throw "Maximum viewer limit reached".
Proof.
  intros Ed Hfull. unfold Auth.registerViewer. rewrite Ed.
  destruct (Z.leb_spec (Auth.maxViewers d) (Auth.viewerCount d));
    [reflexivity | lia].
Qed.

Lemma registerViewer_admits now sid sessionId fresh st d :
  Auth.activeStreams st !! sid = Some d ->
  Auth.viewerCount d < Auth.maxViewers d ->
  exists session st',
    Auth.registerViewer now sid sessionId fresh st = Return (session, st') /\
    Auth.sessionStreamId session = sid /\
    Auth.activeStreams st' !! sid
    = Some (Auth.set_viewerCount (Auth.viewerCount d + 1) d).
Proof.
  intros Ed Hlt. unfold Auth.registerViewer. rewrite Ed.
  destruct (Z.leb_spec (Auth.maxViewers d) (Auth.viewerCount d)); [lia|].
  eexists _, _. split; [reflexivity|]. split; [reflexivity|].
  cbn. apply lookup_insert_eq.
Qed.

(** As long as there is room, every join is admitted and counted. *)
Lemma joins_counted sid l st d :
  Auth.activeStreams st !! sid = Some d ->
  Auth.viewerCount d + Z.of_nat (List.length l) <= Auth.maxViewers d ->
  Auth.activeStreams (Auth.run C cfg ts (joins sid l) st) !! sid
  = Some (Auth.set_viewerCount (Auth.viewerCount d + Z.of_nat (List.length l)) d).
Proof.
  revert st d. induction l as [|[[now sessionId] fresh] l IH]; intros st d Ed Hroom.
  - cbn. rewrite Z.add_0_r, Ed. now destruct d.
  - cbn [joins List.map Auth.run fold_left Auth.step List.length] in *.
    destruct (registerViewer_admits now sid sessionId fresh st d Ed ltac:(lia))
      as (session & st' & -> & _ & Ed').
    fold (joins sid l). fold (Auth.run C cfg ts (joins sid l) st').
    rewrite (IH st' _ Ed') by (cbn; lia).
    unfold Auth.set_viewerCount. cbn. do 2 f_equal. lia.
Qed.

Lemma removeViewer_nonneg sessionId st :
  counts_nonneg st -> counts_nonneg (Auth.removeViewer sessionId st).
Proof.
  intros Hinv id d' Hd'.
  apply lookup_removeViewer in Hd' as [Hd'|(d & Ed & ->)].
  - exact (Hinv _ _ Hd').
  - cbn. lia.
Qed.

(** C4. The viewer count of every stream record stays between zero and
    the record's ceiling: (1) every call of the module preserves
    [0 <= viewerCount <= maxViewers] on all records (the configured
    ceiling being non-negative), and so does every sequence of calls;
    (2) [registerViewer] throws the capacity error when the count equals
    the ceiling; (3) on a record with no viewer and ceiling [N], [N]
    joins are admitted and counted and the next one throws the capacity
    error; (4) [removeViewer] calls, for any session identifiers, known
    or not, removed already or not, never make a count negative. *)
Theorem C4_viewer_count_within_bounds :
  0 <= maxConcurrentViewers (stream cfg) ->
  (forall c st, Auth.counts_in_range st ->
                Auth.counts_in_range (Auth.step C cfg ts c st)) /\
  (forall calls st, Auth.counts_in_range st ->
                    Auth.counts_in_range (Auth.run C cfg ts calls st)) /\
  (forall now sid sessionId fresh st d,
      Auth.activeStreams st !! sid = Some d ->
      Auth.viewerCount d = Auth.maxViewers d ->
      Auth.registerViewer now sid sessionId fresh st
      = Throw "Maximum viewer limit reached") /\
  (forall sid l st d now sessionId fresh,
      Auth.activeStreams st !! sid = Some d ->
      Auth.viewerCount d = 0 ->
      Z.of_nat (List.length l) = Auth.maxViewers d ->
      let st' := Auth.run C cfg ts (joins sid l) st in
      Auth.activeStreams st' !! sid
      = Some (Auth.set_viewerCount (Auth.maxViewers d) d) /\
      Auth.registerViewer now sid sessionId fresh st'
      = Throw "Maximum viewer limit reached") /\
  (forall ids st,
      counts_nonneg st ->
      counts_nonneg (fold_left (fun st id => Auth.removeViewer id st) ids st)).
Proof.
  intros Hmax. split; [|split; [|split; [|split]]].
  - intros c st. now apply step_counts_in_range.
  - intros calls st. now apply run_counts_in_range.
  - intros. eapply registerViewer_full; eassumption.
  - intros sid l st d now sessionId fresh Ed Hzero Hlen st'.
    assert (Ed' : Auth.activeStreams st' !! sid
                  = Some (Auth.set_viewerCount (Auth.maxViewers d) d)).
    { unfold st'. rewrite (joins_counted sid l st d) by (assumption || lia).
      do 2 f_equal. lia. }
    split; [exact Ed'|].
    now apply (registerViewer_full _ _ _ _ _ _ Ed').
  - intros ids. induction ids as [|id ids IH]; intros st Hinv; [exact Hinv|].
    cbn. apply IH. now apply removeViewer_nonneg.
Qed.

(** C10. [registerViewer] does not look at the record's [isActive] flag:
    on every record that the registry holds with
    [viewerCount < maxViewers], it returns a session and increments the
    count, whatever the flag; in particular on a stream that [stopStream]
    has just stopped. *)
Theorem C10_registerViewer_admits_on_stopped_stream :
  (forall now sid sessionId fresh st d,
      Auth.activeStreams st !! sid = Some d ->
      Auth.viewerCount d < Auth.maxViewers d ->
      exists session st',
        Auth.registerViewer now sid sessionId fresh st = Return (session, st') /\
        Auth.sessionStreamId session = sid /\
        Auth.activeStreams st' !! sid
        = Some (Auth.set_viewerCount (Auth.viewerCount d + 1) d)) /\
  (forall now newJti now' sid sessionId fresh st d,
      Auth.activeStreams st !! sid = Some d ->
      Auth.viewerCount d < Auth.maxViewers d ->
      let st1 := snd (Auth.stopStream now newJti sid st) in
      exists session st2 d2,
        Auth.registerViewer now' sid sessionId fresh st1 = Return (session, st2) /\
        Auth.activeStreams st2 !! sid = Some d2 /\
        Auth.isActive d2 = false /\
        Auth.viewerCount d2 = Auth.viewerCount d + 1).
Proof.
  split.
  - intros. now apply registerViewer_admits.
  - intros now newJti now' sid sessionId fresh st d Ed Hlt st1.
    assert (Hd1 : exists d1, Auth.activeStreams st1 !! sid = Some d1 /\
                             Auth.isActive d1 = false /\
                             Auth.viewerCount d1 = Auth.viewerCount d /\
                             Auth.maxViewers d1 = Auth.maxViewers d).
    { unfold st1. rewrite lookup_stopStream, Ed.
      destruct (decide (sid = sid)); [|congruence].
      eexists. repeat split; reflexivity. }
    destruct Hd1 as (d1 & Ed1 & Hstop & Hcount & Hceil).
    destruct (registerViewer_admits now' sid sessionId fresh st1 d1 Ed1
                ltac:(lia)) as (session & st2 & Hr & _ & Ed2).
    exists session, st2, (Auth.set_viewerCount (Auth.viewerCount d1 + 1) d1).
    repeat split; try assumption. cbn. lia.
Qed.

End RegistryProperties.

(** ** The active flag and expiry *)

Section ExpiryProperties.

Variable C : Crypto.
Variable cfg : TokenConfig.
Variable ts : Jwt.Timespan.

Lemma stopStream_deactivates now newJti sid st d :
  Auth.activeStreams st !! sid = Some d ->
  exists d1,
    Auth.activeStreams (snd (Auth.stopStream now newJti sid st)) !! sid = Some d1 /\
    Auth.isActive d1 = false.
Proof.
  intros Ed. rewrite lookup_stopStream, Ed.
  destruct (decide (sid = sid)); [|congruence]. eexists. split; reflexivity.
Qed.

Lemma only_stopStream_deactivates c st id d' :
  Auth.activeStreams (Auth.step C cfg ts c st) !! id = Some d' ->
  Auth.isActive d' = false ->
  (exists d, Auth.activeStreams st !! id = Some d /\ Auth.isActive d = false) \/
  (exists now newJti, c = Auth.StopStream now newJti id).
Proof.
  destruct c as
    [now rawId iv jwtid payload | now tok | now sid sessionId fresh
    | sessionId | now newJti sid | now sid | now]; cbn [Auth.step].
  - rewrite lookup_generateToken.
    destruct (fst (Auth.generateToken C cfg ts now rawId iv jwtid payload st))
      as [g|msg]; [|intros Hd' Hoff; left; eauto].
    destruct (decide _).
    + intros [= <-]. discriminate.
    + intros Hd' Hoff. left. eauto.
  - intros Hd' Hoff. left. eauto.
  - destruct (Auth.registerViewer now sid sessionId fresh st)
      as [[session st']|msg] eqn:Er; [|intros Hd' Hoff; left; eauto].
    destruct (lookup_registerViewer _ _ _ _ _ _ _ id Er) as (d & Ed & _ & ->).
    destruct (decide _) as [->|]; [|intros Hd' Hoff; left; eauto].
    intros [= <-] Hoff. left. eauto.
  - intros Hd' Hoff. apply lookup_removeViewer in Hd' as [Hd'|(d & Ed & ->)];
      left; eauto.
  - rewrite lookup_stopStream.
    destruct (Auth.activeStreams st !! sid) as [d|];
      [|intros Hd' Hoff; left; eauto].
    destruct (decide _) as [->|]; [|intros Hd' Hoff; left; eauto].
    intros _ _. right. eauto.
  - intros Hd' Hoff. left. eauto.
  - intros Hd' Hoff. apply lookup_cleanup in Hd' as [Hd' _]. left. eauto.
Qed.

Lemma date_lt_false date now :
  date_lt date now = false <-> forall e, date = Time e -> now <= e.
Proof.
  destruct date as [e|]; cbn [date_lt].
  - rewrite Z.ltb_ge. split; [intros H e' [= <-]; exact H | intros H; now apply H].
  - split; [discriminate | reflexivity].
Qed.

Lemma cleanup_keeps now st id d :
  Auth.activeStreams (snd (Auth.cleanupExpiredStreams now st)) !! id = Some d ->
  (forall e, Auth.expiresAt d = Time e -> now <= e) /\ Auth.isActive d = true.
Proof.
  intros Hd. apply lookup_cleanup in Hd as [_ Hkeep].
  unfold Auth.reaped in Hkeep. apply orb_false_iff in Hkeep as [Hexp Hact].
  apply negb_false_iff in Hact.
  split; [exact (proj1 (date_lt_false _ _) Hexp) | exact Hact].
Qed.

Lemma cleanup_reaps now st id d :
  Auth.activeStreams st !! id = Some d ->
  (exists e, Auth.expiresAt d = Time e /\ e < now) \/ Auth.isActive d = false ->
  Auth.activeStreams (snd (Auth.cleanupExpiredStreams now st)) !! id = None.
Proof.
  intros Ed Hgone.
  destruct (Auth.activeStreams (snd (Auth.cleanupExpiredStreams now st)) !! id)
    as [d'|] eqn:Ed'; [|reflexivity].
  pose proof (cleanup_keeps _ _ _ _ Ed') as [Hle Hact].
  apply lookup_cleanup in Ed' as [Ed' _].
  assert (d' = d) by congruence. subst d'.
  destruct Hgone as [(e & He & Hlt)|Hoff]; [|congruence].
  specialize (Hle e He). lia.
Qed.

(** The time value of a valid [expiresAt] and the range of the expiry
    that gives it, on a clock that [Date.now()] returns. *)
Lemma new_Date_time v e : new_Date v = Time e -> e = v /\ Z.abs v <= MAX_TIME.
Proof.
  unfold new_Date. destruct (Z.leb_spec (Z.abs v) MAX_TIME); [|discriminate].
  intros [= <-]. now split.
Qed.

(** The token expires, in seconds, no later than the record it was
    issued with, in milliseconds. *)
Lemma validateToken_expired now rawId iv jwtid payload st g e t st' :
  Jwt.timespan_exact ts -> clock now ->
  fst (Auth.generateToken C cfg ts now rawId iv jwtid payload st) = Return g ->
  Auth.generatedExpiresAt g = Time e ->
  e <= t ->
  Auth.validateToken cfg t (Auth.token g) st' = Auth.invalid "jwt expired".
Proof.
  intros Hts [Hnow0 Hnow1] Hg He Hexp.
  destruct (generated_token C cfg ts _ _ _ _ _ _ _ Hg)
    as (Hspan & _ & Hsid & _ & _ & _ & _ & Hdate).
  set (m := expiry_minutes cfg payload) in *.
  rewrite Hdate in He. apply new_Date_time in He as [-> Hrange].
  unfold MAX_TIME in *.
  pose proof (Z.mul_div_le now 1000 ltac:(lia)).
  pose proof (Z.div_pos now 1000 ltac:(lia) ltac:(lia)).
  rewrite (Hts m (now / 1000)) in Hspan by lia.
  injection Hspan as Hspan.
  apply validateToken_throws.
  apply (verify_issued_expired C cfg ts _ (Jwt.streamId (Auth.token g))).
  - exists now, rawId, iv, jwtid, payload, st, g. auto.
  - unfold unexpired. rewrite <- Hspan.
    assert (1000 * (now / 1000 + m * 60) <= t) by lia.
    pose proof (Z.div_le_lower_bound t 1000 (now / 1000 + m * 60) ltac:(lia)).
    lia.
Qed.

(** C9 (as amended).  The [isActive] flag of a stream record is false
    once the stream has been stopped explicitly, and only [stopStream]
    clears it: a record whose flag is false after a call either had it
    false before or is the one that the call has just stopped.  Expiry
    does not clear the flag.  Instead, once [now >= expiresAt],
    [validateToken] rejects the token issued with the record ("jwt
    expired"), and [cleanupExpiredStreams] deletes the records with
    [expiresAt < now] or a false flag, so that those it keeps have
    [now <= expiresAt] and a true flag.  [getStreamStats] reports the
    stored flag at any time.  ([expiresAt] is a date that is not
    invalid, which is so for an expiry within the range of dates; the
    library's time span is then assumed exact, [Jwt.timespan_exact], on
    a clock that [Date.now()] returns.) *)
Theorem C9_flag_cleared_by_stop_only :
  (forall now newJti sid st d,
      Auth.activeStreams st !! sid = Some d ->
      exists d1,
        Auth.activeStreams (snd (Auth.stopStream now newJti sid st)) !! sid
        = Some d1 /\ Auth.isActive d1 = false) /\
  (forall c st id d',
      Auth.activeStreams (Auth.step C cfg ts c st) !! id = Some d' ->
      Auth.isActive d' = false ->
      (exists d, Auth.activeStreams st !! id = Some d /\ Auth.isActive d = false) \/
      (exists now newJti, c = Auth.StopStream now newJti id)) /\
  (forall now rawId iv jwtid payload st g e t st',
      Jwt.timespan_exact ts -> clock now ->
      fst (Auth.generateToken C cfg ts now rawId iv jwtid payload st) = Return g ->
      Auth.generatedExpiresAt g = Time e ->
      e <= t ->
      Auth.validateToken cfg t (Auth.token g) st' = Auth.invalid "jwt expired") /\
  (forall now st id d,
      (Auth.activeStreams (snd (Auth.cleanupExpiredStreams now st)) !! id = Some d ->
       (forall e, Auth.expiresAt d = Time e -> now <= e) /\
       Auth.isActive d = true) /\
      (Auth.activeStreams st !! id = Some d ->
       (exists e, Auth.expiresAt d = Time e /\ e < now) \/
       Auth.isActive d = false ->
       Auth.activeStreams (snd (Auth.cleanupExpiredStreams now st)) !! id = None)) /\
  (forall now sid st d,
      Auth.activeStreams st !! sid = Some d ->
      exists stats,
        Auth.getStreamStats now sid st = Some stats /\
        Auth.statsIsActive stats = Auth.isActive d /\
        Auth.statsExpiresAt stats = Auth.expiresAt d).
Proof.
  split; [|split; [|split; [|split]]].
  - intros now newJti sid st d Ed. now apply stopStream_deactivates with d.
  - intros c st id d'. apply only_stopStream_deactivates.
  - intros now rawId iv jwtid payload st g e t st'. apply validateToken_expired.
  - intros now st id d. split.
    + apply cleanup_keeps.
    + apply cleanup_reaps.
  - intros now sid st d Ed. unfold Auth.getStreamStats. rewrite Ed.
    eexists. repeat split.
Qed.

End ExpiryProperties.

(** C9 (counterexample to the claim as stated).  A token is issued at
    time 0 with an expiry of one minute, so that the record's
    [expiresAt] is 60000.  At [now = 60000] the registry still holds the
    record, its [isActive] flag is true, [getStreamStats] reports it
    active, [registerViewer] admits a viewer, and the reaper run at that
    time keeps the record. *)
Lemma C9_counterexample_expired_record_active :
  let st := snd (Auth.generateToken Toy.crypto fallbackConfig Jwt.exact_timespan 0 "raw-1"
                   (repeat x07 16) "jti-1"
                   {| Auth.payloadStreamId := Some "stream-1";
                      Auth.payloadOriginalUrl := "https://o.example/a.m3u8";
                      Auth.payloadExpiryMinutes := Some 1 |}
                   Auth.empty_store) in
  exists d,
    Auth.activeStreams st !! "stream-1" = Some d /\
    Auth.expiresAt d = Time 60000 /\
    (forall e, Auth.expiresAt d = Time e -> 60000 >= e) /\
    Auth.isActive d = true /\
    option_map Auth.statsIsActive (Auth.getStreamStats 60000 "stream-1" st)
    = Some true /\
    (exists session st',
        Auth.registerViewer 60000 "stream-1" None "session-1" st
        = Return (session, st')) /\
    Auth.activeStreams (snd (Auth.cleanupExpiredStreams 60000 st)) !! "stream-1"
    = Some d.
Proof.
  intros st. eexists. split; [reflexivity|].
  split; [reflexivity|]. split; [intros e [= <-]; lia|]. split; [reflexivity|].
  split; [reflexivity|]. split.
  - eexists _, _. reflexivity.
  - apply lookup_cleanup. split; reflexivity.
Qed.

(** ** The registry properties on concrete runs *)

Lemma empty_store_in_range : Auth.counts_in_range Auth.empty_store.
Proof. intros id d Hd. cbn in Hd. now rewrite lookup_empty in Hd. Qed.

(** With a ceiling of two viewers: two joins are admitted, the third is
    refused, and the counts stay in range. *)
Lemma C4_viewer_count_within_bounds_witness :
  let st := snd (Auth.generateToken Toy.crypto two_viewers_config Jwt.exact_timespan 0 "raw-1"
                   (repeat x07 16) "jti-1" sample_payload Auth.empty_store) in
  let st' := Auth.run Toy.crypto two_viewers_config Jwt.exact_timespan
               (joins "stream-1" [(1, None, "session-1"); (2, None, "session-2")])
               st in
  0 <= maxConcurrentViewers (stream two_viewers_config) /\
  Auth.counts_in_range st' /\
  Auth.registerViewer 3 "stream-1" None "session-3" st'
  = Throw "Maximum viewer limit reached".
Proof.
  intros st st'.
  assert (Hmax : 0 <= maxConcurrentViewers (stream two_viewers_config))
    by (cbn; lia).
  destruct (C4_viewer_count_within_bounds Toy.crypto two_viewers_config
              Jwt.exact_timespan Hmax)
    as (Hstep & Hrun & _ & Hjoins & _).
  split; [exact Hmax|]. split.
  - apply Hrun.
    apply (Hstep (Auth.GenerateToken 0 "raw-1" (repeat x07 16) "jti-1"
                    sample_payload)).
    exact empty_store_in_range.
  - refine (proj2 (Hjoins "stream-1"
                     [(1, None, "session-1"); (2, None, "session-2")] st _
                     3 None "session-3" eq_refl eq_refl eq_refl)).
Defined.

(** A viewer joins a stream that has been stopped. *)
Lemma C10_registerViewer_admits_on_stopped_stream_witness :
  let st := snd (Auth.generateToken Toy.crypto fallbackConfig Jwt.exact_timespan 0 "raw-1"
                   (repeat x07 16) "jti-1" sample_payload Auth.empty_store) in
  let st1 := snd (Auth.stopStream 1000 "jti-2" "stream-1" st) in
  exists session st2 d2,
    Auth.registerViewer 2000 "stream-1" None "session-1" st1
    = Return (session, st2) /\
    Auth.activeStreams st2 !! "stream-1" = Some d2 /\
    Auth.isActive d2 = false /\
    Auth.viewerCount d2 = 1.
Proof.
  intros st st1.
  apply (proj2 C10_registerViewer_admits_on_stopped_stream
           1000 "jti-2" 2000 "stream-1" None "session-1" st _ eq_refl).
  cbn. lia.
Defined.

(** The flag of a record: cleared by a stop, and the record then
    reaped; the token of an expired record is rejected. *)
Lemma C9_flag_cleared_by_stop_only_witness :
  let r := Auth.generateToken Toy.crypto fallbackConfig Jwt.exact_timespan
             0 "raw-1" (repeat x07 16) "jti-1" sample_payload
             Auth.empty_store in
  let st1 := snd (Auth.stopStream 1000 "jti-2" "stream-1" (snd r)) in
  (exists d1, Auth.activeStreams st1 !! "stream-1" = Some d1 /\
              Auth.isActive d1 = false) /\
  (exists g, fst r = Return g /\
             Auth.validateToken fallbackConfig 7200000 (Auth.token g) (snd r)
             = Auth.invalid "jwt expired") /\
  Auth.activeStreams (snd (Auth.cleanupExpiredStreams 2000 st1)) !! "stream-1"
  = None.
Proof.
  intros r st1.
  destruct (C9_flag_cleared_by_stop_only Toy.crypto fallbackConfig
              Jwt.exact_timespan)
    as (Hstop & _ & Hexpired & Hreap & _).
  split; [|split].
  - apply (Hstop 1000 "jti-2" "stream-1" (snd r) _ eq_refl).
  - eexists. split; [reflexivity|].
    apply (Hexpired 0 "raw-1" (repeat x07 16) "jti-1" sample_payload
             Auth.empty_store _ 7200000 7200000 (snd r) exact_timespan_exact).
    + unfold clock, MAX_TIME. lia.
    + reflexivity.
    + reflexivity.
    + lia.
  - refine (proj2 (Hreap 2000 st1 "stream-1" _) eq_refl _). now right.
Defined.

(** ** Segment cache *)

Lemma byteLength_nonneg (buf : list byte) : 0 <= Proxy.byteLength buf.
Proof. unfold Proxy.byteLength. lia. Qed.

(** Setting a key adds at most the new segment to the resident bytes:
    exactly the new segment for a new key, the new segment less the old
    one for a key that is present. *)
Lemma resident_bytes_map_set key e m :
  Proxy.resident_bytes (Proxy.map_set key e m)
  = Proxy.resident_bytes m + Proxy.byteLength (Proxy.data e)
    - match Proxy.map_get key m with
      | Some old => Proxy.byteLength (Proxy.data old)
      | None => 0
      end.
Proof.
  induction m as [|[k e'] m IH];
    cbn [Proxy.resident_bytes Proxy.map_set Proxy.map_get].
  - lia.
  - destruct (String.eqb k key); cbn [Proxy.resident_bytes]; [lia|].
    rewrite IH. lia.
Qed.

(** The eviction loop takes the same number of bytes from the map and
    from the counter, and stops with an empty map or with room for the
    segment. *)
Lemma evict_spec len m size :
  let '(m', size') := Proxy.evict len m size in
  size' - Proxy.resident_bytes m' = size - Proxy.resident_bytes m /\
  (m' = [] \/ size' + len <= Proxy.CACHE_MAX_SIZE).
Proof.
  revert size. induction m as [|[k e] m IH]; intros size;
    cbn [Proxy.evict Proxy.resident_bytes].
  - split; [reflexivity | now left].
  - destruct (Z.ltb_spec Proxy.CACHE_MAX_SIZE (size + len)).
    + specialize (IH (size - Proxy.byteLength (Proxy.data e))).
      destruct (Proxy.evict len m _) as [m' size'].
      destruct IH as [IH1 IH2]. split; [lia | exact IH2].
    + cbn [Proxy.resident_bytes]. split; [reflexivity | now right].
Qed.

(** The counter never falls below the resident bytes. *)
Lemma cacheSegment_counter_covers now key buf c :
  Proxy.resident_bytes (Proxy.segmentCache c) <= Proxy.currentCacheSize c ->
  Proxy.resident_bytes (Proxy.segmentCache (Proxy.cacheSegment now key buf c))
  <= Proxy.currentCacheSize (Proxy.cacheSegment now key buf c).
Proof.
  intros Hinv. unfold Proxy.cacheSegment.
  pose proof (evict_spec (Proxy.byteLength buf) (Proxy.segmentCache c)
                (Proxy.currentCacheSize c)) as Hev.
  destruct (Proxy.evict _ _ _) as [m' size']. destruct Hev as [Hdiff _].
  cbn [Proxy.segmentCache Proxy.currentCacheSize].
  rewrite resident_bytes_map_set. cbn [Proxy.data].
  destruct (Proxy.map_get key m') as [old|];
    [pose proof (byteLength_nonneg (Proxy.data old))|]; lia.
Qed.

(** What holds of the ceiling: a segment that fits under it leaves the
    resident bytes under it. *)
Lemma cacheSegment_fitting_segment now key buf c :
  Proxy.byteLength buf <= Proxy.CACHE_MAX_SIZE ->
  Proxy.resident_bytes (Proxy.segmentCache c) <= Proxy.currentCacheSize c ->
  Proxy.resident_bytes (Proxy.segmentCache (Proxy.cacheSegment now key buf c))
  <= Proxy.CACHE_MAX_SIZE.
Proof.
  intros Hfit Hinv. unfold Proxy.cacheSegment.
  pose proof (evict_spec (Proxy.byteLength buf) (Proxy.segmentCache c)
                (Proxy.currentCacheSize c)) as Hev.
  destruct (Proxy.evict _ _ _) as [m' size']. destruct Hev as [Hdiff Hroom].
  cbn [Proxy.segmentCache Proxy.currentCacheSize].
  rewrite resident_bytes_map_set. cbn [Proxy.data].
  destruct Hroom as [-> | Hroom].
  - cbn [Proxy.map_get Proxy.resident_bytes]. lia.
  - destruct (Proxy.map_get key m') as [old|];
      [pose proof (byteLength_nonneg (Proxy.data old))|]; lia.
Qed.

Lemma puts_fitting_segments calls c :
  Forall (fun call => Proxy.byteLength (snd call) <= Proxy.CACHE_MAX_SIZE) calls ->
  Proxy.resident_bytes (Proxy.segmentCache c) <= Proxy.currentCacheSize c ->
  Proxy.resident_bytes (Proxy.segmentCache c) <= Proxy.CACHE_MAX_SIZE ->
  Proxy.resident_bytes (Proxy.segmentCache (Proxy.puts calls c))
  <= Proxy.CACHE_MAX_SIZE.
Proof.
  intros Hcalls. revert c.
  induction Hcalls as [|[[now key] buf] calls Hfit _ IH]; intros c Hinv Hb.
  - exact Hb.
  - cbn [Proxy.puts fold_left]. apply IH.
    + now apply cacheSegment_counter_covers.
    + now apply cacheSegment_fitting_segment.
Qed.

(** The accounting is exact for a key that the map does not hold once
    the eviction loop has run. *)
Lemma cacheSegment_new_key_exact now key buf c :
  Proxy.currentCacheSize c = Proxy.resident_bytes (Proxy.segmentCache c) ->
  Proxy.map_get key
    (fst (Proxy.evict (Proxy.byteLength buf) (Proxy.segmentCache c)
            (Proxy.currentCacheSize c))) = None ->
  Proxy.currentCacheSize (Proxy.cacheSegment now key buf c)
  = Proxy.resident_bytes (Proxy.segmentCache (Proxy.cacheSegment now key buf c)).
Proof.
  intros Hinv Hnew. unfold Proxy.cacheSegment.
  pose proof (evict_spec (Proxy.byteLength buf) (Proxy.segmentCache c)
                (Proxy.currentCacheSize c)) as Hev.
  destruct (Proxy.evict _ _ _) as [m' size']. destruct Hev as [Hdiff _].
  cbn [Proxy.segmentCache Proxy.currentCacheSize fst] in *.
  rewrite resident_bytes_map_set, Hnew. cbn [Proxy.data]. lia.
Qed.

Lemma cacheSegment_empty now key buf :
  Proxy.cacheSegment now key buf Proxy.empty_cache
  = {| Proxy.segmentCache := [(key, {| Proxy.data := buf; Proxy.timestamp := now |})];
       Proxy.currentCacheSize := 0 + Proxy.byteLength buf |}.
Proof. reflexivity. Qed.

Lemma oversized_segment_is_stored (n : N) now key :
  Proxy.CACHE_MAX_SIZE < Z.of_N n ->
  Proxy.CACHE_MAX_SIZE
  < Proxy.resident_bytes
      (Proxy.segmentCache
         (Proxy.cacheSegment now key (repeat x00 (N.to_nat n)) Proxy.empty_cache)).
Proof.
  intros Hn. rewrite cacheSegment_empty.
  unfold Proxy.segmentCache, Proxy.resident_bytes, Proxy.data.
  unfold Proxy.byteLength. rewrite List.repeat_length, N_nat_Z. lia.
Qed.

(** C5 (the code at the failing input).  One [cacheSegment] call with a
    segment of 52428801 bytes, one byte more than the ceiling of
    52428800, on the empty cache: the loop finds nothing to evict, the
    segment is stored, and the resident bytes exceed the ceiling. *)
Theorem C5_oversized_segment_exceeds_ceiling :
  Proxy.CACHE_MAX_SIZE = 52428800 /\
  Proxy.CACHE_MAX_SIZE
  < Proxy.resident_bytes
      (Proxy.segmentCache
         (Proxy.cacheSegment 0 "segment" (repeat x00 (N.to_nat 52428801))
            Proxy.empty_cache)).
Proof.
  split; [reflexivity|]. apply oversized_segment_is_stored. reflexivity.
Qed.

(** C6 (the code at the failing input).  Two [cacheSegment] calls on the
    same key with a one-byte segment each, 40 seconds apart (the entry of
    the first is stale by then, so [proxySegment] misses and fetches the
    segment again): the second replaces the entry of the first, the map
    holds one byte, and the counter is 2. *)
Theorem C6_overwrite_counts_twice :
  let c1 := Proxy.cacheSegment 0 "segment" [x00] Proxy.empty_cache in
  let c2 := Proxy.cacheSegment 40000 "segment" [x01] c1 in
  Proxy.currentCacheSize c1 = Proxy.resident_bytes (Proxy.segmentCache c1) /\
  Proxy.cachedSegment 40000 "segment" c1 = None /\
  Proxy.segmentCache c2
  = [("segment", {| Proxy.data := [x01]; Proxy.timestamp := 40000 |})] /\
  Proxy.resident_bytes (Proxy.segmentCache c2) = 1 /\
  Proxy.currentCacheSize c2 = 2.
Proof. cbn. repeat split. Qed.

(** ** Manifest rewriter *)

Lemma decode_encode_char (c : ascii) (rest : string) :
  Js.decodeURIComponent (Js.encodeURIComponent (String c rest))
  = match Js.decodeURIComponent (Js.encodeURIComponent rest) with
    | Return r => Return (String c r)
    | Throw msg => Throw msg
    end.
Proof. destruct c as [[] [] [] [] [] [] [] []]; reflexivity. Qed.

(** The router's decoding of the query parameter gives back what
    [encodeURIComponent] was applied to. *)
Lemma decodeURIComponent_encodeURIComponent (s : string) :
  Js.decodeURIComponent (Js.encodeURIComponent s) = Return s.
Proof.
  induction s as [|c s IH]; [reflexivity|].
  now rewrite decode_encode_char, IH.
Qed.

(** What [encodeURIComponent] does to the text of a ciphertext: the
    hexadecimal digits stand for themselves, each colon becomes [%3A]. *)
Lemma encodeURIComponent_app (a b : string) :
  Js.encodeURIComponent (a ++ b)
  = Js.encodeURIComponent a ++ Js.encodeURIComponent b.
Proof.
  induction a as [|c a IH]; [reflexivity|].
  rewrite append_cons. cbn [Js.encodeURIComponent]. rewrite IH.
  destruct (Js.is_unreserved c); reflexivity.
Qed.

Lemma hex_digit_unreserved (c : ascii) :
  Hex.unhex c <> None -> Js.is_unreserved c = true.
Proof.
  destruct c as [[] [] [] [] [] [] [] []]; vm_compute; congruence.
Qed.

Lemma encodeURIComponent_hex (s : string) :
  all_hex s = true -> Js.encodeURIComponent s = s.
Proof.
  induction s as [|c s IH]; [reflexivity|]. cbn [all_hex].
  intros H. apply andb_prop in H as [Hc Hs].
  cbn [Js.encodeURIComponent].
  rewrite hex_digit_unreserved, (IH Hs); [reflexivity|].
  destruct (Hex.unhex c); [discriminate | discriminate Hc].
Qed.

Lemma encodeURIComponent_ciphertext (a b c : string) :
  all_hex a = true -> all_hex b = true -> all_hex c = true ->
  Js.encodeURIComponent (ciphertext a b c) = a ++ "%3A" ++ b ++ "%3A" ++ c.
Proof.
  intros Ha Hb Hc. unfold ciphertext.
  rewrite !encodeURIComponent_app.
  rewrite (encodeURIComponent_hex a Ha), (encodeURIComponent_hex b Hb),
    (encodeURIComponent_hex c Hc).
  reflexivity.
Qed.

Section RewriterProperties.

Variable C : Crypto.
Variable cfg : TokenConfig.

(** C7 (the code at the failing input).  A playlist whose variant
    reference carries a query string: the reference ends neither in
    [.m3u8] nor in one of the segment extensions and does not contain
    [.ts?], so the line is pushed as it is and the origin URL is in the
    output.  The same holds of an init segment with a query string and of
    an init segment declared by an [EXT-X-MAP] tag, whereas a media
    segment with a query string is rewritten.  ([url.resolve] is not
    called on a line that is pushed as it is: this holds whatever it
    computes.) *)
Theorem C7_variant_with_query_passes_through :
  forall resolve rnd baseUrl proxyBaseUrl encryptedBaseUrl,
    Proxy.rewriteManifestUrls C cfg resolve rnd
      "https://origin.example/live/low/index.m3u8?token=abc"
      baseUrl proxyBaseUrl encryptedBaseUrl
    = Return "https://origin.example/live/low/index.m3u8?token=abc" /\
    Proxy.rewriteLine C cfg resolve (rnd 0%nat) baseUrl proxyBaseUrl
      "https://origin.example/live/init.mp4?token=abc"
    = Return ("https://origin.example/live/init.mp4?token=abc", false) /\
    Proxy.rewriteLine C cfg resolve (rnd 0%nat) baseUrl proxyBaseUrl
      ("#EXT-X-MAP:URI=" ++ String Js.dquote "https://origin.example/live/init.mp4"
         ++ String Js.dquote EmptyString)
    = Return
        ("#EXT-X-MAP:URI=" ++ String Js.dquote "https://origin.example/live/init.mp4"
           ++ String Js.dquote EmptyString, false) /\
    Proxy.rewriteLine C cfg resolve (rnd 0%nat) baseUrl proxyBaseUrl
      "https://origin.example/live/segment001.ts?token=abc"
    = outcome_map (fun proxyUrl => (proxyUrl, true))
        (Proxy.proxied C cfg resolve (rnd 0%nat) baseUrl proxyBaseUrl "segment"
           "https://origin.example/live/segment001.ts?token=abc").
Proof.
  intros resolve rnd baseUrl proxyBaseUrl encryptedBaseUrl.
  repeat split; reflexivity.
Qed.

(** C8. The playlist made of the lines [#EXTINF:4.0,] and
    [segment001.ts], with base URL
    [https://origin.example/live/index.m3u8]: the reference resolves to
    [https://origin.example/live/segment001.ts]; the rewritten playlist
    is the [#EXTINF] line unchanged followed by
    [<proxyBase>/segment?url=<encodeURIComponent(ciphertext)>], the
    ciphertext being [encryptUrl] of the resolved URL.  The parameter is
    the ciphertext in URL-encoded form: the three hexadecimal fields as
    they are, and [%3A] for each of the two colons that separate them,
    so that no colon is left in it.  The router's decoding of the
    parameter gives the ciphertext back, and [decryptUrl] of the
    ciphertext is the resolved URL.  The cipher is assumed correct
    ([gcm_correct]), and [url.resolve] is any function that resolves the
    reference of the example as RFC 3986 does. *)
Theorem C8_segment_line_rewritten :
  gcm_correct C ->
  forall resolve rnd proxyBaseUrl encryptedBaseUrl,
    let baseUrl := "https://origin.example/live/index.m3u8" in
    let resolved := "https://origin.example/live/segment001.ts" in
    let manifest := "#EXTINF:4.0," ++ String Proxy.newline "segment001.ts" in
    let encrypted := Auth.encryptUrl C cfg (rnd 0%nat) resolved in
    let out := gcm_encrypt C (scryptSync C (secret (jwt cfg)) "salt" 32)
                 (rnd 0%nat) (list_byte_of_string resolved) in
    resolve baseUrl "segment001.ts" = Return (Url.resolve baseUrl "segment001.ts") ->
    Url.resolve baseUrl "segment001.ts" = resolved /\
    Proxy.rewriteManifestUrls C cfg resolve rnd manifest baseUrl proxyBaseUrl
      encryptedBaseUrl
    = Return ("#EXTINF:4.0," ++ String Proxy.newline
                (proxyBaseUrl ++ "/segment?url=" ++ Js.encodeURIComponent encrypted)) /\
    Js.encodeURIComponent encrypted
    = Hex.to_hex (rnd 0%nat) ++ "%3A" ++ Hex.to_hex (snd out) ++ "%3A"
      ++ Hex.to_hex (fst out) /\
    free_of ":" (Js.encodeURIComponent encrypted) = true /\
    Js.decodeURIComponent (Js.encodeURIComponent encrypted) = Return encrypted /\
    Auth.decryptUrl C cfg encrypted = Return resolved.
Proof.
  intros Hgcm resolve rnd proxyBaseUrl encryptedBaseUrl baseUrl resolved
    manifest encrypted out Hres.
  assert (Hresolved : Url.resolve baseUrl "segment001.ts" = resolved)
    by (vm_compute; reflexivity).
  rewrite Hresolved in Hres.
  assert (Hencoded : Js.encodeURIComponent encrypted
                     = Hex.to_hex (rnd 0%nat) ++ "%3A" ++ Hex.to_hex (snd out)
                       ++ "%3A" ++ Hex.to_hex (fst out)).
  { unfold encrypted. rewrite encryptUrl_ciphertext. cbv zeta. fold out.
    apply encodeURIComponent_ciphertext; apply to_hex_all_hex. }
  split; [exact Hresolved|]. split; [|split; [|split; [|split]]].
  - unfold Proxy.rewriteManifestUrls.
    replace (Str.split Proxy.newline manifest)
      with ["#EXTINF:4.0,"; "segment001.ts"] by (vm_compute; reflexivity).
    cbn [Proxy.rewriteLines].
    replace (Proxy.rewriteLine C cfg resolve (rnd 0%nat) baseUrl proxyBaseUrl
               "#EXTINF:4.0,")
      with (@Return (string * bool) ("#EXTINF:4.0,", false)) by reflexivity.
    replace (Proxy.rewriteLine C cfg resolve (rnd 0%nat) baseUrl proxyBaseUrl
               "segment001.ts")
      with (outcome_map (fun proxyUrl : string => (proxyUrl, true))
              (Proxy.proxied C cfg resolve (rnd 0%nat) baseUrl proxyBaseUrl
                 "segment" "segment001.ts")) by reflexivity.
    unfold Proxy.proxied. rewrite Hres. reflexivity.
  - exact Hencoded.
  - rewrite Hencoded, !free_of_append.
    rewrite !to_hex_free_of_colon. reflexivity.
  - apply decodeURIComponent_encodeURIComponent.
  - now apply decryptUrl_encryptUrl.
Qed.

End RewriterProperties.

(** The example, run on the small cipher with RFC 3986 resolution: the
    second line of the output, with its two [%3A]. *)
Lemma C8_segment_line_rewritten_witness :
  gcm_correct Toy.crypto /\
  Url.rfc3986 "https://origin.example/live/index.m3u8" "segment001.ts"
  = Return (Url.resolve "https://origin.example/live/index.m3u8" "segment001.ts") /\
  Proxy.rewriteManifestUrls Toy.crypto fallbackConfig Url.rfc3986
    (fun _ => repeat x07 16)
    ("#EXTINF:4.0," ++ String Proxy.newline "segment001.ts")
    "https://origin.example/live/index.m3u8" "https://proxy.example/proxy"
    EmptyString
  = Return
      ("#EXTINF:4.0," ++ String Proxy.newline
         ("https://proxy.example/proxy" ++ "/segment?url=" ++
          Js.encodeURIComponent
            (Auth.encryptUrl Toy.crypto fallbackConfig (repeat x07 16)
               "https://origin.example/live/segment001.ts"))) /\
  Js.encodeURIComponent
    (Auth.encryptUrl Toy.crypto fallbackConfig (repeat x07 16)
       "https://origin.example/live/segment001.ts")
  = "07070707070707070707070707070707" ++ "%3A" ++
    "b8000000000000000000000000000000" ++ "%3A" ++
    "f2fefefafdc4b9b9f9fcf3f1f3f8b8ef02ebf7faf6efb9f6f300efb9fdeff1f7eff8febababbb8fefd" /\
  Auth.decryptUrl Toy.crypto fallbackConfig
    (Auth.encryptUrl Toy.crypto fallbackConfig (repeat x07 16)
       "https://origin.example/live/segment001.ts")
  = Return "https://origin.example/live/segment001.ts".
Proof.
  split; [exact toy_correct|]. split; [reflexivity|].
  destruct (C8_segment_line_rewritten Toy.crypto fallbackConfig toy_correct
              Url.rfc3986 (fun _ => repeat x07 16) "https://proxy.example/proxy"
              EmptyString eq_refl)
    as (_ & Hrewritten & _ & _ & _ & Hdecrypt).
  split; [exact Hrewritten|]. split; [vm_compute; reflexivity | exact Hdecrypt].
Defined.

(** * Further properties *)

(** ** Segment cache: lookups, order of eviction, accounting *)

Lemma map_get_map_set_eq key e m :
  Proxy.map_get key (Proxy.map_set key e m) = Some e.
Proof.
  induction m as [|[k e'] m IH]; cbn [Proxy.map_set Proxy.map_get].
  - now rewrite String.eqb_refl.
  - destruct (String.eqb k key) eqn:E; cbn [Proxy.map_get]; now rewrite E.
Qed.

Lemma map_get_map_set_ne key key' e m :
  key' <> key ->
  Proxy.map_get key' (Proxy.map_set key e m) = Proxy.map_get key' m.
Proof.
  intros Hne. induction m as [|[k e'] m IH]; cbn [Proxy.map_set Proxy.map_get].
  - apply String.eqb_neq in Hne. now rewrite String.eqb_sym, Hne.
  - destruct (String.eqb k key) eqn:E; cbn [Proxy.map_get].
    + apply String.eqb_eq in E. subst k.
      apply String.eqb_neq in Hne. now rewrite String.eqb_sym, Hne.
    + now rewrite IH.
Qed.

(** The eviction loop removes the oldest entries: what it leaves is the
    end of the list. *)
Lemma evict_suffix len m size :
  exists dropped, m = (dropped ++ fst (Proxy.evict len m size))%list.
Proof.
  revert size. induction m as [|[k e] m IH]; intros size; cbn [Proxy.evict].
  - now exists [].
  - destruct (Proxy.CACHE_MAX_SIZE <? size + len)%Z.
    + destruct (IH (size - Proxy.byteLength (Proxy.data e))) as [dropped Hd].
      exists ((k, e) :: dropped). cbn. now rewrite <- Hd.
    + now exists [].
Qed.

Lemma evict_no_pressure len m size :
  size + len <= Proxy.CACHE_MAX_SIZE -> Proxy.evict len m size = (m, size).
Proof.
  intros Hroom. destruct m as [|[k e] m]; cbn [Proxy.evict]; [reflexivity|].
  destruct (Z.ltb_spec Proxy.CACHE_MAX_SIZE (size + len)); [lia|reflexivity].
Qed.

Lemma has_key_app_r key (a b : list (string * Proxy.Entry)) :
  has_key key (a ++ b)%list = has_key key a || has_key key b.
Proof.
  unfold has_key. induction a as [|[k e] a IH]; cbn [app Proxy.map_get].
  - now destruct (Proxy.map_get key b).
  - destruct (String.eqb k key); [reflexivity | exact IH].
Qed.

Lemma keys_unique_app_r (a b : list (string * Proxy.Entry)) :
  keys_unique (a ++ b)%list = true -> keys_unique b = true.
Proof.
  induction a as [|[k e] a IH]; cbn [app keys_unique]; [tauto|].
  intros H. apply andb_prop in H as [_ H]. now apply IH.
Qed.

(** In a list without repeated keys, an entry found after the eviction
    is the entry that was there before. *)
Lemma map_get_suffix key (a b : list (string * Proxy.Entry)) e :
  keys_unique (a ++ b)%list = true ->
  Proxy.map_get key b = Some e -> Proxy.map_get key (a ++ b)%list = Some e.
Proof.
  induction a as [|[k e'] a IH]; cbn [app keys_unique Proxy.map_get]; [tauto|].
  intros H Hb. apply andb_prop in H as [Hk H].
  destruct (String.eqb k key) eqn:E; [|now apply IH].
  apply String.eqb_eq in E. subst k. apply negb_true_iff in Hk.
  rewrite has_key_app_r in Hk. apply orb_false_iff in Hk as [_ Hk].
  unfold has_key in Hk. now rewrite Hb in Hk.
Qed.

Lemma has_key_map_set key key' e m :
  has_key key' (Proxy.map_set key e m) = String.eqb key key' || has_key key' m.
Proof.
  unfold has_key. destruct (String.eqb key key') eqn:E.
  - apply String.eqb_eq in E. subst key'. now rewrite map_get_map_set_eq.
  - apply String.eqb_neq in E. rewrite map_get_map_set_ne by congruence.
    reflexivity.
Qed.

Lemma keys_unique_map_set key e m :
  keys_unique m = true -> keys_unique (Proxy.map_set key e m) = true.
Proof.
  induction m as [|[k e'] m IH]; cbn [Proxy.map_set keys_unique]; [reflexivity|].
  intros H. apply andb_prop in H as [Hk H].
  destruct (String.eqb k key) eqn:E; cbn [keys_unique].
  - now rewrite Hk, H.
  - rewrite has_key_map_set, (IH H), andb_true_r.
    apply negb_true_iff in Hk. rewrite Hk, orb_false_r.
    now rewrite String.eqb_sym, E.
Qed.

Lemma cacheSegment_keys_unique now key buf c :
  keys_unique (Proxy.segmentCache c) = true ->
  keys_unique (Proxy.segmentCache (Proxy.cacheSegment now key buf c)) = true.
Proof.
  intros Hu. unfold Proxy.cacheSegment.
  destruct (evict_suffix (Proxy.byteLength buf) (Proxy.segmentCache c)
              (Proxy.currentCacheSize c)) as [dropped Hd].
  destruct (Proxy.evict _ _ _) as [m' size']. cbn [fst] in Hd.
  cbn [Proxy.segmentCache]. apply keys_unique_map_set.
  rewrite Hd in Hu. now apply keys_unique_app_r in Hu.
Qed.

Lemma puts_snoc calls call c :
  Proxy.puts (calls ++ [call])%list c
  = Proxy.cacheSegment (fst (fst call)) (snd (fst call)) (snd call)
      (Proxy.puts calls c).
Proof.
  unfold Proxy.puts. rewrite fold_left_app. destruct call as [[now key] buf].
  reflexivity.
Qed.

Lemma last_put_snoc key calls now k buf :
  last_put key (calls ++ [(now, k, buf)])%list
  = if String.eqb k key
    then Some {| Proxy.data := buf; Proxy.timestamp := now |}
    else last_put key calls.
Proof.
  induction calls as [|[[now' k'] buf'] calls IH]; cbn [app last_put].
  - reflexivity.
  - rewrite IH. destruct (String.eqb k key); [reflexivity|].
    reflexivity.
Qed.

Lemma puts_keys_unique calls :
  keys_unique (Proxy.segmentCache (Proxy.puts calls Proxy.empty_cache)) = true.
Proof.
  induction calls as [|call calls IH] using rev_ind; [reflexivity|].
  rewrite puts_snoc. now apply cacheSegment_keys_unique.
Qed.

Lemma cachedSegment_cacheSegment now key buf c t :
  Proxy.cachedSegment t key (Proxy.cacheSegment now key buf c)
  = if (t - now <? 30000)%Z then Some buf else None.
Proof.
  unfold Proxy.cachedSegment, Proxy.cacheSegment.
  destruct (Proxy.evict _ _ _) as [m' size']. cbn [Proxy.segmentCache].
  rewrite map_get_map_set_eq. reflexivity.
Qed.

(** X1. A segment that was just cached is served from the cache for the
    next 30 seconds and not after: the lookup that [proxySegment] makes
    at time [t] on the key of a [cacheSegment] call made at time [now]
    is a hit with exactly the cached bytes when [t - now < 30000], and a
    miss otherwise, whatever the cache held and however large the
    segment. *)
Theorem X1_cached_segment_served_for_30s :
  forall now key buf c t,
    Proxy.cachedSegment t key (Proxy.cacheSegment now key buf c)
    = if (t - now <? 30000)%Z then Some buf else None.
Proof. exact cachedSegment_cacheSegment. Qed.

(** In the cache built by a sequence of calls, the entry under a key is
    the one of the last call on that key. *)
Lemma map_get_puts_last_put calls key e :
  Proxy.map_get key (Proxy.segmentCache (Proxy.puts calls Proxy.empty_cache))
  = Some e ->
  last_put key calls = Some e.
Proof.
  revert key e.
  induction calls as [|[[now k] buf] calls IH] using rev_ind; intros key e.
  - discriminate.
  - rewrite puts_snoc, last_put_snoc. cbn [fst snd].
    pose proof (puts_keys_unique calls) as Hu.
    unfold Proxy.cacheSegment.
    destruct (evict_suffix (Proxy.byteLength buf)
                (Proxy.segmentCache (Proxy.puts calls Proxy.empty_cache))
                (Proxy.currentCacheSize (Proxy.puts calls Proxy.empty_cache)))
      as [dropped Hd].
    destruct (Proxy.evict _ _ _) as [m' size']. cbn [fst] in Hd.
    cbn [Proxy.segmentCache].
    destruct (String.eqb k key) eqn:E.
    + apply String.eqb_eq in E. subst k. rewrite map_get_map_set_eq.
      congruence.
    + apply String.eqb_neq in E. rewrite map_get_map_set_ne by congruence.
      intros Hget. apply IH. rewrite Hd. apply map_get_suffix; [|exact Hget].
      now rewrite <- Hd.
Qed.

(** X2. A cache hit never returns the bytes of another key or of an
    older download: in the cache built by any sequence of
    [cacheSegment] calls, the entry found under a key is the one written
    by the last call on that key. *)
Theorem X2_hit_returns_last_put :
  forall calls key e,
    Proxy.map_get key (Proxy.segmentCache (Proxy.puts calls Proxy.empty_cache))
    = Some e ->
    last_put key calls = Some e.
Proof. exact map_get_puts_last_put. Qed.

Lemma X2_hit_returns_last_put_witness :
  last_put "a" [(0, "a", [x00; x01]); (3, "b", [x07]); (5, "a", [x02])]
  = Some {| Proxy.data := [x02]; Proxy.timestamp := 5 |}.
Proof.
  apply (X2_hit_returns_last_put
           [(0, "a", [x00; x01]); (3, "b", [x07]); (5, "a", [x02])] "a").
  reflexivity.
Defined.

(** The keys of the entries, oldest first. *)
Lemma keys_map_set key e m :
  List.map fst (Proxy.map_set key e m)
  = if has_key key m then List.map fst m else (List.map fst m ++ [key])%list.
Proof.
  unfold has_key.
  induction m as [|[k e'] m IH]; cbn [Proxy.map_set Proxy.map_get List.map];
    [reflexivity|].
  destruct (String.eqb k key) eqn:E; [reflexivity|].
  cbn [List.map fst]. rewrite IH.
  now destruct (Proxy.map_get key m).
Qed.

(** X3. Eviction is by order of first insertion, not by recency of use
    or of refresh: [cacheSegment] drops entries from the front of the
    insertion order only, and a key that is still present after the
    eviction keeps its place in that order when its entry is replaced;
    only a key that is not present is appended at the end. *)
Theorem X3_eviction_order_is_insertion_order :
  forall now key buf c,
    exists dropped kept,
      List.map fst (Proxy.segmentCache c) = (dropped ++ List.map fst kept)%list /\
      List.map fst (Proxy.segmentCache (Proxy.cacheSegment now key buf c))
      = if has_key key kept
        then List.map fst kept
        else (List.map fst kept ++ [key])%list.
Proof.
  intros now key buf c. unfold Proxy.cacheSegment.
  destruct (evict_suffix (Proxy.byteLength buf) (Proxy.segmentCache c)
              (Proxy.currentCacheSize c)) as [dropped Hd].
  destruct (Proxy.evict _ _ _) as [m' size']. cbn [fst] in Hd.
  exists (List.map fst dropped), m'. split.
  - now rewrite Hd at 1; rewrite List.map_app.
  - cbn [Proxy.segmentCache]. apply keys_map_set.
Qed.

(** X4. As long as the counter leaves room for the new segment, nothing
    is evicted: the entries of all other keys stay as they are. *)
Theorem X4_no_eviction_while_room :
  forall now key buf c key',
    Proxy.currentCacheSize c + Proxy.byteLength buf <= Proxy.CACHE_MAX_SIZE ->
    key' <> key ->
    Proxy.map_get key' (Proxy.segmentCache (Proxy.cacheSegment now key buf c))
    = Proxy.map_get key' (Proxy.segmentCache c).
Proof.
  intros now key buf c key' Hroom Hne. unfold Proxy.cacheSegment.
  rewrite evict_no_pressure by exact Hroom. cbn [Proxy.segmentCache].
  now apply map_get_map_set_ne.
Qed.

Lemma X4_no_eviction_while_room_witness :
  let c := Proxy.cacheSegment 0 "a" [x00; x01] Proxy.empty_cache in
  Proxy.map_get "a" (Proxy.segmentCache (Proxy.cacheSegment 5 "b" [x02] c))
  = Proxy.map_get "a" (Proxy.segmentCache c).
Proof.
  intros c. apply X4_no_eviction_while_room.
  - vm_compute. discriminate.
  - discriminate.
Defined.

(** X5. Starting from the empty cache, the counter is never below the
    bytes actually stored, and as long as no single segment is larger
    than the ceiling, the bytes stored never exceed the ceiling. *)
Theorem X5_resident_bytes_bounded_for_fitting_segments :
  forall calls,
    let c := Proxy.puts calls Proxy.empty_cache in
    Proxy.resident_bytes (Proxy.segmentCache c) <= Proxy.currentCacheSize c /\
    (Forall (fun call => Proxy.byteLength (snd call) <= Proxy.CACHE_MAX_SIZE)
       calls ->
     Proxy.resident_bytes (Proxy.segmentCache c) <= Proxy.CACHE_MAX_SIZE).
Proof.
  intros calls c. split.
  - unfold c. induction calls as [|call calls IH] using rev_ind.
    + cbn. lia.
    + rewrite puts_snoc. now apply cacheSegment_counter_covers.
  - intros Hfit. apply puts_fitting_segments; [exact Hfit | cbn; lia | cbn].
    unfold Proxy.CACHE_MAX_SIZE. lia.
Qed.

Lemma X5_resident_bytes_bounded_for_fitting_segments_witness :
  let c := Proxy.puts [(0, "a", [x00; x01]); (5, "a", [x02])] Proxy.empty_cache in
  Proxy.resident_bytes (Proxy.segmentCache c) <= Proxy.currentCacheSize c /\
  Proxy.resident_bytes (Proxy.segmentCache c) <= Proxy.CACHE_MAX_SIZE.
Proof.
  intros c.
  destruct (X5_resident_bytes_bounded_for_fitting_segments
              [(0, "a", [x00; x01]); (5, "a", [x02])]) as [Hcounter Hbound].
  split; [exact Hcounter|]. apply Hbound.
  repeat constructor; vm_compute; discriminate.
Defined.

Lemma distinct_puts_snoc calls now k buf :
  distinct_puts (calls ++ [(now, k, buf)])%list = true ->
  distinct_puts calls = true /\ last_put k calls = None.
Proof.
  induction calls as [|[[now' k'] buf'] calls IH]; cbn [app distinct_puts last_put].
  - intros _. now split.
  - intros H. apply andb_prop in H as [Hk' H].
    destruct (IH H) as [Hd Hl]. rewrite Hl.
    apply negb_true_iff in Hk'. rewrite existsb_app in Hk'.
    apply orb_false_iff in Hk' as [Hk' Hkk]. cbn in Hkk.
    rewrite orb_false_r in Hkk. rewrite String.eqb_sym, Hkk.
    split; [|reflexivity]. now rewrite Hk', Hd.
Qed.

Lemma map_get_evicted_none len m size key :
  keys_unique m = true ->
  Proxy.map_get key m = None ->
  Proxy.map_get key (fst (Proxy.evict len m size)) = None.
Proof.
  intros Hu Hnone. destruct (evict_suffix len m size) as [dropped Hd].
  destruct (Proxy.map_get key (fst (Proxy.evict len m size))) as [e|] eqn:E;
    [|reflexivity].
  rewrite Hd in Hu. pose proof (map_get_suffix key dropped _ e Hu E) as Hget.
  rewrite <- Hd in Hget. congruence.
Qed.

(** X6. The size counter is exact as long as every key is cached only
    once: after any sequence of [cacheSegment] calls on pairwise
    distinct keys, starting from the empty cache, [currentCacheSize]
    equals the number of bytes stored, evictions included. *)
Theorem X6_counter_exact_for_distinct_keys :
  forall calls,
    distinct_puts calls = true ->
    let c := Proxy.puts calls Proxy.empty_cache in
    Proxy.currentCacheSize c = Proxy.resident_bytes (Proxy.segmentCache c).
Proof.
  induction calls as [|[[now k] buf] calls IH] using rev_ind; intros Hd c.
  - reflexivity.
  - unfold c. rewrite puts_snoc. cbn [fst snd].
    apply distinct_puts_snoc in Hd as [Hd Hlast].
    apply cacheSegment_new_key_exact; [now apply IH|].
    apply map_get_evicted_none; [apply puts_keys_unique|].
    destruct (Proxy.map_get k _) as [e|] eqn:E; [|reflexivity].
    apply map_get_puts_last_put in E. congruence.
Qed.

Lemma X6_counter_exact_for_distinct_keys_witness :
  let c := Proxy.puts [(0, "a", [x00; x01]); (3, "b", [x07])] Proxy.empty_cache in
  Proxy.currentCacheSize c = Proxy.resident_bytes (Proxy.segmentCache c).
Proof. apply X6_counter_exact_for_distinct_keys. reflexivity. Defined.

(** ** URL cipher: what [decryptUrl] accepts and refuses *)

Lemma split_with_tail (a b c junk : string) :
  free_of ":" a = true -> free_of ":" b = true -> free_of ":" c = true ->
  Str.split ":" (ciphertext a b c ++ ":" ++ junk)
  = a :: b :: c :: Str.split ":" junk.
Proof.
  intros Ha Hb Hc. unfold Str.split, ciphertext.
  rewrite !append_assoc.
  change (a ++ ":" ++ b ++ ":" ++ c ++ ":" ++ junk)
    with (a ++ String ":" (b ++ String ":" (c ++ String ":" junk))).
  rewrite (split_aux_app _ _ _ _ Ha), (split_aux_app _ _ _ _ Hb),
    (split_aux_app _ _ _ _ Hc).
  reflexivity.
Qed.

(** X7. A text with fewer than three colon-separated fields is not a
    ciphertext: on a text without colon (the empty text included) and on
    a text with one colon, [decryptUrl] throws the tamper error, whatever
    the cipher. *)
Theorem X7_too_few_fields_rejected (C : Crypto) (cfg : TokenConfig) :
  forall a b,
    free_of ":" a = true -> free_of ":" b = true ->
    Auth.decryptUrl C cfg a = Throw Auth.tamper_message /\
    Auth.decryptUrl C cfg (a ++ ":" ++ b) = Throw Auth.tamper_message.
Proof.
  intros a b Ha Hb. unfold Auth.decryptUrl, Str.split. split.
  - now rewrite (split_aux_free _ _ _ Ha).
  - change (a ++ ":" ++ b) with (a ++ String ":" b).
    now rewrite (split_aux_app _ _ _ _ Ha), (split_aux_free _ _ _ Hb).
Qed.

Lemma X7_too_few_fields_rejected_witness :
  Auth.decryptUrl Toy.crypto fallbackConfig EmptyString
  = Throw Auth.tamper_message /\
  Auth.decryptUrl Toy.crypto fallbackConfig ("0707" ++ ":" ++ "d900")
  = Throw Auth.tamper_message.
Proof.
  split.
  - apply (X7_too_few_fields_rejected Toy.crypto fallbackConfig
             EmptyString EmptyString); reflexivity.
  - apply (X7_too_few_fields_rejected Toy.crypto fallbackConfig "0707" "d900");
      reflexivity.
Defined.

(** X8. [decryptUrl] reads the first three fields only: whatever follows
    a further colon after a ciphertext is ignored, so a ciphertext of
    [encryptUrl] with [:junk] appended still decrypts to the URL. *)
Theorem X8_fields_after_the_third_ignored (C : Crypto) (cfg : TokenConfig) :
  (forall a b c junk,
      free_of ":" a = true -> free_of ":" b = true -> free_of ":" c = true ->
      Auth.decryptUrl C cfg (ciphertext a b c ++ ":" ++ junk)
      = Auth.decryptUrl C cfg (ciphertext a b c)) /\
  (gcm_correct C ->
   forall iv u junk,
     Auth.decryptUrl C cfg (Auth.encryptUrl C cfg iv u ++ ":" ++ junk)
     = Return u).
Proof.
  assert (Hgen : forall a b c junk,
             free_of ":" a = true -> free_of ":" b = true ->
             free_of ":" c = true ->
             Auth.decryptUrl C cfg (ciphertext a b c ++ ":" ++ junk)
             = Auth.decryptUrl C cfg (ciphertext a b c)).
  { intros a b c junk Ha Hb Hc. unfold Auth.decryptUrl.
    now rewrite split_with_tail, split_ciphertext. }
  split; [exact Hgen|].
  intros Hgcm iv u junk. rewrite encryptUrl_ciphertext. cbv zeta.
  rewrite Hgen by apply to_hex_free_of_colon.
  rewrite <- (decryptUrl_encryptUrl C cfg iv u Hgcm).
  now rewrite encryptUrl_ciphertext.
Qed.

Lemma X8_fields_after_the_third_ignored_witness :
  Auth.decryptUrl Toy.crypto fallbackConfig
    (Auth.encryptUrl Toy.crypto fallbackConfig (repeat x07 16)
       "https://o.example/a.m3u8" ++ ":" ++ "anything:else")
  = Return "https://o.example/a.m3u8".
Proof.
  apply (proj2 (X8_fields_after_the_third_ignored Toy.crypto fallbackConfig)
           toy_correct).
Defined.

(** X9. The hexadecimal fields are read in either letter case: in a
    ciphertext of [encryptUrl], a digit of the tag or data field written
    as another character of the same value (the upper-case form of a
    letter) changes nothing, and [decryptUrl] returns the URL. *)
Theorem X9_digit_case_ignored (C : Crypto) (cfg : TokenConfig) :
  gcm_correct C ->
  forall iv u data tag,
    gcm_encrypt C (scryptSync C (secret (jwt cfg)) "salt" 32) iv
      (list_byte_of_string u) = (data, tag) ->
    forall pre d post d',
      Hex.unhex d' = Hex.unhex d ->
      (Hex.to_hex tag = pre ++ String d post ->
       Auth.decryptUrl C cfg
         (ciphertext (Hex.to_hex iv) (pre ++ String d' post) (Hex.to_hex data))
       = Return u) /\
      (Hex.to_hex data = pre ++ String d post ->
       Auth.decryptUrl C cfg
         (ciphertext (Hex.to_hex iv) (Hex.to_hex tag) (pre ++ String d' post))
       = Return u).
Proof. exact (same_value_digit_accepted C cfg). Qed.

Lemma X9_digit_case_ignored_witness :
  Auth.decryptUrl Toy.crypto fallbackConfig
    (ciphertext (Hex.to_hex (repeat x07 16))
       (EmptyString ++ String "D" "9000000000000000000000000000000")
       "f2fefefafdc4b9b9f9b8ef02ebf7faf6efb9ebb8f7bdffc2")
  = Return "https://o.example/a.m3u8".
Proof.
  refine (proj1 (X9_digit_case_ignored Toy.crypto fallbackConfig toy_correct
                   (repeat x07 16) "https://o.example/a.m3u8" _ _ eq_refl
                   EmptyString "d"%char "9000000000000000000000000000000"
                   "D"%char eq_refl) eq_refl).
Defined.

(** X10. The nonce is part of the ciphertext: two calls of [encryptUrl]
    that draw different nonces return different texts, for any URLs and
    any cipher, so that a URL encrypted twice gives two ciphertexts. *)
Theorem X10_distinct_nonces_distinct_ciphertexts (C : Crypto) (cfg : TokenConfig) :
  forall iv iv' u u',
    iv <> iv' ->
    Auth.encryptUrl C cfg iv u <> Auth.encryptUrl C cfg iv' u'.
Proof.
  intros iv iv' u u' Hne Heq. rewrite !encryptUrl_ciphertext in Heq.
  cbv zeta in Heq. apply (f_equal (Str.split ":")) in Heq.
  rewrite !split_ciphertext in Heq by apply to_hex_free_of_colon.
  injection Heq as Hiv _ _. apply Hne.
  rewrite <- (from_hex_to_hex iv), Hiv. apply from_hex_to_hex.
Qed.

Lemma X10_distinct_nonces_distinct_ciphertexts_witness :
  Auth.encryptUrl Toy.crypto fallbackConfig (repeat x07 16) "https://o.example/a.m3u8"
  <> Auth.encryptUrl Toy.crypto fallbackConfig (repeat x2a 16) "https://o.example/a.m3u8".
Proof.
  apply X10_distinct_nonces_distinct_ciphertexts. discriminate.
Defined.

(** ** Token service: what makes a token valid *)

Section MoreAuthProperties.

Variable C : Crypto.
Variable cfg : TokenConfig.
Variable ts : Jwt.Timespan.

Lemma verify_passes_iff now tok :
  jwt_verify cfg now tok = Return tok <->
  Jwt.signedWith tok = secret (jwt cfg) /\ unexpired now tok /\
  Jwt.aud tok = audience (jwt cfg) /\ Jwt.iss tok = issuer (jwt cfg).
Proof.
  unfold jwt_verify, Jwt.verify, unexpired.
  destruct (String.eqb_spec (Jwt.signedWith tok) (secret (jwt cfg)));
    cbn [negb]; [|split; [discriminate|tauto]].
  destruct (Z.leb_spec (Jwt.exp tok) (now / 1000));
    [split; [discriminate|intros (_ & ? & _); lia]|].
  destruct (String.eqb_spec (Jwt.aud tok) (audience (jwt cfg)));
    cbn [negb]; [|split; [discriminate|tauto]].
  destruct (String.eqb_spec (Jwt.iss tok) (issuer (jwt cfg)));
    cbn [negb]; [|split; [discriminate|tauto]].
  tauto.
Qed.

Lemma verify_fails_or_returns now tok :
  jwt_verify cfg now tok = Return tok \/
  exists msg, jwt_verify cfg now tok = Throw msg.
Proof.
  unfold jwt_verify, Jwt.verify.
  repeat match goal with
         | |- context [if ?b then _ else _] => destruct b
         end; eauto.
Qed.

(** X11. [validateToken] accepts a token exactly when its signature was
    made with the configured secret, it has not expired, its audience
    and issuer are the configured ones, and the registry holds a record
    for its stream that is active and carries the token's identifier.
    It then returns the token and that record; otherwise it returns an
    error message and neither of them. *)
Theorem X11_validateToken_accepts_iff :
  forall now tok st,
    (Auth.valid (Auth.validateToken cfg now tok st) = true <->
     Jwt.signedWith tok = secret (jwt cfg) /\ unexpired now tok /\
     Jwt.aud tok = audience (jwt cfg) /\ Jwt.iss tok = issuer (jwt cfg) /\
     exists d, Auth.activeStreams st !! Jwt.streamId tok = Some d /\
               Auth.isActive d = true /\ Auth.tokenJti d = Jwt.jti tok) /\
    (Auth.valid (Auth.validateToken cfg now tok st) = true ->
     Auth.validateToken cfg now tok st
     = {| Auth.valid := true; Auth.decoded := Some tok;
          Auth.streamData := Auth.activeStreams st !! Jwt.streamId tok;
          Auth.error := None |}) /\
    (Auth.valid (Auth.validateToken cfg now tok st) = false ->
     exists msg, Auth.validateToken cfg now tok st = Auth.invalid msg).
Proof.
  intros now tok st. unfold Auth.validateToken.
  fold (jwt_verify cfg now tok).
  pose proof (verify_passes_iff now tok) as Hv.
  destruct (verify_fails_or_returns now tok) as [Hok|[msg Hbad]].
  - rewrite Hok. destruct (proj1 Hv Hok) as (Hs & He & Ha & Hi).
    destruct (Auth.activeStreams st !! Jwt.streamId tok) as [d|] eqn:Ed.
    + destruct (Auth.isActive d) eqn:Hact; cbn [negb].
      * destruct (String.eqb_spec (Jwt.jti tok) (Auth.tokenJti d)) as [Hj|Hj];
          cbn [negb Auth.valid Auth.invalid].
        -- split; [|split; [reflexivity | discriminate]].
           split; [|reflexivity]. intros _. repeat (split; [assumption|]).
           exists d. auto.
        -- split; [|split; [discriminate | eauto]].
           split; [discriminate|]. intros (_ & _ & _ & _ & d' & [= <-] & _ & Hj').
           congruence.
      * cbn [Auth.valid Auth.invalid].
        split; [|split; [discriminate | eauto]].
        split; [discriminate|]. intros (_ & _ & _ & _ & d' & [= <-] & Hact' & _).
        congruence.
    + cbn [Auth.valid Auth.invalid].
      split; [|split; [discriminate | eauto]].
      split; [discriminate|]. intros (_ & _ & _ & _ & d' & Hd' & _). discriminate.
  - rewrite Hbad. cbn [Auth.valid Auth.invalid].
    split; [|split; [discriminate | eauto]].
    split; [discriminate|]. intros (Hs & He & Ha & Hi & _).
    assert (Hok : jwt_verify cfg now tok = Return tok) by (apply Hv; auto).
    congruence.
Qed.

(** X12. A token is valid from its issue until its expiry and not after.
    For an expiry of up to 10^12 minutes (the payload's, or the
    configured default when none or zero is requested), on a clock that
    [Date.now()] returns, [generateToken] returns a token whose expiry
    is the second of issue plus the minutes; in the store that the call
    leaves, whatever the store was before, the token validates exactly
    at the times at which it has not expired, and once expired it fails
    with "jwt expired".  For an expiry of 10^21 minutes or more,
    [generateToken] throws "Failed to generate access token" and leaves
    the registry as it was.  (The library's time span is assumed exact
    in the first range, and not read in the second:
    [Jwt.timespan_exact], [Jwt.timespan_unparsed].) *)
Theorem X12_issued_token_valid_until_expiry :
  forall now rawId iv jwtid payload st,
    (Jwt.timespan_exact ts ->
     clock now ->
     Z.abs (expiry_minutes cfg payload) <= 10 ^ 12 ->
     exists g st',
       Auth.generateToken C cfg ts now rawId iv jwtid payload st
       = (Return g, st') /\
       Jwt.exp (Auth.token g) = now / 1000 + expiry_minutes cfg payload * 60 /\
       forall t,
         (Auth.valid (Auth.validateToken cfg t (Auth.token g) st') = true
          <-> unexpired t (Auth.token g)) /\
         (~ unexpired t (Auth.token g) ->
          Auth.validateToken cfg t (Auth.token g) st'
          = Auth.invalid "jwt expired")) /\
    (Jwt.timespan_unparsed ts ->
     10 ^ 21 <= Z.abs (expiry_minutes cfg payload) ->
     Auth.generateToken C cfg ts now rawId iv jwtid payload st
     = (Throw "Failed to generate access token", st)).
Proof.
  intros now rawId iv jwtid payload st.
  pose proof (generateToken_cases C cfg ts now rawId iv jwtid payload st) as Hcases.
  cbv zeta in Hcases. split.
  - intros Hts [Hnow0 Hnow1] Hm. unfold MAX_TIME in Hnow1.
    pose proof (Z.mul_div_le now 1000 ltac:(lia)).
    pose proof (Z.div_pos now 1000 ltac:(lia) ltac:(lia)).
    rewrite (Hts (expiry_minutes cfg payload) (now / 1000)) in Hcases by lia.
    eexists _, _. split; [exact Hcases|]. split; [reflexivity|].
    intros t. exact (validateToken_fresh C cfg ts _ _ _ _ _ _ _ _ t Hcases).
  - intros Hts Hm. now rewrite (Hts _ _ Hm) in Hcases.
Qed.

Lemma same_verdict_by_record now tok st st' :
  (match Auth.activeStreams st !! Jwt.streamId tok,
         Auth.activeStreams st' !! Jwt.streamId tok with
   | Some d, Some d' =>
       Auth.isActive d = Auth.isActive d' /\ Auth.tokenJti d = Auth.tokenJti d'
   | None, None => True
   | _, _ => False
   end) ->
  same_verdict (Auth.validateToken cfg now tok st)
               (Auth.validateToken cfg now tok st').
Proof.
  intros Hrec. unfold same_verdict, Auth.validateToken.
  destruct (Jwt.verify _ _ _ _ _) as [tok'|msg] eqn:Ev; [|split; reflexivity].
  assert (tok' = tok) by (eapply verify_returns_token; exact Ev). subst tok'.
  destruct (Auth.activeStreams st !! Jwt.streamId tok) as [d|],
           (Auth.activeStreams st' !! Jwt.streamId tok) as [d'|];
    try contradiction; [|split; reflexivity].
  destruct Hrec as [-> ->].
  destruct (Auth.isActive d'); cbn [negb]; [|split; reflexivity].
  destruct (String.eqb _ _); split; reflexivity.
Qed.

Lemma validateToken_by_record now tok st st' :
  Auth.activeStreams st' !! Jwt.streamId tok
  = Auth.activeStreams st !! Jwt.streamId tok ->
  Auth.validateToken cfg now tok st' = Auth.validateToken cfg now tok st.
Proof.
  intros Hrec. unfold Auth.validateToken.
  destruct (Jwt.verify _ _ _ _ _) as [tok'|msg] eqn:Ev; [|reflexivity].
  assert (tok' = tok) by (eapply verify_returns_token; exact Ev). subst tok'.
  now rewrite Hrec.
Qed.

Lemma lookup_removeViewer_eq sessionId st id :
  Auth.activeStreams (Auth.removeViewer sessionId st) !! id =
  match Auth.viewerSessions st !! sessionId with
  | Some session =>
      match Auth.activeStreams st !! Auth.sessionStreamId session with
      | Some d =>
          if decide (Auth.sessionStreamId session = id)
          then Some (Auth.set_viewerCount (Z.max 0 (Auth.viewerCount d - 1)) d)
          else Auth.activeStreams st !! id
      | None => Auth.activeStreams st !! id
      end
  | None => Auth.activeStreams st !! id
  end.
Proof.
  unfold Auth.removeViewer.
  destruct (Auth.viewerSessions st !! sessionId) as [session|]; [|reflexivity].
  cbn [Auth.activeStreams].
  destruct (Auth.activeStreams st !! Auth.sessionStreamId session) as [d|];
    [|reflexivity].
  apply lookup_insert.
Qed.

(** X13. Streams are independent, and viewers do not affect tokens:
    stopping a stream or issuing a token for it leaves the result of
    [validateToken] on the tokens of every other stream unchanged, and a
    viewer joining or leaving never changes whether a token is valid or
    which error it gets. *)
Theorem X13_validation_unaffected_by_other_streams_and_viewers :
  forall t tok st,
    (forall now newJti sid,
        sid <> Jwt.streamId tok ->
        Auth.validateToken cfg t tok (snd (Auth.stopStream now newJti sid st))
        = Auth.validateToken cfg t tok st) /\
    (forall now rawId iv jwtid payload,
        stream_id_of C cfg rawId payload <> Jwt.streamId tok ->
        Auth.validateToken cfg t tok
          (snd (Auth.generateToken C cfg ts now rawId iv jwtid payload st))
        = Auth.validateToken cfg t tok st) /\
    (forall now sid sessionId fresh session st',
        Auth.registerViewer now sid sessionId fresh st = Return (session, st') ->
        same_verdict (Auth.validateToken cfg t tok st')
                     (Auth.validateToken cfg t tok st)) /\
    (forall sessionId,
        same_verdict (Auth.validateToken cfg t tok (Auth.removeViewer sessionId st))
                     (Auth.validateToken cfg t tok st)).
Proof.
  intros t tok st. split; [|split; [|split]].
  - intros now newJti sid Hne. apply validateToken_by_record.
    rewrite lookup_stopStream.
    destruct (Auth.activeStreams st !! sid); [|reflexivity].
    destruct (decide _); [congruence | reflexivity].
  - intros now rawId iv jwtid payload Hne. apply validateToken_by_record.
    rewrite lookup_generateToken.
    destruct (fst (Auth.generateToken C cfg ts now rawId iv jwtid payload st))
      as [g|msg] eqn:Hg; [|reflexivity].
    destruct (generated_token C cfg ts _ _ _ _ _ _ _ Hg) as (_ & Hsid & _).
    destruct (decide _); [congruence | reflexivity].
  - intros now sid sessionId fresh session st' Hr.
    apply same_verdict_by_record.
    destruct (lookup_registerViewer _ _ _ _ _ _ _ (Jwt.streamId tok) Hr)
      as (d & Ed & _ & ->).
    destruct (decide _) as [<-|].
    + rewrite Ed. split; reflexivity.
    + destruct (Auth.activeStreams st !! Jwt.streamId tok); auto.
  - intros sessionId. apply same_verdict_by_record.
    rewrite lookup_removeViewer_eq.
    destruct (Auth.viewerSessions st !! sessionId) as [session|].
    2:{ destruct (Auth.activeStreams st !! Jwt.streamId tok); auto. }
    destruct (Auth.activeStreams st !! Auth.sessionStreamId session) as [d|] eqn:Ed.
    2:{ destruct (Auth.activeStreams st !! Jwt.streamId tok); auto. }
    destruct (decide _) as [<-|].
    + rewrite Ed. split; reflexivity.
    + destruct (Auth.activeStreams st !! Jwt.streamId tok); auto.
Qed.

End MoreAuthProperties.

(** ** Stream registry: stops, viewers and the reaper *)

Lemma set_viewerCount_same (d : Auth.StreamData) :
  Auth.set_viewerCount (Auth.viewerCount d) d = d.
Proof. now destruct d. Qed.

Lemma set_viewerCount_twice (n m : Z) (d : Auth.StreamData) :
  Auth.set_viewerCount n (Auth.set_viewerCount m d) = Auth.set_viewerCount n d.
Proof. reflexivity. Qed.

(** X14. A second stop absorbs the first: stopping a stream that was
    already stopped succeeds again and leaves exactly the store, and the
    answer, of a single stop made with the second call's time and
    identifier; on a stream that the registry does not hold, [stopStream]
    answers "Stream not found" and changes nothing. *)
Theorem X14_stop_twice_is_stop_once :
  forall now1 jti1 now2 jti2 sid st,
    Auth.stopStream now2 jti2 sid (snd (Auth.stopStream now1 jti1 sid st))
    = Auth.stopStream now2 jti2 sid st /\
    (Auth.activeStreams st !! sid = None ->
     Auth.stopStream now1 jti1 sid st
     = ({| Auth.success := false; Auth.message := "Stream not found" |}, st)) /\
    (Auth.success (fst (Auth.stopStream now1 jti1 sid st)) = true <->
     is_Some (Auth.activeStreams st !! sid)).
Proof.
  intros now1 jti1 now2 jti2 sid st. split; [|split].
  - unfold Auth.stopStream at 2 3.
    destruct (Auth.activeStreams st !! sid) as [d|] eqn:Ed.
    + cbn [snd]. unfold Auth.stopStream. cbn [Auth.activeStreams Auth.viewerSessions].
      rewrite lookup_insert_eq. cbn. now rewrite insert_insert_eq.
    + cbn [snd]. unfold Auth.stopStream. now rewrite Ed.
  - intros Ed. unfold Auth.stopStream. now rewrite Ed.
  - unfold Auth.stopStream.
    destruct (Auth.activeStreams st !! sid) as [d|]; cbn.
    + split; [eauto | reflexivity].
    + split; [discriminate | intros [? ?]; discriminate].
Qed.

(** X15. A viewer who joins and leaves is forgotten: on a record whose
    count is not negative, a [registerViewer] call whose session
    identifier (given, or drawn) is not in use, followed by
    [removeViewer] of the session it returned, gives back exactly the
    store from before. *)
Theorem X15_join_then_leave_restores_store :
  forall now sid sessionId fresh st d session st',
    Auth.activeStreams st !! sid = Some d ->
    0 <= Auth.viewerCount d ->
    Auth.registerViewer now sid sessionId fresh st = Return (session, st') ->
    Auth.viewerSessions st !! Auth.sessionId session = None ->
    Auth.removeViewer (Auth.sessionId session) st' = st.
Proof.
  intros now sid sessionId fresh st d session st' Ed Hpos.
  unfold Auth.registerViewer. rewrite Ed.
  destruct (Auth.maxViewers d <=? Auth.viewerCount d)%Z; [discriminate|].
  intros [= <- <-]. cbn [Auth.sessionId]. intros Hfree.
  unfold Auth.removeViewer.
  cbn [Auth.viewerSessions Auth.activeStreams Auth.sessionStreamId].
  rewrite !lookup_insert_eq. cbn [Auth.sessionStreamId].
  rewrite ?lookup_insert_eq.
  rewrite insert_insert_eq, delete_insert_eq, (delete_id _ _ Hfree).
  rewrite set_viewerCount_twice.
  replace (Z.max 0 (Auth.viewerCount (Auth.set_viewerCount
                                         (Auth.viewerCount d + 1) d) - 1))
    with (Auth.viewerCount d) by (cbn; lia).
  rewrite set_viewerCount_same, (insert_id _ _ _ Ed). now destruct st.
Qed.

(** X16. A session identifier is counted each time it joins but can
    leave only once: when the same identifier joins a stream twice, the
    count goes up by two while one session is stored, and after the
    session has left the count stays one above what it was, with no
    session left to remove. *)
Theorem X16_same_session_joining_twice_is_counted_twice :
  forall now1 now2 fresh1 fresh2 sid s st d,
    Auth.activeStreams st !! sid = Some d ->
    0 <= Auth.viewerCount d ->
    Auth.viewerCount d + 2 <= Auth.maxViewers d ->
    exists session1 st1 session2 st2,
      Auth.registerViewer now1 sid (Some s) fresh1 st = Return (session1, st1) /\
      Auth.registerViewer now2 sid (Some s) fresh2 st1 = Return (session2, st2) /\
      Auth.activeStreams st2 !! sid
      = Some (Auth.set_viewerCount (Auth.viewerCount d + 2) d) /\
      Auth.activeStreams (Auth.removeViewer s st2) !! sid
      = Some (Auth.set_viewerCount (Auth.viewerCount d + 1) d) /\
      Auth.viewerSessions (Auth.removeViewer s st2) !! s = None /\
      Auth.removeViewer s (Auth.removeViewer s st2) = Auth.removeViewer s st2.
Proof.
  intros now1 now2 fresh1 fresh2 sid s st d Ed Hpos Hroom.
  destruct (registerViewer_admits now1 sid (Some s) fresh1 st d Ed ltac:(lia))
    as (session1 & st1 & Hr1 & _ & Ed1).
  destruct (registerViewer_admits now2 sid (Some s) fresh2 st1 _ Ed1
              ltac:(cbn; lia)) as (session2 & st2 & Hr2 & Hs2 & Ed2).
  exists session1, st1, session2, st2.
  split; [exact Hr1|]. split; [exact Hr2|].
  assert (Hsess : Auth.viewerSessions st2 !! s = Some session2).
  { revert Hr2. unfold Auth.registerViewer. rewrite Ed1.
    destruct (_ <=? _)%Z; [discriminate|]. intros [= <- <-]. cbn.
    apply lookup_insert_eq. }
  assert (Hgone : Auth.viewerSessions (Auth.removeViewer s st2) !! s = None).
  { unfold Auth.removeViewer. rewrite Hsess. cbn. apply lookup_delete_eq. }
  split; [|split; [|split]].
  - rewrite Ed2. cbn. unfold Auth.set_viewerCount. cbn. do 2 f_equal. lia.
  - rewrite lookup_removeViewer_eq, Hsess, Hs2, Ed2.
    destruct (decide (sid = sid)); [|congruence].
    unfold Auth.set_viewerCount. cbn. do 2 f_equal. lia.
  - exact Hgone.
  - unfold Auth.removeViewer at 1. now rewrite Hgone.
Qed.

(** X17. [removeViewer] on a session identifier that is not registered
    changes nothing, and removing a session a second time changes
    nothing either. *)
Theorem X17_removeViewer_unknown_session_is_noop :
  forall s st,
    (Auth.viewerSessions st !! s = None -> Auth.removeViewer s st = st) /\
    Auth.removeViewer s (Auth.removeViewer s st) = Auth.removeViewer s st.
Proof.
  intros s st.
  assert (Hnoop : forall st0, Auth.viewerSessions st0 !! s = None ->
                              Auth.removeViewer s st0 = st0).
  { intros st0 Hnone. unfold Auth.removeViewer. now rewrite Hnone. }
  split; [apply Hnoop|]. apply Hnoop.
  unfold Auth.removeViewer.
  destruct (Auth.viewerSessions st !! s) as [session|] eqn:Es; [|exact Es].
  cbn. apply lookup_delete_eq.
Qed.

Section SessionInvariant.

Variable C : Crypto.
Variable cfg : TokenConfig.
Variable ts : Jwt.Timespan.

Lemma step_sessions_have_streams c st :
  sessions_have_streams st -> sessions_have_streams (Auth.step C cfg ts c st).
Proof.
  intros Hinv. destruct c as
    [now rawId iv jwtid payload | now tok | now sid sessionId fresh
    | sessionId | now newJti sid | now sid | now]; cbn [Auth.step];
    try exact Hinv.
  - intros s session Hs. rewrite lookup_generateToken.
    assert (Hs' : Auth.viewerSessions st !! s = Some session).
    { revert Hs.
      rewrite (generateToken_cases C cfg ts now rawId iv jwtid payload st).
      cbv zeta. destruct (ts _ _); exact (fun H => H). }
    destruct (fst (Auth.generateToken C cfg ts now rawId iv jwtid payload st))
      as [g|msg]; [|exact (Hinv s session Hs')].
    destruct (decide _); [eauto | exact (Hinv s session Hs')].
  - destruct (Auth.registerViewer now sid sessionId fresh st)
      as [[session0 st']|msg] eqn:Er; [|exact Hinv].
    intros s session Hs.
    destruct (lookup_registerViewer _ _ _ _ _ _ _
                (Auth.sessionStreamId session) Er) as (d & Ed & _ & ->).
    destruct (decide _); [eauto|].
    revert Er Hs. unfold Auth.registerViewer. rewrite Ed.
    destruct (_ <=? _)%Z; [discriminate|]. intros [= <- <-]. cbn.
    rewrite lookup_insert. destruct (decide _).
    + intros [= <-]. cbn in *. congruence.
    + apply Hinv.
  - intros s session Hs.
    assert (Hold : Auth.viewerSessions st !! s = Some session).
    { revert Hs. unfold Auth.removeViewer.
      destruct (Auth.viewerSessions st !! sessionId); [|tauto]. cbn.
      rewrite lookup_delete. destruct (decide _); [discriminate | tauto]. }
    rewrite lookup_removeViewer_eq.
    destruct (Auth.viewerSessions st !! sessionId) as [session'|];
      [|exact (Hinv s session Hold)].
    destruct (Auth.activeStreams st !! Auth.sessionStreamId session');
      [|exact (Hinv s session Hold)].
    destruct (decide _); [eauto | exact (Hinv s session Hold)].
  - intros s session Hs. cbn in Hs.
    assert (Hold : Auth.viewerSessions st !! s = Some session).
    { revert Hs. unfold Auth.stopStream.
      destruct (Auth.activeStreams st !! sid); tauto. }
    rewrite lookup_stopStream.
    destruct (Auth.activeStreams st !! sid); [|exact (Hinv s session Hold)].
    destruct (decide _); [eauto | exact (Hinv s session Hold)].
  - intros s session Hs. cbn in Hs.
    apply map_lookup_filter_Some in Hs as [Hs Hkeep]. cbn in Hkeep.
    destruct (Hinv s session Hs) as [d Ed]. rewrite Ed in Hkeep.
    exists d. apply lookup_cleanup. now split.
Qed.

(** X18. Every viewer session belongs to a stream that the registry
    holds: this is true of the empty store and no call of the module
    breaks it, the reaper included (it deletes the sessions of the
    streams it deletes). *)
Theorem X18_sessions_belong_to_held_streams :
  (forall c st, sessions_have_streams st ->
                sessions_have_streams (Auth.step C cfg ts c st)) /\
  (forall calls, sessions_have_streams (Auth.run C cfg ts calls Auth.empty_store)).
Proof.
  split; [intros c st; apply step_sessions_have_streams|].
  intros calls.
  enough (H : forall st, sessions_have_streams st ->
                         sessions_have_streams (Auth.run C cfg ts calls st)).
  { apply H. intros s session Hs. cbn in Hs. now rewrite lookup_empty in Hs. }
  induction calls as [|c calls IH]; intros st Hinv; [exact Hinv|].
  cbn. apply IH. now apply step_sessions_have_streams.
Qed.

End SessionInvariant.

Lemma cleanup_sessions_lookup now st s session :
  Auth.viewerSessions (snd (Auth.cleanupExpiredStreams now st)) !! s = Some session
  <-> Auth.viewerSessions st !! s = Some session /\
      match Auth.activeStreams st !! Auth.sessionStreamId session with
      | Some d => Auth.reaped now d
      | None => false
      end = false.
Proof. cbn. apply map_lookup_filter_Some. Qed.

(** X19. The reaper: [cleanupExpiredStreams] keeps exactly the records
    that are active and not past their expiry ([now <= expiresAt], for
    the time value of [expiresAt]; a date that is invalid is never
    past), keeps exactly the sessions whose stream it does not delete,
    returns a count between zero and the number of records, and, run
    again at the same time, deletes nothing more and returns zero. *)
Theorem X19_cleanup_reaps_once :
  forall now st,
    let st' := snd (Auth.cleanupExpiredStreams now st) in
    (forall id d,
        Auth.activeStreams st' !! id = Some d <->
        Auth.activeStreams st !! id = Some d /\
        (forall e, Auth.expiresAt d = Time e -> now <= e) /\
        Auth.isActive d = true) /\
    (forall s session,
        Auth.viewerSessions st' !! s = Some session <->
        Auth.viewerSessions st !! s = Some session /\
        Auth.activeStreams st' !! Auth.sessionStreamId session
        = Auth.activeStreams st !! Auth.sessionStreamId session) /\
    0 <= fst (Auth.cleanupExpiredStreams now st)
      <= Z.of_nat (size (Auth.activeStreams st)) /\
    Auth.cleanupExpiredStreams now st' = (0, st').
Proof.
  intros now st st'.
  assert (Hrec : forall id d,
             Auth.activeStreams st' !! id = Some d <->
             Auth.activeStreams st !! id = Some d /\
             (forall e, Auth.expiresAt d = Time e -> now <= e) /\
             Auth.isActive d = true).
  { intros id d. unfold st'. rewrite lookup_cleanup. unfold Auth.reaped.
    rewrite orb_false_iff, date_lt_false, negb_false_iff. tauto. }
  assert (Hkept : forall id d, Auth.activeStreams st' !! id = Some d ->
                               Auth.reaped now d = false).
  { intros id d Hd. unfold st' in Hd. now apply lookup_cleanup in Hd. }
  split; [exact Hrec|]. split; [|split].
  - intros s session. unfold st'. rewrite cleanup_sessions_lookup.
    fold st'. split; intros [Hs Hk]; (split; [exact Hs|]).
    + destruct (Auth.activeStreams st !! Auth.sessionStreamId session)
        as [d|] eqn:Ed.
      * apply lookup_cleanup. now split.
      * destruct (Auth.activeStreams st' !! _) as [d'|] eqn:Ed'; [|reflexivity].
        apply Hrec in Ed' as [Ed' _]. congruence.
    + destruct (Auth.activeStreams st !! Auth.sessionStreamId session)
        as [d|] eqn:Ed; [|reflexivity].
      eapply Hkept. exact Hk.
  - cbn [Auth.cleanupExpiredStreams fst].
    pose proof (map_subseteq_size _ _
                  (map_filter_subseteq
                     (fun kv : string * Auth.StreamData =>
                        Auth.reaped now (snd kv) = false)
                     (Auth.activeStreams st))).
    lia.
  - unfold Auth.cleanupExpiredStreams at 1.
    assert (Hstreams :
              filter (fun kv : string * Auth.StreamData =>
                        Auth.reaped now (snd kv) = false)
                (Auth.activeStreams st') = Auth.activeStreams st').
    { apply map_filter_id. intros id d Hd. cbn. eapply Hkept. exact Hd. }
    assert (Hsessions :
              filter (fun kv : string * Auth.Session =>
                        match Auth.activeStreams st' !! Auth.sessionStreamId (snd kv) with
                        | Some d => Auth.reaped now d
                        | None => false
                        end = false)
                (Auth.viewerSessions st') = Auth.viewerSessions st').
    { apply map_filter_id. intros s session Hs. cbn [snd].
      destruct (Auth.activeStreams st' !! Auth.sessionStreamId session)
        as [d|] eqn:Ed; [|reflexivity].
      eapply Hkept. exact Ed. }
    rewrite Hstreams, Hsessions. f_equal. lia.
Qed.

Section StopThenReap.

Variable C : Crypto.
Variable cfg : TokenConfig.
Variable ts : Jwt.Timespan.

(** X20. Once the reaper has run after a stop, the stream is gone: its
    record and its sessions are deleted, [validateToken] answers "Stream
    not found or expired" to an unexpired token issued for the stream,
    [registerViewer] throws "Stream not found" and [getStreamStats]
    returns nothing. *)
Theorem X20_stopped_stream_gone_after_cleanup :
  forall now newJti sid st d now',
    Auth.activeStreams st !! sid = Some d ->
    let st2 := snd (Auth.cleanupExpiredStreams now'
                      (snd (Auth.stopStream now newJti sid st))) in
    Auth.activeStreams st2 !! sid = None /\
    (forall s session, Auth.viewerSessions st2 !! s = Some session ->
                       Auth.sessionStreamId session <> sid) /\
    (forall tok t, issued C cfg ts tok sid -> unexpired t tok ->
                   Auth.validateToken cfg t tok st2
                   = Auth.invalid "Stream not found or expired") /\
    (forall t sessionId fresh,
        Auth.registerViewer t sid sessionId fresh st2 = Throw "Stream not found") /\
    (forall t, Auth.getStreamStats t sid st2 = None).
Proof.
  intros now newJti sid st d now' Ed st2.
  destruct (stopStream_deactivates now newJti sid st d Ed) as (d1 & Ed1 & Hoff).
  assert (Hgone : Auth.activeStreams st2 !! sid = None).
  { unfold st2. apply (cleanup_reaps now' _ sid d1 Ed1). now right. }
  split; [exact Hgone|]. split; [|split; [|split]].
  - intros s session Hs Heq. unfold st2 in Hs.
    apply cleanup_sessions_lookup in Hs as [_ Hk].
    rewrite Heq, Ed1 in Hk. unfold Auth.reaped in Hk.
    rewrite Hoff, orb_true_r in Hk. discriminate.
  - intros tok t Hissued Hexp.
    pose proof (verify_issued C cfg ts _ _ _ Hissued Hexp) as Hv.
    destruct Hissued as (_ & _ & _ & _ & _ & _ & _ & _ & _ & Hsid).
    unfold Auth.validateToken. fold (jwt_verify cfg t tok).
    now rewrite Hv, Hsid, Hgone.
  - intros t sessionId fresh. unfold Auth.registerViewer. now rewrite Hgone.
  - intros t. unfold Auth.getStreamStats. now rewrite Hgone.
Qed.

End StopThenReap.

(** ** Manifest rewriter: line by line *)

Lemma split_aux_nonempty sep cur s :
  exists x l, Str.split_aux sep cur s = x :: l.
Proof.
  revert cur. induction s as [|c s IH]; intros cur; cbn [Str.split_aux].
  - eauto.
  - destruct (Ascii.eqb c sep); [eauto | apply IH].
Qed.

Lemma join_cons sep p x l :
  Str.join sep (p :: x :: l) = p ++ sep ++ Str.join sep (x :: l).
Proof. reflexivity. Qed.

Lemma join_split_aux sep cur s :
  Str.join (String sep EmptyString) (Str.split_aux sep cur s) = cur ++ s.
Proof.
  revert cur. induction s as [|c s IH]; intros cur; cbn [Str.split_aux].
  - cbn. now rewrite append_empty_r.
  - destruct (Ascii.eqb c sep) eqn:E.
    + apply Ascii.eqb_eq in E. subst c.
      destruct (split_aux_nonempty sep EmptyString s) as (x & l & Hx).
      specialize (IH EmptyString). rewrite Hx in *.
      rewrite join_cons, IH. reflexivity.
    + rewrite IH, append_assoc. reflexivity.
Qed.

(** Joining the lines of a text gives the text back. *)
Lemma join_split sep s :
  Str.join (String sep EmptyString) (Str.split sep s) = s.
Proof. unfold Str.split. now rewrite join_split_aux. Qed.

Lemma prefix_first_char (a : ascii) (p t : string) :
  String.prefix (String a p) t = true ->
  String.prefix (String a EmptyString) t = true.
Proof.
  destruct t as [|b t]; cbn [String.prefix]; [discriminate|].
  destruct (ascii_dec a b); [|discriminate]. intros _. now destruct t.
Qed.

Section MoreRewriterProperties.

Variable C : Crypto.
Variable cfg : TokenConfig.
Variable resolve : Url.Resolver.

(** The loop body, by the class of the line. *)
Lemma rewriteLine_cases iv baseUrl proxyBaseUrl line :
  Proxy.rewriteLine C cfg resolve iv baseUrl proxyBaseUrl line =
  let t := Str.trim line in
  if is_tag_or_blank t then Return (line, false)
  else match key_uri t with
       | Some uri =>
           outcome_map (fun proxyKeyUrl => (Js.replace line uri proxyKeyUrl, true))
             (Proxy.proxied C cfg resolve iv baseUrl proxyBaseUrl "key" uri)
       | None =>
           if is_variant t
           then outcome_map (fun proxyUrl => (proxyUrl, true))
                  (Proxy.proxied C cfg resolve iv baseUrl proxyBaseUrl
                     "manifest" t)
           else if is_segment t
           then outcome_map (fun proxyUrl => (proxyUrl, true))
                  (Proxy.proxied C cfg resolve iv baseUrl proxyBaseUrl
                     "segment" t)
           else Return (line, false)
       end.
Proof.
  unfold Proxy.rewriteLine, is_tag_or_blank, key_uri, is_variant, is_segment.
  cbv zeta.
  destruct (_ || _); [reflexivity|].
  destruct (if Str.startsWith "#EXT-X-KEY" (Str.trim line)
            then Js.match_uri (Str.trim line) else None); [reflexivity|].
  destruct (Str.endsWith ".m3u8" (Str.trim line)); [reflexivity|].
  destruct (Str.endsWith ".ts" (Str.trim line) || Str.includes ".ts?" (Str.trim line));
    [reflexivity|].
  cbn [orb]. destruct (_ || _); reflexivity.
Qed.

(** A line that is pushed as it is: [url.resolve] is not called. *)
Lemma rewriteLine_untouched iv baseUrl proxyBaseUrl line :
  untouched line = true ->
  Proxy.rewriteLine C cfg resolve iv baseUrl proxyBaseUrl line
  = Return (line, false).
Proof.
  rewrite rewriteLine_cases. unfold untouched. cbv zeta.
  destruct (is_tag_or_blank (Str.trim line)); [reflexivity|].
  destruct (key_uri (Str.trim line)); [discriminate|].
  destruct (is_variant (Str.trim line)); [discriminate|].
  destruct (is_segment (Str.trim line)); [discriminate | reflexivity].
Qed.

(** The flag that the loop body returns. *)
Lemma rewriteLine_draws iv baseUrl proxyBaseUrl line out drew :
  Proxy.rewriteLine C cfg resolve iv baseUrl proxyBaseUrl line
  = Return (out, drew) ->
  drew = negb (untouched line).
Proof.
  rewrite rewriteLine_cases. unfold untouched, Proxy.proxied. cbv zeta.
  destruct (is_tag_or_blank (Str.trim line)); [now intros [= _ <-]|].
  destruct (key_uri (Str.trim line)) as [uri|].
  { destruct (resolve baseUrl uri); cbn; [now intros [= _ <-] | discriminate]. }
  destruct (is_variant (Str.trim line)).
  { destruct (resolve baseUrl _); cbn; [now intros [= _ <-] | discriminate]. }
  destruct (is_segment (Str.trim line)).
  { destruct (resolve baseUrl _); cbn; [now intros [= _ <-] | discriminate]. }
  now intros [= _ <-].
Qed.

Lemma rewriteLines_untouched rnd n baseUrl proxyBaseUrl lines :
  forallb untouched lines = true ->
  Proxy.rewriteLines C cfg resolve rnd n baseUrl proxyBaseUrl lines
  = Return lines.
Proof.
  revert n. induction lines as [|line lines IH]; intros n; [reflexivity|].
  cbn [forallb Proxy.rewriteLines]. intros H. apply andb_prop in H as [Hl H].
  rewrite (rewriteLine_untouched _ _ _ _ Hl), (IH _ H). reflexivity.
Qed.

(** X21. A playlist without reference to rewrite is returned unchanged,
    byte for byte: when every line is blank, a tag other than
    [#EXT-X-KEY], or a line that matches none of the rewritten
    extensions and carries no key URI, [rewriteManifestUrls] returns the
    playlist it was given, line ends and surrounding white space
    included.  (A line is classified after [trim], which removes the
    white space of Unicode, the byte order mark included;
    [url.resolve] is not called.) *)
Theorem X21_playlist_without_references_unchanged :
  forall rnd manifest baseUrl proxyBaseUrl encryptedBaseUrl,
    forallb untouched (Str.split Proxy.newline manifest) = true ->
    Proxy.rewriteManifestUrls C cfg resolve rnd manifest baseUrl proxyBaseUrl
      encryptedBaseUrl = Return manifest.
Proof.
  intros rnd manifest baseUrl proxyBaseUrl encryptedBaseUrl Hall.
  unfold Proxy.rewriteManifestUrls.
  rewrite rewriteLines_untouched by exact Hall. cbn [outcome_map].
  now rewrite join_split.
Qed.

(** X22. A variant or segment line is replaced by a proxy URL from which
    the proxy recovers the reference: for a line that, trimmed, is not
    blank, not a tag, and ends in [.m3u8], [.ts], [.mp4] or [.m4s] or
    contains [.ts?], the output line is
    [<proxyBase>/manifest?url=<parameter>] ([.m3u8]) or
    [<proxyBase>/segment?url=<parameter>] (the others); decoding the
    parameter gives a ciphertext that [decryptUrl] turns into what
    [url.resolve] returned for the base URL and the trimmed line.  When
    [url.resolve] throws on them, so does the loop body.  The cipher is
    assumed correct. *)
Theorem X22_reference_line_recoverable :
  gcm_correct C ->
  forall iv baseUrl proxyBaseUrl line,
    let t := Str.trim line in
    is_tag_or_blank t = false ->
    Str.startsWith "#" t = false ->
    is_variant t || is_segment t = true ->
    (forall absoluteUrl,
        resolve baseUrl t = Return absoluteUrl ->
        let encrypted := Auth.encryptUrl C cfg iv absoluteUrl in
        Proxy.rewriteLine C cfg resolve iv baseUrl proxyBaseUrl line
        = Return (proxyBaseUrl ++ "/"
                    ++ (if is_variant t then "manifest" else "segment")
                    ++ "?url=" ++ Js.encodeURIComponent encrypted, true) /\
        Js.decodeURIComponent (Js.encodeURIComponent encrypted)
        = Return encrypted /\
        Auth.decryptUrl C cfg encrypted = Return absoluteUrl) /\
    (forall msg,
        resolve baseUrl t = Throw msg ->
        Proxy.rewriteLine C cfg resolve iv baseUrl proxyBaseUrl line
        = Throw msg).
Proof.
  intros Hgcm iv baseUrl proxyBaseUrl line t Htag Hhash Hclass.
  assert (Hkey : key_uri t = None).
  { unfold key_uri. destruct (Str.startsWith "#EXT-X-KEY" t) eqn:Ek;
      [|reflexivity].
    exfalso. apply prefix_first_char in Ek. unfold Str.startsWith in Hhash.
    congruence. }
  assert (Hline : Proxy.rewriteLine C cfg resolve iv baseUrl proxyBaseUrl line
                  = outcome_map (fun proxyUrl => (proxyUrl, true))
                      (Proxy.proxied C cfg resolve iv baseUrl proxyBaseUrl
                         (if is_variant t then "manifest" else "segment") t)).
  { rewrite rewriteLine_cases. cbv zeta. fold t. rewrite Htag, Hkey.
    destruct (is_variant t); [reflexivity|].
    cbn [orb] in Hclass. now rewrite Hclass. }
  split.
  - intros absoluteUrl Hres encrypted. split; [|split].
    + rewrite Hline. unfold Proxy.proxied. rewrite Hres. reflexivity.
    + apply decodeURIComponent_encodeURIComponent.
    + now apply decryptUrl_encryptUrl.
  - intros msg Hres. rewrite Hline. unfold Proxy.proxied. now rewrite Hres.
Qed.

(** X23. The rewriter works line by line and draws one nonce per
    rewritten reference.  When the loop returns, the output has one line
    per input line, the line at position [k] is what the loop body
    returns for the input line at position [k], and the nonce it uses,
    if any, is the one whose index is the number of references rewritten
    before it, so that no nonce is used for two lines of a playlist.
    When the loop throws, the loop body throws that error on one of the
    lines; and the loop returns when the loop body returns on every
    line. *)
Theorem X23_one_nonce_per_rewritten_line :
  forall rnd baseUrl proxyBaseUrl lines,
    let body k line :=
      Proxy.rewriteLine C cfg resolve (rnd (rewritten_before k lines))
        baseUrl proxyBaseUrl line in
    (forall outs,
        Proxy.rewriteLines C cfg resolve rnd 0 baseUrl proxyBaseUrl lines
        = Return outs ->
        List.length outs = List.length lines /\
        forall k line,
          nth_error lines k = Some line ->
          exists out,
            body k line = Return (out, negb (untouched line)) /\
            nth_error outs k = Some out) /\
    (forall msg,
        Proxy.rewriteLines C cfg resolve rnd 0 baseUrl proxyBaseUrl lines
        = Throw msg ->
        exists k line, nth_error lines k = Some line /\ body k line = Throw msg) /\
    ((forall k line, nth_error lines k = Some line ->
                     exists r, body k line = Return r) ->
     exists outs,
       Proxy.rewriteLines C cfg resolve rnd 0 baseUrl proxyBaseUrl lines
       = Return outs).
Proof.
  intros rnd baseUrl proxyBaseUrl lines body.
  enough (H : forall n,
             (forall outs,
                 Proxy.rewriteLines C cfg resolve rnd n baseUrl proxyBaseUrl lines
                 = Return outs ->
                 List.length outs = List.length lines /\
                 forall k line,
                   nth_error lines k = Some line ->
                   exists out,
                     Proxy.rewriteLine C cfg resolve
                       (rnd (n + rewritten_before k lines)%nat)
                       baseUrl proxyBaseUrl line
                     = Return (out, negb (untouched line)) /\
                     nth_error outs k = Some out) /\
             (forall msg,
                 Proxy.rewriteLines C cfg resolve rnd n baseUrl proxyBaseUrl lines
                 = Throw msg ->
                 exists k line,
                   nth_error lines k = Some line /\
                   Proxy.rewriteLine C cfg resolve
                     (rnd (n + rewritten_before k lines)%nat)
                     baseUrl proxyBaseUrl line
                   = Throw msg)).
  { destruct (H 0%nat) as [Hret Hthrow]. split; [exact Hret|].
    split; [exact Hthrow|]. intros Hbody.
    destruct (Proxy.rewriteLines C cfg resolve rnd 0 baseUrl proxyBaseUrl lines)
      as [outs|msg] eqn:E; [eauto|].
    destruct (Hthrow msg eq_refl) as (k & line & Hk & Hline).
    destruct (Hbody k line Hk) as [r Hr]. unfold body in Hr. cbn in Hline.
    congruence. }
  induction lines as [|l lines IH]; intros n.
  - split.
    + intros outs [= <-]. split; [reflexivity|]. intros [|k] line; discriminate.
    + discriminate.
  - cbn [Proxy.rewriteLines].
    destruct (Proxy.rewriteLine C cfg resolve (rnd n) baseUrl proxyBaseUrl l)
      as [[out drew]|msg0] eqn:El.
    2:{ split; [discriminate|]. intros msg [= <-].
        exists 0%nat, l. split; [reflexivity|].
        cbn [rewritten_before]. now rewrite Nat.add_0_r. }
    pose proof (rewriteLine_draws _ _ _ _ _ _ El) as ->.
    destruct (IH (if negb (untouched l) then S n else n)) as [IHret IHthrow].
    assert (Hidx : forall k,
               ((if negb (untouched l) then S n else n)
                + rewritten_before k lines
                = n + rewritten_before (S k) (l :: lines))%nat).
    { intros k. cbn [rewritten_before].
      destruct (untouched l); cbn [negb]; lia. }
    destruct (Proxy.rewriteLines C cfg resolve rnd
                (if negb (untouched l) then S n else n) baseUrl proxyBaseUrl lines)
      as [outs'|msg'] eqn:Er; cbn [outcome_map].
    + split; [|discriminate]. intros outs [= <-].
      destruct (IHret outs' eq_refl) as [IHlen IHnth].
      split; [cbn [List.length]; now rewrite IHlen|].
      intros [|k] line; cbn [nth_error].
      * intros [= <-]. exists out. split; [|reflexivity].
        cbn [rewritten_before]. now rewrite Nat.add_0_r.
      * intros Hk. destruct (IHnth k line Hk) as (out' & Hout' & Hnth).
        exists out'. split; [|exact Hnth]. now rewrite <- Hidx.
    + split; [discriminate|]. intros msg [= <-].
      destruct (IHthrow msg' eq_refl) as (k & line & Hk & Hline).
      exists (S k), line. split; [exact Hk|]. now rewrite <- Hidx.
Qed.

End MoreRewriterProperties.

(** ** Manifest rewriter: key lines *)

Lemma substring_all (s : string) : String.substring 0 (String.length s) s = s.
Proof. induction s as [|c s IH]; cbn; [reflexivity | now rewrite IH]. Qed.

Lemma prefix_split (p s : string) :
  String.prefix p s = true ->
  s = p ++ String.substring (String.length p)
             (String.length s - String.length p) s.
Proof.
  revert s. induction p as [|a p IH]; intros s.
  - intros _. cbn [String.length]. rewrite Nat.sub_0_r, substring_all.
    reflexivity.
  - destruct s as [|b s]; cbn [String.prefix]; [discriminate|].
    destruct (ascii_dec a b) as [<-|]; [|discriminate].
    intros Hp. rewrite append_cons. cbn [String.length String.substring].
    rewrite Nat.sub_succ. now rewrite <- (IH s Hp).
Qed.

(** [find_first] cuts the text around an occurrence of the pattern. *)
Lemma find_first_split (p s before after : string) :
  Str.find_first p s = Some (before, after) -> s = before ++ p ++ after.
Proof.
  revert before after. induction s as [|c s IH]; intros before after;
    cbn [Str.find_first].
  - destruct (String.prefix p EmptyString) eqn:Ep; [|discriminate].
    intros [= <- <-]. now apply prefix_split in Ep.
  - destruct (String.prefix p (String c s)) eqn:Ep.
    + intros [= <- <-]. now apply prefix_split in Ep.
    + destruct (Str.find_first p s) as [[b a]|]; [|discriminate].
      intros [= <- <-]. rewrite append_cons. now rewrite <- (IH b a eq_refl).
Qed.

Lemma encode_char_free_of_dollar (c : ascii) (rest : string) :
  free_of "$" (Js.encodeURIComponent (String c rest))
  = free_of "$" (Js.encodeURIComponent rest).
Proof. destruct c as [[] [] [] [] [] [] [] []]; reflexivity. Qed.

Lemma encodeURIComponent_free_of_dollar (s : string) :
  free_of "$" (Js.encodeURIComponent s) = true.
Proof.
  induction s as [|c s IH]; [reflexivity|].
  now rewrite encode_char_free_of_dollar.
Qed.

(** A replacement text without [$] stands for itself. *)
Lemma substitution_literal (repl matched before after : string) :
  free_of "$" repl = true ->
  Js.substitution repl matched before after = repl.
Proof.
  induction repl as [|c r IH]; [reflexivity|]. cbn [free_of Js.substitution].
  intros H. apply andb_prop in H as [Hc Hr]. apply negb_true_iff in Hc.
  rewrite Hc, (IH Hr). reflexivity.
Qed.

Section KeyLineProperties.

Variable C : Crypto.
Variable cfg : TokenConfig.
Variable resolve : Url.Resolver.

(** X24. On an [#EXT-X-KEY] line with a [URI="..."] attribute, the
    rewriter replaces the first occurrence of the URI's text in the line
    by [<proxyBase>/key?url=<parameter>], the parameter decrypting to
    what [url.resolve] returned for the base URL and the URI, and leaves
    the rest of the line as it is.  The occurrence replaced is the first
    one in the line: it is the attribute's value only when the URI's
    text does not occur earlier in the line.  When [url.resolve] throws
    on the URI, so does the loop body.  (Proxy base free of [$]; cipher
    assumed correct.) *)
Theorem X24_key_uri_first_occurrence_replaced :
  gcm_correct C ->
  forall iv baseUrl proxyBaseUrl line uri before after,
    key_uri (Str.trim line) = Some uri ->
    Str.find_first uri line = Some (before, after) ->
    free_of "$" proxyBaseUrl = true ->
    line = before ++ uri ++ after /\
    (forall keyUrl,
        resolve baseUrl uri = Return keyUrl ->
        let encrypted := Auth.encryptUrl C cfg iv keyUrl in
        Proxy.rewriteLine C cfg resolve iv baseUrl proxyBaseUrl line
        = Return (before
                  ++ (proxyBaseUrl ++ "/key?url=" ++ Js.encodeURIComponent encrypted)
                  ++ after, true) /\
        Auth.decryptUrl C cfg encrypted = Return keyUrl) /\
    (forall msg,
        resolve baseUrl uri = Throw msg ->
        Proxy.rewriteLine C cfg resolve iv baseUrl proxyBaseUrl line
        = Throw msg).
Proof.
  intros Hgcm iv baseUrl proxyBaseUrl line uri before after Hkey Hfind Hfree.
  split; [now apply find_first_split|].
  assert (Htag : is_tag_or_blank (Str.trim line) = false).
  { revert Hkey. unfold key_uri, is_tag_or_blank.
    destruct (Str.startsWith "#EXT-X-KEY" (Str.trim line)) eqn:Ek; [|discriminate].
    intros _. cbn [negb]. rewrite andb_false_r, orb_false_r.
    destruct (Str.trim line); [discriminate Ek | reflexivity]. }
  assert (Hline : Proxy.rewriteLine C cfg resolve iv baseUrl proxyBaseUrl line
                  = outcome_map
                      (fun proxyKeyUrl => (Js.replace line uri proxyKeyUrl, true))
                      (Proxy.proxied C cfg resolve iv baseUrl proxyBaseUrl
                         "key" uri)).
  { rewrite rewriteLine_cases. cbv zeta. now rewrite Htag, Hkey. }
  split.
  - intros keyUrl Hres encrypted. split; [|now apply decryptUrl_encryptUrl].
    rewrite Hline. unfold Proxy.proxied. rewrite Hres. cbn [outcome_map].
    unfold Js.replace. rewrite Hfind.
    rewrite substitution_literal; [reflexivity|].
    rewrite !free_of_append, Hfree.
    fold encrypted. now rewrite encodeURIComponent_free_of_dollar.
  - intros msg Hres. rewrite Hline. unfold Proxy.proxied. now rewrite Hres.
Qed.

End KeyLineProperties.

(** The key line property on a line whose URI text, [AES], occurs first
    in the [METHOD] attribute: that occurrence is the one replaced. *)
Lemma X24_key_uri_first_occurrence_replaced_witness :
  let line := "#EXT-X-KEY:METHOD=AES-128,URI=" ++ String Js.dquote "AES"
                ++ String Js.dquote EmptyString in
  let encrypted := Auth.encryptUrl Toy.crypto fallbackConfig (repeat x07 16)
                     "https://origin.example/live/AES" in
  Proxy.rewriteLine Toy.crypto fallbackConfig Url.rfc3986 (repeat x07 16)
    "https://origin.example/live/index.m3u8" "https://proxy.example/proxy" line
  = Return
      ("#EXT-X-KEY:METHOD=" ++
       ("https://proxy.example/proxy" ++ "/key?url="
          ++ Js.encodeURIComponent encrypted)
       ++ ("-128,URI=" ++ String Js.dquote "AES" ++ String Js.dquote EmptyString),
       true).
Proof.
  intros line encrypted.
  refine (proj1 (proj1 (proj2 (X24_key_uri_first_occurrence_replaced Toy.crypto
                          fallbackConfig Url.rfc3986 toy_correct (repeat x07 16)
                          "https://origin.example/live/index.m3u8"
                          "https://proxy.example/proxy" line "AES"
                          "#EXT-X-KEY:METHOD="
                          ("-128,URI=" ++ String Js.dquote "AES"
                             ++ String Js.dquote EmptyString) _ _ _))
                 "https://origin.example/live/AES" _));
    vm_compute; reflexivity.
Defined.

(** ** The further properties on concrete runs *)

Lemma X11_validateToken_accepts_iff_witness :
  let r := Auth.generateToken Toy.crypto fallbackConfig Jwt.exact_timespan
             0 "raw-1" (repeat x07 16) "jti-1" sample_payload
             Auth.empty_store in
  exists g,
    fst r = Return g /\
    Auth.validateToken fallbackConfig 1000 (Auth.token g) (snd r)
    = {| Auth.valid := true; Auth.decoded := Some (Auth.token g);
         Auth.streamData := Auth.activeStreams (snd r) !! "stream-1";
         Auth.error := None |}.
Proof.
  intros r. eexists. split; [reflexivity|].
  match goal with
  | |- Auth.validateToken _ _ ?tok _ = _ =>
      destruct (X11_validateToken_accepts_iff fallbackConfig 1000 tok (snd r))
        as (Hiff & Hvalid & _)
  end.
  apply Hvalid, Hiff.
  split; [reflexivity|]. split; [reflexivity|]. split; [reflexivity|].
  split; [reflexivity|]. eexists. split; [reflexivity|]. split; reflexivity.
Defined.

Lemma X12_issued_token_valid_until_expiry_witness :
  let payload :=
    {| Auth.payloadStreamId := Some "stream-1";
       Auth.payloadOriginalUrl := "https://o.example/a.m3u8";
       Auth.payloadExpiryMinutes := Some 1 |} in
  let refused :=
    {| Auth.payloadStreamId := Some "stream-1";
       Auth.payloadOriginalUrl := "https://o.example/a.m3u8";
       Auth.payloadExpiryMinutes := Some (10 ^ 21) |} in
  (exists g st',
      Auth.generateToken Toy.crypto fallbackConfig Jwt.exact_timespan
        0 "raw-1" (repeat x07 16) "jti-1" payload Auth.empty_store
      = (Return g, st') /\
      Jwt.exp (Auth.token g) = 60 /\
      Auth.valid (Auth.validateToken fallbackConfig 59999 (Auth.token g) st')
      = true /\
      Auth.validateToken fallbackConfig 61000 (Auth.token g) st'
      = Auth.invalid "jwt expired") /\
  Auth.generateToken Toy.crypto fallbackConfig Jwt.exact_timespan
    0 "raw-1" (repeat x07 16) "jti-1" refused Auth.empty_store
  = (Throw "Failed to generate access token", Auth.empty_store).
Proof.
  intros payload refused. split.
  - destruct (proj1 (X12_issued_token_valid_until_expiry Toy.crypto
                       fallbackConfig Jwt.exact_timespan 0 "raw-1"
                       (repeat x07 16) "jti-1" payload Auth.empty_store)
                exact_timespan_exact)
      as (g & st' & Hg & Hexp & Hvalid).
    + unfold clock, MAX_TIME. lia.
    + vm_compute. discriminate.
    + exists g, st'. split; [exact Hg|]. split; [exact Hexp|].
      assert (Hunexpired : forall t, unexpired t (Auth.token g) <-> t / 1000 < 60).
      { intros t. unfold unexpired. rewrite Hexp. reflexivity. }
      split.
      * apply (proj1 (Hvalid 59999)), Hunexpired. reflexivity.
      * apply (proj2 (Hvalid 61000)). rewrite Hunexpired.
        vm_compute. discriminate.
  - apply (proj2 (X12_issued_token_valid_until_expiry Toy.crypto
                    fallbackConfig Jwt.exact_timespan 0 "raw-1"
                    (repeat x07 16) "jti-1" refused Auth.empty_store)
             exact_timespan_unparsed).
    vm_compute. discriminate.
Defined.

Lemma X13_validation_unaffected_by_other_streams_and_viewers_witness :
  let r1 := Auth.generateToken Toy.crypto fallbackConfig Jwt.exact_timespan
              0 "raw-1" (repeat x07 16) "jti-1" sample_payload
              Auth.empty_store in
  let payload2 :=
    {| Auth.payloadStreamId := Some "stream-2";
       Auth.payloadOriginalUrl := "https://o.example/b.m3u8";
       Auth.payloadExpiryMinutes := None |} in
  let r2 := Auth.generateToken Toy.crypto fallbackConfig Jwt.exact_timespan
              10 "raw-2" (repeat x2a 16) "jti-2" payload2 (snd r1) in
  exists g1,
    fst r1 = Return g1 /\
    Auth.validateToken fallbackConfig 2000 (Auth.token g1)
      (snd (Auth.stopStream 1000 "jti-3" "stream-2" (snd r2)))
    = Auth.validateToken fallbackConfig 2000 (Auth.token g1) (snd r2) /\
    Auth.validateToken fallbackConfig 2000 (Auth.token g1) (snd r2)
    = Auth.validateToken fallbackConfig 2000 (Auth.token g1) (snd r1).
Proof.
  intros r1 payload2 r2. eexists. split; [reflexivity|]. split.
  - match goal with
    | |- Auth.validateToken _ _ ?tok _ = _ =>
        apply (proj1 (X13_validation_unaffected_by_other_streams_and_viewers
                        Toy.crypto fallbackConfig Jwt.exact_timespan 2000 tok
                        (snd r2)))
    end.
    discriminate.
  - match goal with
    | |- Auth.validateToken _ _ ?tok _ = _ =>
        apply (proj1 (proj2
                 (X13_validation_unaffected_by_other_streams_and_viewers
                    Toy.crypto fallbackConfig Jwt.exact_timespan 2000 tok
                    (snd r1))))
    end.
    discriminate.
Defined.

Lemma X14_stop_twice_is_stop_once_witness :
  let st := snd (Auth.generateToken Toy.crypto fallbackConfig Jwt.exact_timespan 0 "raw-1"
                   (repeat x07 16) "jti-1" sample_payload Auth.empty_store) in
  Auth.stopStream 2000 "jti-3" "stream-1"
    (snd (Auth.stopStream 1000 "jti-2" "stream-1" st))
  = Auth.stopStream 2000 "jti-3" "stream-1" st /\
  Auth.stopStream 1000 "jti-2" "stream-9" st
  = ({| Auth.success := false; Auth.message := "Stream not found" |}, st).
Proof.
  intros st.
  destruct (X14_stop_twice_is_stop_once 1000 "jti-2" 2000 "jti-3" "stream-1" st)
    as (Htwice & _ & _).
  destruct (X14_stop_twice_is_stop_once 1000 "jti-2" 2000 "jti-3" "stream-9" st)
    as (_ & Hnone & _).
  split; [exact Htwice | apply Hnone; reflexivity].
Defined.

Lemma X15_join_then_leave_restores_store_witness :
  let st := snd (Auth.generateToken Toy.crypto fallbackConfig Jwt.exact_timespan 0 "raw-1"
                   (repeat x07 16) "jti-1" sample_payload Auth.empty_store) in
  exists session st',
    Auth.registerViewer 1000 "stream-1" None "session-1" st
    = Return (session, st') /\
    Auth.removeViewer (Auth.sessionId session) st' = st.
Proof.
  intros st. eexists _, _. split; [reflexivity|].
  eapply (X15_join_then_leave_restores_store 1000 "stream-1" None "session-1" st).
  - reflexivity.
  - cbn. lia.
  - reflexivity.
  - reflexivity.
Defined.

Lemma X16_same_session_joining_twice_is_counted_twice_witness :
  let st := snd (Auth.generateToken Toy.crypto fallbackConfig Jwt.exact_timespan 0 "raw-1"
                   (repeat x07 16) "jti-1" sample_payload Auth.empty_store) in
  exists session1 st1 session2 st2,
    Auth.registerViewer 1000 "stream-1" (Some "session-1") "u1" st
    = Return (session1, st1) /\
    Auth.registerViewer 2000 "stream-1" (Some "session-1") "u2" st1
    = Return (session2, st2) /\
    option_map Auth.viewerCount
      (Auth.activeStreams (Auth.removeViewer "session-1" st2) !! "stream-1")
    = Some 1 /\
    Auth.viewerSessions (Auth.removeViewer "session-1" st2) !! "session-1" = None.
Proof.
  intros st.
  destruct (X16_same_session_joining_twice_is_counted_twice
              1000 2000 "u1" "u2" "stream-1" "session-1" st _ eq_refl)
    as (session1 & st1 & session2 & st2 & Hr1 & Hr2 & _ & Hleft & Hgone & _);
    [cbn; lia | cbn; lia |].
  exists session1, st1, session2, st2.
  split; [exact Hr1|]. split; [exact Hr2|]. split; [|exact Hgone].
  rewrite Hleft. reflexivity.
Defined.

Lemma X17_removeViewer_unknown_session_is_noop_witness :
  let st := snd (Auth.generateToken Toy.crypto fallbackConfig Jwt.exact_timespan 0 "raw-1"
                   (repeat x07 16) "jti-1" sample_payload Auth.empty_store) in
  Auth.removeViewer "nobody" st = st.
Proof.
  intros st.
  apply (proj1 (X17_removeViewer_unknown_session_is_noop "nobody" st)).
  reflexivity.
Defined.

Lemma X18_sessions_belong_to_held_streams_witness :
  sessions_have_streams
    (Auth.run Toy.crypto fallbackConfig Jwt.exact_timespan
       [Auth.GenerateToken 0 "raw-1" (repeat x07 16) "jti-1" sample_payload;
        Auth.RegisterViewer 1000 "stream-1" None "session-1";
        Auth.StopStream 2000 "jti-2" "stream-1";
        Auth.CleanupExpiredStreams 3000]
       Auth.empty_store).
Proof.
  apply (proj2 (X18_sessions_belong_to_held_streams Toy.crypto fallbackConfig
                  Jwt.exact_timespan)).
Defined.

Lemma X19_cleanup_reaps_once_witness :
  let st := Auth.run Toy.crypto fallbackConfig Jwt.exact_timespan
              [Auth.GenerateToken 0 "raw-1" (repeat x07 16) "jti-1" sample_payload;
               Auth.RegisterViewer 1000 "stream-1" None "session-1";
               Auth.StopStream 2000 "jti-2" "stream-1"]
              Auth.empty_store in
  let st' := snd (Auth.cleanupExpiredStreams 3000 st) in
  Auth.viewerSessions st' !! "session-1" = None /\
  Auth.cleanupExpiredStreams 3000 st' = (0, st').
Proof.
  intros st st'.
  destruct (X19_cleanup_reaps_once 3000 st) as (_ & Hsessions & _ & Hagain).
  split; [|exact Hagain].
  destruct (Auth.viewerSessions st' !! "session-1") as [session|] eqn:Es;
    [|reflexivity].
  apply Hsessions in Es as [Es Hsame].
  vm_compute in Es. injection Es as <-. vm_compute in Hsame. discriminate.
Defined.

Lemma X20_stopped_stream_gone_after_cleanup_witness :
  let r := Auth.generateToken Toy.crypto fallbackConfig Jwt.exact_timespan
             0 "raw-1" (repeat x07 16) "jti-1" sample_payload
             Auth.empty_store in
  let st2 := snd (Auth.cleanupExpiredStreams 3000
                    (snd (Auth.stopStream 2000 "jti-2" "stream-1" (snd r)))) in
  exists g,
    fst r = Return g /\
    Auth.validateToken fallbackConfig 4000 (Auth.token g) st2
    = Auth.invalid "Stream not found or expired" /\
    Auth.registerViewer 4000 "stream-1" None "session-1" st2
    = Throw "Stream not found".
Proof.
  intros r st2.
  destruct (X20_stopped_stream_gone_after_cleanup Toy.crypto fallbackConfig
              Jwt.exact_timespan 2000 "jti-2" "stream-1" (snd r) _ 3000 eq_refl)
    as (_ & _ & Hvalidate & Hregister & _).
  eexists. split; [reflexivity|]. split; [|apply Hregister].
  apply Hvalidate; [|reflexivity].
  eexists 0, "raw-1", (repeat x07 16), "jti-1", sample_payload,
    Auth.empty_store, _.
  split; [reflexivity|]. split; reflexivity.
Defined.

(** A playlist that starts with a byte order mark and has a blank line
    made of a no-break space. *)
Lemma X21_playlist_without_references_unchanged_witness :
  let manifest :=
    (bom ++ "#EXTM3U") ++ String Proxy.newline
      ("#EXT-X-VERSION:3" ++ String Proxy.newline
         ((" " ++ nbsp) ++ String Proxy.newline "#EXT-X-ENDLIST")) in
  Proxy.rewriteManifestUrls Toy.crypto fallbackConfig Url.rfc3986
    (fun _ => repeat x07 16)
    manifest "https://origin.example/live/index.m3u8"
    "https://proxy.example/proxy" EmptyString
  = Return manifest.
Proof.
  intros manifest. apply X21_playlist_without_references_unchanged.
  vm_compute. reflexivity.
Defined.

(** A variant reference between white space, a no-break space
    included. *)
Lemma X22_reference_line_recoverable_witness :
  Proxy.rewriteLine Toy.crypto fallbackConfig Url.rfc3986 (repeat x07 16)
    "https://origin.example/live/index.m3u8" "https://proxy.example/proxy"
    ("  low/index.m3u8 " ++ nbsp)
  = Return
      ("https://proxy.example/proxy" ++ "/" ++ "manifest" ++ "?url=" ++
       Js.encodeURIComponent
         (Auth.encryptUrl Toy.crypto fallbackConfig (repeat x07 16)
            "https://origin.example/live/low/index.m3u8"), true) /\
  Auth.decryptUrl Toy.crypto fallbackConfig
    (Auth.encryptUrl Toy.crypto fallbackConfig (repeat x07 16)
       "https://origin.example/live/low/index.m3u8")
  = Return "https://origin.example/live/low/index.m3u8".
Proof.
  destruct (proj1 (X22_reference_line_recoverable Toy.crypto fallbackConfig
                     Url.rfc3986 toy_correct
                     (repeat x07 16) "https://origin.example/live/index.m3u8"
                     "https://proxy.example/proxy" ("  low/index.m3u8 " ++ nbsp)
                     eq_refl eq_refl eq_refl)
              "https://origin.example/live/low/index.m3u8" eq_refl)
    as (Hline & _ & Hdecrypt).
  split; [exact Hline | exact Hdecrypt].
Defined.

(** Two segment lines, the first followed by a no-break space: both are
    rewritten, the second with the second nonce. *)
Lemma X23_one_nonce_per_rewritten_line_witness :
  let lines := ["#EXTINF:4.0,"; "segment001.ts" ++ nbsp; "#EXTINF:4.0,";
                "segment002.ts"] in
  let rnd := fun n : nat => repeat (if Nat.eqb n 0 then x07 else x2a) 16 in
  exists outs out,
    Proxy.rewriteLines Toy.crypto fallbackConfig Url.rfc3986 rnd 0
      "https://origin.example/live/index.m3u8" "https://proxy.example/proxy"
      lines = Return outs /\
    Proxy.rewriteLine Toy.crypto fallbackConfig Url.rfc3986 (rnd 1%nat)
      "https://origin.example/live/index.m3u8" "https://proxy.example/proxy"
      "segment002.ts" = Return (out, true) /\
    nth_error outs 3 = Some out.
Proof.
  intros lines rnd.
  destruct (X23_one_nonce_per_rewritten_line Toy.crypto fallbackConfig
              Url.rfc3986 rnd "https://origin.example/live/index.m3u8"
              "https://proxy.example/proxy" lines) as (Hret & _ & Hreturns).
  destruct Hreturns as [outs Houts].
  { intros k line Hk.
    destruct k as [|[|[|[|[|k]]]]]; cbn in Hk; try discriminate;
      injection Hk as <-; eexists; reflexivity. }
  destruct (proj2 (Hret outs Houts) 3%nat "segment002.ts" eq_refl)
    as (out & Hout & Hnth).
  exists outs, out. split; [exact Houts|]. split; [exact Hout | exact Hnth].
Defined.

(** ** Requests to the origin *)

Section RequestProperties.

Variable C : Crypto.
Variable cfg : TokenConfig.
Variable ts : Jwt.Timespan.
Variable resolve : Url.Resolver.

(** X25. A segment fetched from the origin is served from the cache to
    the next request: when a request misses the cache and the origin
    answers 200, the response relays the body with [X-Cache: MISS], and
    a request for the same ciphertext made less than 30 seconds after
    the body was cached answers 200 with the same bytes and
    [X-Cache: HIT], whatever the origin would answer then, leaving the
    cache as it is. *)
Theorem X25_fetched_segment_then_hit :
  forall origin origin' now later now2 later2 encryptedUrl c url location chunks,
    Proxy.cachedSegment now encryptedUrl c = None ->
    Auth.decryptUrl C cfg encryptedUrl = Return url ->
    origin url = ProxyIO.Responded 200 location chunks ->
    now2 - later < 30000 ->
    let r1 := ProxyIO.proxySegment C cfg origin now later encryptedUrl c in
    fst r1 = {| ProxyIO.status := 200;
                ProxyIO.headers := ProxyIO.miss_headers [];
                ProxyIO.body := ProxyIO.Bytes (List.concat chunks) |} /\
    ProxyIO.proxySegment C cfg origin' now2 later2 encryptedUrl (snd r1)
    = ({| ProxyIO.status := 200;
          ProxyIO.headers := ProxyIO.hit_headers [];
          ProxyIO.body := ProxyIO.Bytes (List.concat chunks) |}, snd r1).
Proof.
  intros origin origin' now later now2 later2 encryptedUrl c url location chunks
    Hmiss Hdec Horigin Hfresh r1.
  assert (Hr1 : r1 = ({| ProxyIO.status := 200;
                         ProxyIO.headers := ProxyIO.miss_headers [];
                         ProxyIO.body := ProxyIO.Bytes (List.concat chunks) |},
                      Proxy.cacheSegment later encryptedUrl (List.concat chunks) c)).
  { unfold r1, ProxyIO.proxySegment. now rewrite Hmiss, Hdec, Horigin. }
  rewrite Hr1. cbn [fst snd]. split; [reflexivity|].
  unfold ProxyIO.proxySegment. rewrite cachedSegment_cacheSegment.
  destruct (Z.ltb_spec (now2 - later) 30000); [reflexivity | lia].
Qed.

(** X26. What [proxySegment] caches and what it asks the origin: the
    cache is left as it is unless the request missed the cache and the
    origin answered 200, in which case the body is cached under the
    ciphertext; and a text that is neither cached nor decrypted gets
    status 500 whatever the origin is. *)
Theorem X26_only_fetched_200_bodies_cached :
  forall origin now later encryptedUrl c,
    (snd (ProxyIO.proxySegment C cfg origin now later encryptedUrl c) = c \/
     exists url location chunks,
       Proxy.cachedSegment now encryptedUrl c = None /\
       Auth.decryptUrl C cfg encryptedUrl = Return url /\
       origin url = ProxyIO.Responded 200 location chunks /\
       snd (ProxyIO.proxySegment C cfg origin now later encryptedUrl c)
       = Proxy.cacheSegment later encryptedUrl (List.concat chunks) c) /\
    (Proxy.cachedSegment now encryptedUrl c = None ->
     (forall url, Auth.decryptUrl C cfg encryptedUrl <> Return url) ->
     ProxyIO.proxySegment C cfg origin now later encryptedUrl c
     = ({| ProxyIO.status := 500; ProxyIO.headers := [];
           ProxyIO.body := ProxyIO.NoBody |}, c)).
Proof.
  intros origin now later encryptedUrl c. unfold ProxyIO.proxySegment. split.
  - destruct (Proxy.cachedSegment now encryptedUrl c); [now left|].
    destruct (Auth.decryptUrl C cfg encryptedUrl) as [url|msg]; [|now left].
    destruct (origin url) as [statusCode location chunks| | |] eqn:Eo;
      try (now left).
    destruct (Z.eqb_spec statusCode 200) as [->|]; cbn [negb]; [|now left].
    right. exists url, location, chunks. auto.
  - intros -> Hdec.
    destruct (Auth.decryptUrl C cfg encryptedUrl) as [url|msg]; [|reflexivity].
    now destruct (Hdec url).
Qed.

(** X27. The responses of [proxySegment] that relay a body fetched from
    the origin carry no [Content-Type]: among the headers that the
    function sets, every response with [X-Cache: MISS] has the header
    [Access-Type: video/mp2t] and no [Content-Type] header, while every
    response with [X-Cache: HIT] has status 200 and
    [Content-Type: video/mp2t]. *)
Theorem X27_miss_response_has_no_content_type :
  forall origin now later encryptedUrl c,
    let r := fst (ProxyIO.proxySegment C cfg origin now later encryptedUrl c) in
    (ProxyIO.header "X-Cache" (ProxyIO.headers r) = Some "MISS" ->
     ProxyIO.header "Content-Type" (ProxyIO.headers r) = None /\
     ProxyIO.header "Access-Type" (ProxyIO.headers r) = Some "video/mp2t") /\
    (ProxyIO.header "X-Cache" (ProxyIO.headers r) = Some "HIT" ->
     ProxyIO.header "Content-Type" (ProxyIO.headers r) = Some "video/mp2t" /\
     ProxyIO.status r = 200).
Proof.
  intros origin now later encryptedUrl c. unfold ProxyIO.proxySegment.
  destruct (Proxy.cachedSegment now encryptedUrl c);
    [cbn; split; [discriminate | auto]|].
  destruct (Auth.decryptUrl C cfg encryptedUrl) as [url|msg];
    [|cbn; split; discriminate].
  destruct (origin url) as [statusCode location chunks| | |];
    try (cbn; split; discriminate).
  destruct (negb (statusCode =? 200)%Z); cbn; split; (discriminate || auto).
Qed.

Lemma redirect_test (statusCode : Z) (c : ascii) (l : string) :
  300 <= statusCode < 400 ->
  (if (300 <=? statusCode)%Z && (statusCode <? 400)%Z
   then Some (String c l) else None) = Some (String c l).
Proof.
  intros [Hlo Hhi]. apply Z.leb_le in Hlo. apply Z.ltb_lt in Hhi.
  now rewrite Hlo, Hhi.
Qed.

Lemma proxyManifest_redirect origin fuel sent redirectIv rnd encryptedUrl
    baseProxyUrl url statusCode location chunks :
  Auth.decryptUrl C cfg encryptedUrl = Return url ->
  origin url = ProxyIO.Responded statusCode (Some location) chunks ->
  300 <= statusCode < 400 -> location <> EmptyString ->
  ProxyIO.proxyManifest C cfg resolve origin (S fuel) sent redirectIv rnd
    encryptedUrl baseProxyUrl
  = match resolve url location with
    | Throw _ => None
    | Return redirectUrl =>
        ProxyIO.proxyManifest C cfg resolve origin fuel
          (ProxyIO.manifest_headers sent) redirectIv rnd
          (Auth.encryptUrl C cfg (redirectIv fuel) redirectUrl) baseProxyUrl
    end.
Proof.
  intros Hdec Horigin Hcode Hloc. cbn [ProxyIO.proxyManifest].
  rewrite Hdec, Horigin. destruct location as [|a l]; [congruence|].
  now rewrite redirect_test.
Qed.

(** X28. After a redirect the playlist is rewritten against the redirect
    target: when the origin answers the manifest request with a 3xx
    status and a [Location], and answers 200 at the URL that
    [url.resolve] returns for the requested URL and the location,
    [proxyManifest] responds with the body fetched there, rewritten with
    that URL, and not the URL first requested, as base URL: status 200
    and the rewritten playlist, or status 500 when the rewriting throws.
    (Cipher assumed correct.) *)
Theorem X28_redirected_manifest_rewritten_against_target :
  gcm_correct C ->
  forall origin fuel redirectIv rnd encryptedUrl baseProxyUrl url statusCode
         location chunks0 redirectUrl location' chunks,
    Auth.decryptUrl C cfg encryptedUrl = Return url ->
    origin url = ProxyIO.Responded statusCode (Some location) chunks0 ->
    300 <= statusCode < 400 -> location <> EmptyString ->
    resolve url location = Return redirectUrl ->
    origin redirectUrl = ProxyIO.Responded 200 location' chunks ->
    ProxyIO.proxyManifest C cfg resolve origin (S (S fuel)) [] redirectIv rnd
      encryptedUrl baseProxyUrl
    = Some
        match Proxy.rewriteManifestUrls C cfg resolve rnd
                (String.concat EmptyString
                   (List.map string_of_list_byte chunks))
                redirectUrl baseProxyUrl
                (Auth.encryptUrl C cfg (redirectIv (S fuel)) redirectUrl) with
        | Return rewrittenManifest =>
            {| ProxyIO.status := 200;
               ProxyIO.headers := ProxyIO.manifest_headers [];
               ProxyIO.body := ProxyIO.Text rewrittenManifest |}
        | Throw _ =>
            {| ProxyIO.status := 500;
               ProxyIO.headers := ProxyIO.manifest_headers [];
               ProxyIO.body := ProxyIO.Json "Failed to process manifest" None |}
        end.
Proof.
  intros Hgcm origin fuel redirectIv rnd encryptedUrl baseProxyUrl url statusCode
    location chunks0 redirectUrl location' chunks Hdec Horigin Hcode Hloc Hres
    Htarget.
  rewrite (proxyManifest_redirect _ _ _ _ _ _ _ _ _ _ _ Hdec Horigin Hcode Hloc).
  rewrite Hres. cbn [ProxyIO.proxyManifest].
  rewrite (decryptUrl_encryptUrl C cfg _ _ Hgcm), Htarget.
  cbn [Z.leb Z.compare Pos.compare Pos.compare_cont andb Z.eqb Pos.eqb negb].
  destruct (Proxy.rewriteManifestUrls _ _ _ _ _ _ _ _); reflexivity.
Qed.

(** X29. Redirects are followed without limit: against an origin that
    answers every request with a 3xx status and a [Location],
    [proxyManifest] never responds, however many redirects it is allowed
    to follow.  (Cipher assumed correct.) *)
Theorem X29_redirects_followed_without_limit :
  gcm_correct C ->
  forall origin,
    (forall url, exists statusCode location chunks,
        origin url = ProxyIO.Responded statusCode (Some location) chunks /\
        300 <= statusCode < 400 /\ location <> EmptyString) ->
    forall fuel sent redirectIv rnd encryptedUrl baseProxyUrl url,
      Auth.decryptUrl C cfg encryptedUrl = Return url ->
      ProxyIO.proxyManifest C cfg resolve origin fuel sent redirectIv rnd
        encryptedUrl baseProxyUrl = None.
Proof.
  intros Hgcm origin Hloop.
  induction fuel as [|fuel IH];
    intros sent redirectIv rnd encryptedUrl baseProxyUrl url Hdec;
    [reflexivity|].
  destruct (Hloop url) as (statusCode & location & chunks & Ho & Hcode & Hloc).
  rewrite (proxyManifest_redirect _ _ _ _ _ _ _ _ _ _ _ Hdec Ho Hcode Hloc).
  destruct (resolve url location) as [redirectUrl|msg]; [|reflexivity].
  eapply IH. now apply decryptUrl_encryptUrl.
Qed.

(** X30. Issuing a token for a stream that the registry holds replaces
    its record.  When [generateToken] returns, the stream is active
    again, whether it was stopped or not, and its viewer count is zero,
    whatever it was, while the other records and the viewer sessions are
    all kept; a viewer of the stream who leaves afterwards leaves the
    count at zero.  When it throws, the error is "Failed to generate
    access token" and the registry is as it was.  It returns for an
    expiry of up to 10^12 minutes, on a clock that [Date.now()] returns,
    and throws for an expiry of 10^21 minutes or more (the library's
    time span assumed exact in the first range, and not read in the
    second). *)
Theorem X30_reissue_replaces_record :
  forall now rawId iv jwtid payload st sid,
    Auth.payloadStreamId payload = Some sid -> sid <> EmptyString ->
    let r := Auth.generateToken C cfg ts now rawId iv jwtid payload st in
    (forall g,
        fst r = Return g ->
        (exists d', Auth.activeStreams (snd r) !! sid = Some d' /\
                    Auth.isActive d' = true /\ Auth.viewerCount d' = 0 /\
                    Auth.tokenJti d' = jwtid) /\
        Auth.viewerSessions (snd r) = Auth.viewerSessions st /\
        (forall id, id <> sid ->
                    Auth.activeStreams (snd r) !! id
                    = Auth.activeStreams st !! id) /\
        (forall s session,
            Auth.viewerSessions st !! s = Some session ->
            Auth.sessionStreamId session = sid ->
            option_map Auth.viewerCount
              (Auth.activeStreams (Auth.removeViewer s (snd r)) !! sid)
            = Some 0)) /\
    (forall msg,
        fst r = Throw msg ->
        r = (Throw "Failed to generate access token", st)) /\
    (Jwt.timespan_exact ts -> clock now ->
     Z.abs (expiry_minutes cfg payload) <= 10 ^ 12 ->
     exists g, fst r = Return g) /\
    (Jwt.timespan_unparsed ts ->
     10 ^ 21 <= Z.abs (expiry_minutes cfg payload) ->
     r = (Throw "Failed to generate access token", st)).
Proof.
  intros now rawId iv jwtid payload st sid Hp Hne r.
  pose proof (generateToken_cases C cfg ts now rawId iv jwtid payload st) as Hcases.
  cbv zeta in Hcases. fold r in Hcases.
  split; [|split; [|split]].
  - intros g Hg.
    destruct (generated_token C cfg ts _ _ _ _ _ _ _ Hg) as (_ & Hsid & _).
    rewrite (stream_id_of_payload C cfg _ _ _ Hp Hne) in Hsid.
    assert (Hsessions : Auth.viewerSessions (snd r) = Auth.viewerSessions st).
    { rewrite Hcases. destruct (ts _ _); reflexivity. }
    assert (Hl : forall id,
               Auth.activeStreams (snd r) !! id =
               if decide (sid = id)
               then Some {| Auth.streamId := sid;
                            Auth.originalUrl := Auth.payloadOriginalUrl payload;
                            Auth.encryptedUrl := Jwt.url (Auth.token g);
                            Auth.createdAt := now;
                            Auth.expiresAt := Auth.generatedExpiresAt g;
                            Auth.viewerCount := 0;
                            Auth.maxViewers := maxConcurrentViewers (stream cfg);
                            Auth.isActive := true;
                            Auth.tokenJti := jwtid;
                            Auth.stoppedAt := None |}
               else Auth.activeStreams st !! id).
    { intros id. unfold r.
      rewrite (lookup_generateToken C cfg ts now rawId iv jwtid payload st id).
      fold r. rewrite Hg, Hsid. reflexivity. }
    split; [|split; [exact Hsessions|split]].
    + rewrite Hl. destruct (decide (sid = sid)); [|congruence].
      eexists. repeat split.
    + intros id Hid. rewrite Hl. destruct (decide (sid = id)); congruence.
    + intros s session Hs Hstream. rewrite lookup_removeViewer_eq.
      rewrite Hsessions, Hs, Hstream, Hl.
      destruct (decide (sid = sid)); [|congruence]. reflexivity.
  - intros msg Hmsg. unfold r in *.
    exact (generateToken_throws C cfg ts _ _ _ _ _ _ _ Hmsg).
  - intros Hts [Hnow0 Hnow1] Hm. unfold MAX_TIME in Hnow1.
    pose proof (Z.mul_div_le now 1000 ltac:(lia)).
    pose proof (Z.div_pos now 1000 ltac:(lia) ltac:(lia)).
    rewrite (Hts (expiry_minutes cfg payload) (now / 1000)) in Hcases by lia.
    rewrite Hcases. eauto.
  - intros Hts Hm. now rewrite (Hts _ _ Hm) in Hcases.
Qed.

End RequestProperties.

(** *** The request properties on concrete runs *)

Lemma X25_fetched_segment_then_hit_witness :
  let origin := fun _ : string =>
    ProxyIO.Responded 200 None [[x01; x02]; [x03]] in
  let origin' := fun _ : string => ProxyIO.Failed in
  let encryptedUrl :=
    Auth.encryptUrl Toy.crypto fallbackConfig (repeat x07 16)
      "https://o.example/live/seg1.ts" in
  let r1 := ProxyIO.proxySegment Toy.crypto fallbackConfig origin 0 10
              encryptedUrl Proxy.empty_cache in
  fst r1 = {| ProxyIO.status := 200;
              ProxyIO.headers := ProxyIO.miss_headers [];
              ProxyIO.body := ProxyIO.Bytes (List.concat [[x01; x02]; [x03]]) |} /\
  ProxyIO.proxySegment Toy.crypto fallbackConfig origin' 20000 20010
    encryptedUrl (snd r1)
  = ({| ProxyIO.status := 200;
        ProxyIO.headers := ProxyIO.hit_headers [];
        ProxyIO.body := ProxyIO.Bytes (List.concat [[x01; x02]; [x03]]) |},
     snd r1).
Proof.
  intros origin origin' encryptedUrl.
  apply (X25_fetched_segment_then_hit Toy.crypto fallbackConfig origin origin'
           0 10 20000 20010 encryptedUrl Proxy.empty_cache
           "https://o.example/live/seg1.ts" None [[x01; x02]; [x03]]).
  - reflexivity.
  - exact (decryptUrl_encryptUrl Toy.crypto fallbackConfig (repeat x07 16)
             "https://o.example/live/seg1.ts" toy_correct).
  - reflexivity.
  - lia.
Defined.

Lemma X26_only_fetched_200_bodies_cached_witness :
  ProxyIO.proxySegment Toy.crypto fallbackConfig
    (fun _ : string => ProxyIO.Responded 200 None [[x01]]) 0 10
    "00ff:00ff" Proxy.empty_cache
  = ({| ProxyIO.status := 500; ProxyIO.headers := [];
        ProxyIO.body := ProxyIO.NoBody |}, Proxy.empty_cache).
Proof.
  apply (proj2 (X26_only_fetched_200_bodies_cached Toy.crypto fallbackConfig
                  (fun _ : string => ProxyIO.Responded 200 None [[x01]]) 0 10
                  "00ff:00ff" Proxy.empty_cache)).
  - reflexivity.
  - intros url H. vm_compute in H. discriminate.
Defined.

Lemma X27_miss_response_has_no_content_type_witness :
  let r := fst (ProxyIO.proxySegment Toy.crypto fallbackConfig
                  (fun _ : string => ProxyIO.Responded 200 None [[x01]]) 0 10
                  (Auth.encryptUrl Toy.crypto fallbackConfig (repeat x07 16)
                     "https://o.example/live/seg1.ts")
                  Proxy.empty_cache) in
  ProxyIO.header "Content-Type" (ProxyIO.headers r) = None /\
  ProxyIO.header "Access-Type" (ProxyIO.headers r) = Some "video/mp2t".
Proof.
  intros r.
  apply (proj1 (X27_miss_response_has_no_content_type Toy.crypto fallbackConfig
                  (fun _ : string => ProxyIO.Responded 200 None [[x01]]) 0 10
                  (Auth.encryptUrl Toy.crypto fallbackConfig (repeat x07 16)
                     "https://o.example/live/seg1.ts")
                  Proxy.empty_cache)).
  vm_compute. reflexivity.
Defined.

Lemma X28_redirected_manifest_rewritten_against_target_witness :
  let origin := fun u : string =>
    if String.eqb u "https://o.example/live/a.m3u8"
    then ProxyIO.Responded 302 (Some "/vod/b.m3u8") []
    else ProxyIO.Responded 200 None [list_byte_of_string "seg1.ts"] in
  let redirectIv := fun _ : nat => repeat x2a 16 in
  let rnd := fun _ : nat => repeat x11 16 in
  let encryptedUrl :=
    Auth.encryptUrl Toy.crypto fallbackConfig (repeat x07 16)
      "https://o.example/live/a.m3u8" in
  ProxyIO.proxyManifest Toy.crypto fallbackConfig Url.rfc3986 origin 2 []
    redirectIv rnd encryptedUrl "https://proxy.example/proxy"
  = Some
      match Proxy.rewriteManifestUrls Toy.crypto fallbackConfig Url.rfc3986 rnd
              (String.concat EmptyString
                 (List.map string_of_list_byte
                    [list_byte_of_string "seg1.ts"]))
              "https://o.example/vod/b.m3u8" "https://proxy.example/proxy"
              (Auth.encryptUrl Toy.crypto fallbackConfig (redirectIv 1%nat)
                 "https://o.example/vod/b.m3u8") with
      | Return rewrittenManifest =>
          {| ProxyIO.status := 200;
             ProxyIO.headers := ProxyIO.manifest_headers [];
             ProxyIO.body := ProxyIO.Text rewrittenManifest |}
      | Throw _ =>
          {| ProxyIO.status := 500;
             ProxyIO.headers := ProxyIO.manifest_headers [];
             ProxyIO.body := ProxyIO.Json "Failed to process manifest" None |}
      end /\
  Proxy.rewriteManifestUrls Toy.crypto fallbackConfig Url.rfc3986 rnd
    "seg1.ts" "https://o.example/vod/b.m3u8" "https://proxy.example/proxy"
    (Auth.encryptUrl Toy.crypto fallbackConfig (redirectIv 1%nat)
       "https://o.example/vod/b.m3u8")
  = Return
      ("https://proxy.example/proxy/segment?url=" ++
       Js.encodeURIComponent
         (Auth.encryptUrl Toy.crypto fallbackConfig (repeat x11 16)
            "https://o.example/vod/seg1.ts")).
Proof.
  intros origin redirectIv rnd encryptedUrl. split.
  - apply (X28_redirected_manifest_rewritten_against_target Toy.crypto
             fallbackConfig Url.rfc3986 toy_correct origin 0 redirectIv rnd
             encryptedUrl "https://proxy.example/proxy"
             "https://o.example/live/a.m3u8" 302 "/vod/b.m3u8" []
             "https://o.example/vod/b.m3u8" None
             [list_byte_of_string "seg1.ts"]).
    + exact (decryptUrl_encryptUrl Toy.crypto fallbackConfig (repeat x07 16)
               "https://o.example/live/a.m3u8" toy_correct).
    + reflexivity.
    + lia.
    + discriminate.
    + reflexivity.
    + reflexivity.
  - vm_compute. reflexivity.
Defined.

Lemma X29_redirects_followed_without_limit_witness :
  let origin := fun _ : string =>
    ProxyIO.Responded 302 (Some "https://o.example/live/a.m3u8") [] in
  ProxyIO.proxyManifest Toy.crypto fallbackConfig Url.rfc3986 origin 25 []
    (fun _ : nat => repeat x2a 16) (fun _ : nat => repeat x11 16)
    (Auth.encryptUrl Toy.crypto fallbackConfig (repeat x07 16)
       "https://o.example/live/a.m3u8")
    "https://proxy.example/proxy"
  = None.
Proof.
  intros origin.
  apply (X29_redirects_followed_without_limit Toy.crypto fallbackConfig
           Url.rfc3986 toy_correct origin)
    with (url := "https://o.example/live/a.m3u8").
  - intros url. exists 302, "https://o.example/live/a.m3u8", [].
    split; [reflexivity|]. split; [lia | discriminate].
  - exact (decryptUrl_encryptUrl Toy.crypto fallbackConfig (repeat x07 16)
             "https://o.example/live/a.m3u8" toy_correct).
Defined.

(** A stream with one viewer is stopped, and a token is issued for it
    again; an expiry of 10^21 minutes is refused. *)
Lemma X30_reissue_replaces_record_witness :
  let st0 := snd (Auth.generateToken Toy.crypto fallbackConfig
                    Jwt.exact_timespan 0 "raw-1" (repeat x07 16) "jti-1"
                    sample_payload Auth.empty_store) in
  let st1 := match Auth.registerViewer 100 "stream-1" (Some "viewer-1") "u1" st0 with
             | Return (_, st) => st
             | Throw _ => st0
             end in
  let st2 := snd (Auth.stopStream 200 "jti-2" "stream-1" st1) in
  let r := Auth.generateToken Toy.crypto fallbackConfig Jwt.exact_timespan
             300 "raw-2" (repeat x2a 16) "jti-3" sample_payload st2 in
  let refused :=
    {| Auth.payloadStreamId := Some "stream-1";
       Auth.payloadOriginalUrl := "https://o.example/a.m3u8";
       Auth.payloadExpiryMinutes := Some (10 ^ 21) |} in
  (exists g d',
      fst r = Return g /\
      Auth.activeStreams (snd r) !! "stream-1" = Some d' /\
      Auth.isActive d' = true /\ Auth.viewerCount d' = 0 /\
      Auth.tokenJti d' = "jti-3") /\
  Auth.generateToken Toy.crypto fallbackConfig Jwt.exact_timespan
    300 "raw-2" (repeat x2a 16) "jti-3" refused st2
  = (Throw "Failed to generate access token", st2).
Proof.
  intros st0 st1 st2 r refused. split.
  - destruct (X30_reissue_replaces_record Toy.crypto fallbackConfig
                Jwt.exact_timespan 300 "raw-2" (repeat x2a 16) "jti-3"
                sample_payload st2 "stream-1" eq_refl ltac:(discriminate))
      as (Hreturned & _ & Hreturns & _).
    destruct (Hreturns exact_timespan_exact) as [g Hg].
    + unfold clock, MAX_TIME. lia.
    + vm_compute. discriminate.
    + destruct (Hreturned g Hg) as ((d' & Hd' & Hactive & Hcount & Hjti) & _).
      exists g, d'. auto.
  - apply (proj2 (proj2 (proj2
             (X30_reissue_replaces_record Toy.crypto fallbackConfig
                Jwt.exact_timespan 300 "raw-2" (repeat x2a 16) "jti-3"
                refused st2 "stream-1" eq_refl ltac:(discriminate))))
             exact_timespan_unparsed).
    vm_compute. discriminate.
Defined.
